(** * Fast-reroute controller: shortest paths, loop-free alternates and
      failure notifications

    A shallow embedding of [07-Fast-Reroute/solution/controller.py]
    (class [RerouteController]) together with the parts of networkx and
    p4utils the controller calls, and the properties of the route
    computation proved about it.

    Conventions.
    - Node names are Python strings; they are [string] here.
    - A Python [dict] keeps its keys in insertion order: it is an
      association list, read with [dict_get] (first match), written with
      [dict_set] (in place when the key exists, appended otherwise).
    - A Python [set] is a duplicate-free list; the order in which Python
      iterates over it is not fixed by the language, so it is the parameter
      [set_iter] of the controller's functions.
    - Link weights are natural numbers: the model is of the controller on
      topologies whose link weights are non-negative integers (a link
      without one counts 1, as in networkx). Python adds and compares
      integers exactly, so that the sums and comparisons of distances are
      those of [nat]. On a topology with float weights the sums of the code
      round, in the order in which the links are visited; what is stated
      below about distances as sums of weights is stated for integer weights
      and says nothing of such a topology.
    - Exceptions are the type [exn]; a computation that may raise returns
      [Res]. *)

From Stdlib Require Import String Ascii List Arith Bool Lia PeanoNat NArith.
From Stdlib Require Import Permutation Sorted DecimalString.
Import ListNotations.
Open Scope string_scope.
Open Scope list_scope.
Open Scope nat_scope.

Set Implicit Arguments.

(* ================================================================== *)
(** ** Exceptions and results *)

Inductive exn : Type :=
| KeyError        (* dict lookup of an absent key *)
| IndexError      (* list index out of range *)
| ValueError      (* list.index of an absent value; networkx's negative-weight check *)
| NetworkXError   (* networkx: removing an edge that is not in the graph *)
| NodeNotFound    (* networkx: a source that is not a node of the graph *)
| StructError     (* struct.unpack on a buffer of the wrong size *)
| AttributeError  (* reading an attribute the object does not have *)
| FuelExhausted.  (* the loop bound of the model ran out; shown unreachable *)

Inductive Res (A : Type) : Type :=
| Ok (a : A)
| Raise (e : exn).

Arguments Ok {A} a.
Arguments Raise {A} e.

Definition res_bind {A B} (r : Res A) (k : A -> Res B) : Res B :=
  match r with
  | Ok a => k a
  | Raise e => Raise e
  end.

Definition of_option {A} (e : exn) (o : option A) : Res A :=
  match o with
  | Some a => Ok a
  | None => Raise e
  end.

(* ================================================================== *)
(** ** Python dictionaries keyed by strings *)

Definition Node := string.
Definition Dict (V : Type) := list (Node * V).

Section Dicts.
Variable V : Type.

Fixpoint dict_get (d : Dict V) (k : Node) : option V :=
  match d with
  | [] => None
  | (k', v) :: t => if String.eqb k' k then Some v else dict_get t k
  end.

Definition dict_mem (d : Dict V) (k : Node) : bool :=
  match dict_get d k with Some _ => true | None => false end.

(** [d[k] = v] *)
Fixpoint dict_set (d : Dict V) (k : Node) (v : V) : Dict V :=
  match d with
  | [] => [(k, v)]
  | (k', v') :: t =>
      if String.eqb k' k then (k', v) :: t else (k', v') :: dict_set t k v
  end.

(** [del d[k]], for a key known to be present *)
Definition dict_del (d : Dict V) (k : Node) : Dict V :=
  filter (fun kv => negb (String.eqb (fst kv) k)) d.

Definition dict_keys (d : Dict V) : list Node := map fst d.

Lemma dict_get_set (d : Dict V) k v k' :
  dict_get (dict_set d k v) k' = if String.eqb k k' then Some v else dict_get d k'.
Proof.
  induction d as [|[a b] t IH]; simpl.
  - reflexivity.
  - destruct (String.eqb_spec a k) as [->|Hak]; simpl.
    + destruct (String.eqb k k'); reflexivity.
    + rewrite IH. destruct (String.eqb_spec a k') as [->|Hak'].
      * destruct (String.eqb_spec k k'); [congruence | reflexivity].
      * reflexivity.
Qed.

Lemma dict_get_del (d : Dict V) k k' :
  dict_get (dict_del d k) k' = if String.eqb k k' then None else dict_get d k'.
Proof.
  unfold dict_del. induction d as [|[a b] t IH]; simpl.
  - destruct (String.eqb k k'); reflexivity.
  - destruct (String.eqb_spec a k) as [->|Hak]; simpl.
    + rewrite IH. destruct (String.eqb k k'); reflexivity.
    + rewrite IH. destruct (String.eqb_spec a k') as [->|Hak'].
      * destruct (String.eqb_spec k k'); [congruence | reflexivity].
      * reflexivity.
Qed.

Lemma dict_get_In (d : Dict V) k v : dict_get d k = Some v -> In (k, v) d.
Proof.
  induction d as [|[a b] t IH]; simpl; [discriminate|].
  destruct (String.eqb_spec a k) as [->|_].
  - intros [= ->]. now left.
  - intros H. right. now apply IH.
Qed.

Lemma dict_In_get (d : Dict V) k v :
  In (k, v) d -> exists v', dict_get d k = Some v'.
Proof.
  induction d as [|[a b] t IH]; simpl; [tauto|].
  intros [[= -> ->]|H].
  - rewrite String.eqb_refl. eauto.
  - destruct (String.eqb a k); eauto.
Qed.

Lemma dict_set_In (d : Dict V) k v k' v' :
  In (k', v') (dict_set d k v) -> (k' = k /\ v' = v) \/ In (k', v') d.
Proof.
  induction d as [|[a b] t IH]; simpl.
  - intros [[= -> ->]|[]]. now left.
  - destruct (String.eqb_spec a k) as [->|_]; simpl.
    + intros [[= -> ->]|H]; [now left | right; now right].
    + intros [H|H]; [right; now left|].
      destruct (IH H) as [?|?]; [now left | right; now right].
Qed.

Lemma dict_set_length (d : Dict V) k v :
  length (dict_set d k v) <= S (length d).
Proof.
  induction d as [|[a b] t IH]; simpl; [lia|].
  destruct (String.eqb a k); simpl; lia.
Qed.

Lemma dict_set_keys_nodup (d : Dict V) k v :
  NoDup (dict_keys d) -> NoDup (dict_keys (dict_set d k v)).
Proof.
  unfold dict_keys. induction d as [|[a b] t IH]; simpl; intros Hnd.
  - constructor; [intros [] | constructor].
  - destruct (String.eqb_spec a k) as [->|Hne]; simpl; [exact Hnd|].
    inversion Hnd as [|? ? Hni Ht]; subst. constructor; [|now apply IH].
    intros Hin. apply in_map_iff in Hin. destruct Hin as ([k' v'] & Hk & Hin).
    simpl in Hk. subst k'. apply dict_set_In in Hin.
    destruct Hin as [[-> _]|Hin]; [congruence|].
    apply Hni. change a with (fst (a, v')). now apply in_map.
Qed.

Lemma dict_nodup_In_get (d : Dict V) k v :
  NoDup (dict_keys d) -> In (k, v) d -> dict_get d k = Some v.
Proof.
  unfold dict_keys. induction d as [|[a b] t IH]; simpl; [tauto|].
  intros Hnd [[= -> ->]|Hin].
  - now rewrite String.eqb_refl.
  - inversion Hnd as [|? ? Hni Ht]; subst.
    destruct (String.eqb_spec a k) as [->|_]; [|now apply IH].
    exfalso. apply Hni. change k with (fst (k, v)). now apply in_map.
Qed.
End Dicts.

(* ================================================================== *)
(** ** networkx: the graph object *)

(** The attribute dictionary of a link as seen from one endpoint:
    ['weight'] (optional) and the port of that endpoint on the link. *)
Record EdgeAttr : Type := {
  weight : option nat;
  port : N
}.

(** Node attributes p4utils stores on the graph: the two flags the
    controller reads, and the address of a host's interface. *)
Record NodeAttr : Type := {
  isHost : bool;
  isP4Switch : bool;
  ip : option string
}.

(** [nx.Graph]: [_node] and [_adj]. networkx keeps both keyed by the same
    nodes in the same order; [_adj[u][v]] and [_adj[v][u]] are both present
    for a link u-v. *)
Record NetworkGraph : Type := {
  g_node : Dict NodeAttr;
  g_adj : Dict (Dict EdgeAttr)
}.

Definition has_edge (G : NetworkGraph) (u v : Node) : Prop :=
  exists nbrs e, dict_get (g_adj G) u = Some nbrs /\ dict_get nbrs v = Some e.

Definition has_edgeb (G : NetworkGraph) (u v : Node) : bool :=
  match dict_get (g_adj G) u with
  | Some nbrs => dict_mem nbrs v
  | None => false
  end.

Definition set_adj (G : NetworkGraph) (a : Dict (Dict EdgeAttr)) : NetworkGraph :=
  {| g_node := g_node G; g_adj := a |}.

(** [Graph.remove_edge(u, v)]:
<<
    try:
        del self._adj[u][v]
        if u != v:
            del self._adj[v][u]
    except KeyError as err:
        raise NetworkXError(...) from err
>> *)
Definition remove_edge (G : NetworkGraph) (u v : Node) : Res NetworkGraph :=
  match dict_get (g_adj G) u with
  | None => Raise NetworkXError
  | Some nu =>
      if dict_mem nu v then
        let G1 := set_adj G (dict_set (g_adj G) u (dict_del nu v)) in
        if String.eqb u v then Ok G1
        else
          match dict_get (g_adj G1) v with
          | None => Raise NetworkXError
          | Some nv =>
              if dict_mem nv u
              then Ok (set_adj G1 (dict_set (g_adj G1) v (dict_del nv u)))
              else Raise NetworkXError
          end
      else Raise NetworkXError
  end.

(** [adj[u]], empty when [u] has no entry yet. *)
Definition adj_get (adj : Dict (Dict EdgeAttr)) (u : Node) : Dict EdgeAttr :=
  match dict_get adj u with
  | Some d => d
  | None => []
  end.

(** [adj[u][v] = e] *)
Definition set_entry (adj : Dict (Dict EdgeAttr)) (u v : Node) (e : EdgeAttr)
  : Dict (Dict EdgeAttr) :=
  dict_set adj u (dict_set (adj_get adj u) v e).

(** One round of [add_edges_from] in [Graph.copy()], for the entry
    [_adj[u][v]] of the graph copied: the link is recorded at [u] and at [v]
    (there with the attributes as [v] sees them). *)
Definition copy_edge (G : NetworkGraph) (adj' : Dict (Dict EdgeAttr)) (u : Node)
  (ve : Node * EdgeAttr) : Dict (Dict EdgeAttr) :=
  let (v, e) := ve in
  let e' := match dict_get (adj_get (g_adj G) v) u with
            | Some x => x
            | None => e
            end in
  set_entry (set_entry adj' u v e) v u e'.

Definition copy_edges (G : NetworkGraph) (adj' : Dict (Dict EdgeAttr))
  (un : Node * Dict EdgeAttr) : Dict (Dict EdgeAttr) :=
  fold_left (fun a ve => copy_edge G a (fst un) ve) (snd un) adj'.

(** [Graph.copy()]:
<<
    G = self.__class__()
    G.add_nodes_from((n, d.copy()) for n, d in self._node.items())
    G.add_edges_from((u, v, datadict.copy())
                     for u, nbrs in self._adj.items()
                     for v, datadict in nbrs.items())
>>
    The nodes keep their order; the neighbours of a node come in the order
    in which the links are added, which need not be the order they have in
    the graph copied. *)
Definition nx_copy (G : NetworkGraph) : NetworkGraph :=
  {| g_node := g_node G;
     g_adj := fold_left (copy_edges G) (g_adj G)
                (map (fun na => (fst na, [])) (g_node G)) |}.

(* ================================================================== *)
(** ** networkx: Dijkstra's algorithm

    [_dijkstra_multisource(G, [source], weight, paths=paths)] of
    [networkx/algorithms/shortest_paths/weighted.py], with [pred], [cutoff]
    and [target] all [None] as [all_pairs_dijkstra] calls it. *)

(** An entry [(distance, c, node)] of the fringe; [c] is the value of the
    [count()] iterator when the entry was pushed. *)
Definition FringeItem : Type := (nat * nat * Node)%type.

(** Python's tuple order on fringe entries. Counters are pairwise distinct,
    so the comparison never reaches the node names. *)
Definition item_lt (a b : FringeItem) : bool :=
  let '(d1, c1, _) := a in
  let '(d2, c2, _) := b in
  (d1 <? d2) || ((d1 =? d2) && (c1 <? c2)).

(** [heappop]: removes and returns the least entry. The heap is kept as a
    plain list; which entry is least does not depend on the layout. *)
Fixpoint heappop (h : list FringeItem) : option (FringeItem * list FringeItem) :=
  match h with
  | [] => None
  | x :: t =>
      match heappop t with
      | None => Some (x, [])
      | Some (m, r) => if item_lt m x then Some (m, x :: r) else Some (x, t)
      end
  end.

Record DState : Type := {
  ds_dist : Dict nat;              (* dist: final distances *)
  ds_seen : Dict nat;              (* seen *)
  ds_paths : Dict (list Node);     (* paths *)
  ds_fringe : list FringeItem;     (* fringe *)
  ds_c : nat                       (* next value of the counter c *)
}.

(** [weight(v, u, e)] for [weight='weight']: [e.get('weight', 1)], a
    non-negative integer. *)
Definition cost (e : EdgeAttr) : nat :=
  match weight e with
  | Some w => w
  | None => 1
  end.

(** One round of [for u, e in G_succ[v].items()]. *)
Definition relax (v : Node) (st : DState) (ue : Node * EdgeAttr) : Res DState :=
  let (u, e) := ue in
  match dict_get (ds_dist st) v with
  | None => Raise KeyError
  | Some dv =>
      let vu_dist := dv + cost e in
      let push (_ : unit) :=
        match dict_get (ds_paths st) v with
        | None => Raise KeyError
        | Some pv =>
            Ok {| ds_dist := ds_dist st;
                  ds_seen := dict_set (ds_seen st) u vu_dist;
                  ds_paths := dict_set (ds_paths st) u (pv ++ [u]);
                  ds_fringe := (vu_dist, ds_c st, u) :: ds_fringe st;
                  ds_c := S (ds_c st) |}
        end in
      match dict_get (ds_dist st) u with
      | Some u_dist =>
          if vu_dist <? u_dist then Raise ValueError else Ok st
      | None =>
          match dict_get (ds_seen st) u with
          | None => push tt
          | Some su => if vu_dist <? su then push tt else Ok st
          end
      end
  end.

Fixpoint relax_all (v : Node) (nbrs : Dict EdgeAttr) (st : DState) : Res DState :=
  match nbrs with
  | [] => Ok st
  | ue :: t =>
      match relax v st ue with
      | Ok st' => relax_all v t st'
      | Raise e => Raise e
      end
  end.

(** [while fringe: ...]. [fuel] bounds the number of rounds; with
    [dijkstra_fuel] it is never reached ([dijkstra_loop_fuel] below). *)
Fixpoint dijkstra_loop (fuel : nat) (G_succ : Dict (Dict EdgeAttr)) (st : DState)
  : Res DState :=
  match fuel with
  | 0 => Raise FuelExhausted
  | S fuel' =>
      match heappop (ds_fringe st) with
      | None => Ok st
      | Some ((d, _, v), rest) =>
          if dict_mem (ds_dist st) v then
            dijkstra_loop fuel' G_succ
              {| ds_dist := ds_dist st; ds_seen := ds_seen st;
                 ds_paths := ds_paths st; ds_fringe := rest; ds_c := ds_c st |}
          else
            match dict_get G_succ v with
            | None => Raise KeyError
            | Some nbrs =>
                match relax_all v nbrs
                        {| ds_dist := dict_set (ds_dist st) v d;
                           ds_seen := ds_seen st; ds_paths := ds_paths st;
                           ds_fringe := rest; ds_c := ds_c st |} with
                | Ok st' => dijkstra_loop fuel' G_succ st'
                | Raise e => Raise e
                end
            end
      end
  end.

Definition total_degree (G_succ : Dict (Dict EdgeAttr)) : nat :=
  list_sum (map (fun kv => length (snd kv)) G_succ).

Definition dijkstra_fuel (G_succ : Dict (Dict EdgeAttr)) : nat :=
  S (S (total_degree G_succ)).

(** The state before the loop: [seen[source] = 0], the source pushed, and
    [paths = {source: [source]}]. *)
Definition dijkstra_init (source : Node) : DState :=
  {| ds_dist := []; ds_seen := [(source, 0)]; ds_paths := [(source, [source])];
     ds_fringe := [(0, 0, source)]; ds_c := 1 |}.

(** [single_source_dijkstra(G, source, weight='weight')]: the pair
    [(dist, paths)]. *)
Definition single_source_dijkstra (G : NetworkGraph) (source : Node)
  : Res (Dict nat * Dict (list Node)) :=
  if dict_mem (g_node G) source then
    match dijkstra_loop (dijkstra_fuel (g_adj G)) (g_adj G) (dijkstra_init source) with
    | Ok st => Ok (ds_dist st, ds_paths st)
    | Raise e => Raise e
    end
  else Raise NodeNotFound.

(** [dict(all_pairs_dijkstra(G, weight='weight'))]: one run per node of
    [G], in the order of [G]'s nodes. *)
Fixpoint all_pairs_from (G : NetworkGraph) (nodes : list Node)
  (acc : Dict (Dict nat * Dict (list Node)))
  : Res (Dict (Dict nat * Dict (list Node))) :=
  match nodes with
  | [] => Ok acc
  | n :: t =>
      match single_source_dijkstra G n with
      | Ok data => all_pairs_from G t (dict_set acc n data)
      | Raise e => Raise e
      end
  end.

Definition all_pairs_dijkstra (G : NetworkGraph)
  : Res (Dict (Dict nat * Dict (list Node))) :=
  all_pairs_from G (dict_keys (g_node G)) [].

Definition DistTable : Type := Dict (Dict nat).
Definition PathTable : Type := Dict (Dict (list Node)).

(* ================================================================== *)
(** ** p4utils: what the controller reads from the topology

    [load_topo] returns a [NetworkGraph], a subclass of [nx.Graph]; these
    are its lookups, as functions of the graph object. *)

(** A link, named by its two endpoints. *)
Abbreviation Edge := (Node * Node)%type (only parsing).

Definition edge_eqb (a b : Edge) : bool :=
  String.eqb (fst a) (fst b) && String.eqb (snd a) (snd b).

(** [get_hosts()]: the nodes flagged [isHost], in node order (the keys of
    the returned dictionary). *)
Definition get_hosts (G : NetworkGraph) : list Node :=
  dict_keys (filter (fun na => isHost (snd na)) (g_node G)).

(** [get_p4switches()] *)
Definition get_p4switches (G : NetworkGraph) : list Node :=
  dict_keys (filter (fun na => isP4Switch (snd na)) (g_node G)).

Definition isP4Switch_node (G : NetworkGraph) (n : Node) : bool :=
  match dict_get (g_node G) n with
  | Some a => isP4Switch a
  | None => false
  end.

(** [get_p4switches_connected_to(name)]: the neighbours of [name] that are
    P4 switches. *)
Definition get_p4switches_connected_to (G : NetworkGraph) (name : Node)
  : Res (list Node) :=
  match dict_get (g_adj G) name with
  | None => Raise KeyError
  | Some nbrs => Ok (filter (isP4Switch_node G) (dict_keys nbrs))
  end.

(** [node_to_node_port_num(node1, node2)]: the port of [node1] on its link
    to [node2]; raises when there is no such link. *)
Definition node_to_node_port_num (G : NetworkGraph) (node1 node2 : Node) : Res N :=
  match dict_get (g_adj G) node1 with
  | None => Raise KeyError
  | Some nbrs =>
      match dict_get nbrs node2 with
      | None => Raise KeyError
      | Some e => Ok (port e)
      end
  end.

(** [port_to_node(node, port)]: the neighbour behind a port of [node];
    raises when no link of [node] uses that port. *)
Definition port_to_node (G : NetworkGraph) (node : Node) (p : N) : Res Node :=
  match dict_get (g_adj G) node with
  | None => Raise KeyError
  | Some nbrs =>
      match find (fun ue => N.eqb (port (snd ue)) p) nbrs with
      | None => Raise KeyError
      | Some ue => Ok (fst ue)
      end
  end.

(** [get_intfs()[host][get_host_gateway_name(host)]['ip']] *)
Definition host_gateway_ip (G : NetworkGraph) (host : Node) : Res string :=
  match dict_get (g_node G) host with
  | None => Raise KeyError
  | Some a => of_option KeyError (ip a)
  end.

(* ================================================================== *)
(** ** The controller object and its environment *)

(** Calls of the thrift client of a switch ([self.controllers[switch]]). *)
Inductive Cmd : Type :=
| table_clear (switch : Node) (table : string)
| table_add (switch : Node) (table action : string) (keys params : list string)
| register_write (switch : Node) (register : string) (index : nat) (value : N).

(** One constructor per [print] of the modelled methods, carrying the
    values the format string receives. *)
Inductive Output : Type :=
| out_installing_indices (switch : Node)
| out_indices_rule
| out_notification (failed_link : Edge) (delay : nat)
| out_updating_failure (failed_links : list Edge)
| out_not_connected
| out_cannot_reach (switch host : Node)
| out_updating_nexthops (switch : Node)
| out_installing_lfas
| out_lfas_rule
| out_no_lfa (switch host nexthop : Node).

(** A variable that holds a graph refers either to the object [self.topo]
    or to an object made by [Graph.copy()]. *)
Inductive Ref : Type :=
| RTopo
| RCopy (n : nat).

Record State : Type := {
  topo : NetworkGraph;            (* the object self.topo refers to *)
  copies : list NetworkGraph;     (* the objects made by Graph.copy() *)
  controllers : list Node;        (* the keys of self.controllers *)
  notification_delay : nat;       (* self.notification_delay *)
  failed_links : list Edge;       (* self.failed_links, a set *)
  stdout : list Output;           (* what was printed, oldest first *)
  rpc : list Cmd;                 (* calls made to the switches, oldest first *)
  clock : nat;                    (* the time *)
  update_calls : list (option (list Edge))
    (* ghost: the [failures] argument of every call of update_nexthops *)
}.

Definition empty_graph : NetworkGraph := {| g_node := []; g_adj := [] |}.

Definition deref (s : State) (r : Ref) : NetworkGraph :=
  match r with
  | RTopo => topo s
  | RCopy n => nth n (copies s) empty_graph
  end.

Fixpoint list_update {A} (l : list A) (n : nat) (a : A) : list A :=
  match l, n with
  | [], _ => []
  | _ :: t, 0 => a :: t
  | x :: t, S n' => x :: list_update t n' a
  end.

(** Overwrites the object a reference points to. *)
Definition assign (s : State) (r : Ref) (G : NetworkGraph) : State :=
  match r with
  | RTopo =>
      {| topo := G; copies := copies s; controllers := controllers s;
         notification_delay := notification_delay s;
         failed_links := failed_links s; stdout := stdout s; rpc := rpc s;
         clock := clock s; update_calls := update_calls s |}
  | RCopy n =>
      {| topo := topo s; copies := list_update (copies s) n G;
         controllers := controllers s;
         notification_delay := notification_delay s;
         failed_links := failed_links s; stdout := stdout s; rpc := rpc s;
         clock := clock s; update_calls := update_calls s |}
  end.

(** The monad of the controller's methods: state passing with exceptions.
    The state reached when an exception is raised is kept. *)
Definition M (A : Type) : Type := State -> State * Res A.

Definition ret {A} (a : A) : M A := fun s => (s, Ok a).

Definition raise {A} (e : exn) : M A := fun s => (s, Raise e).

Definition bind {A B} (m : M A) (k : A -> M B) : M B :=
  fun s =>
    match m s with
    | (s', Ok a) => k a s'
    | (s', Raise e) => (s', Raise e)
    end.

Definition lift {A} (r : Res A) : M A := fun s => (s, r).

Definition gets {A} (f : State -> A) : M A := fun s => (s, Ok (f s)).

Declare Scope ctl_scope.
Delimit Scope ctl_scope with ctl.
Notation "x <- m ;; k" := (bind m (fun x => k))
  (at level 61, m at next level, right associativity) : ctl_scope.
Notation "m ;;; k" := (bind m (fun _ => k))
  (at level 61, right associativity) : ctl_scope.
Open Scope ctl_scope.

(** [for x in l: acc = body(x, acc)], the loop's local variables being
    [acc]. *)
Fixpoint for_fold {A S} (l : list A) (acc : S) (body : A -> S -> M S) : M S :=
  match l with
  | [] => ret acc
  | x :: t => acc' <- body x acc ;; for_fold t acc' body
  end.

Definition for_each {A} (l : list A) (body : A -> M unit) : M unit :=
  for_fold l tt (fun x _ => body x).

Fixpoint res_fold {A S} (l : list A) (acc : S) (body : A -> S -> Res S) : Res S :=
  match l with
  | [] => Ok acc
  | x :: t => res_bind (body x acc) (fun acc' => res_fold t acc' body)
  end.

(** The state with more lines printed. *)
Definition add_out (s : State) (o : list Output) : State :=
  {| topo := topo s; copies := copies s; controllers := controllers s;
     notification_delay := notification_delay s;
     failed_links := failed_links s; stdout := stdout s ++ o; rpc := rpc s;
     clock := clock s; update_calls := update_calls s |}.

(** The state with more calls made to the switches. *)
Definition add_rpc (s : State) (c : list Cmd) : State :=
  {| topo := topo s; copies := copies s; controllers := controllers s;
     notification_delay := notification_delay s;
     failed_links := failed_links s; stdout := stdout s; rpc := rpc s ++ c;
     clock := clock s; update_calls := update_calls s |}.

Definition print (o : Output) : M unit := fun s => (add_out s [o], Ok tt).

(** A call [control.<method>(...)] on the client of a switch. *)
Definition call (c : Cmd) : M unit := fun s => (add_rpc s [c], Ok tt).

(** [time.sleep(d)]: returns when [d] units of time have passed. *)
Definition sleep (d : nat) : M unit :=
  fun s =>
    ({| topo := topo s; copies := copies s; controllers := controllers s;
        notification_delay := notification_delay s;
        failed_links := failed_links s; stdout := stdout s; rpc := rpc s;
        clock := clock s + d; update_calls := update_calls s |},
     Ok tt).

(** [graph.copy()]: a new object, the copy of the object [r] refers to. *)
Definition graph_copy (r : Ref) : M Ref :=
  fun s =>
    ({| topo := topo s; copies := copies s ++ [nx_copy (deref s r)];
        controllers := controllers s;
        notification_delay := notification_delay s;
        failed_links := failed_links s; stdout := stdout s; rpc := rpc s;
        clock := clock s; update_calls := update_calls s |},
     Ok (RCopy (length (copies s)))).

(** [graph.remove_edge(u, v)] on the object [r] refers to; the object is
    changed in place. (When the call raises, the model leaves the object as
    it was; the controller does not look at it again.) *)
Definition remove_edge_at (r : Ref) (u v : Node) : M unit :=
  fun s =>
    match remove_edge (deref s r) u v with
    | Ok G' => (assign s r G', Ok tt)
    | Raise e => (s, Raise e)
    end.

Notation "x <~ r ;; k" := (res_bind r (fun x => k))
  (at level 61, r at next level, right associativity) : ctl_scope.

(** [d[a][b]] *)
Definition lookup2 {V} (d : Dict (Dict V)) (a b : Node) : Res V :=
  match dict_get d a with
  | None => Raise KeyError
  | Some row => of_option KeyError (dict_get row b)
  end.

(* ================================================================== *)
(** ** Python built-ins used by the controller *)

(** [sorted] on a list of strings (by code point, which is the byte order
    of [String.leb]). *)
Fixpoint insert_sorted (x : string) (l : list string) : list string :=
  match l with
  | [] => [x]
  | y :: t => if String.leb x y then x :: y :: t else y :: insert_sorted x t
  end.

Fixpoint sorted (l : list string) : list string :=
  match l with
  | [] => []
  | x :: t => insert_sorted x (sorted t)
  end.

(** [l.index(x)]: the first position of [x], [ValueError] when absent. *)
Fixpoint list_index (x : string) (l : list string) : Res nat :=
  match l with
  | [] => Raise ValueError
  | y :: t =>
      if String.eqb y x then Ok 0
      else i <~ list_index x t ;; Ok (S i)
  end.

(** [tuple(sorted([a, b]))] *)
Definition sorted_pair (a b : Node) : Edge :=
  if String.ltb b a then (b, a) else (a, b).

(** [min(l, key=lambda x: x[1])]: the first element with the least second
    component. *)
Fixpoint py_min (l : list (Node * nat)) : option (Node * nat) :=
  match l with
  | [] => None
  | x :: t =>
      match py_min t with
      | None => Some x
      | Some m => if snd m <? snd x then Some m else Some x
      end
  end.

(** [str(n)] *)
Definition str (n : nat) : string := NilEmpty.string_of_uint (Nat.to_uint n).

(** [s.split("-")[0]] *)
Fixpoint split_head (s : string) : string :=
  match s with
  | EmptyString => EmptyString
  | String c t => if Ascii.eqb c "-"%char then EmptyString else String c (split_head t)
  end.

(** [struct.unpack("!H", load)[0]]: two bytes, big-endian. *)
Definition unpack_H (load : list N) : Res N :=
  match load with
  | [b0; b1] => Ok (b0 * 256 + b1)%N
  | _ => Raise StructError
  end.

(** The sniffed frame, as far as [process_packet] looks at it: the
    interface, and the two attributes it reads of the frame dissected again
    by scapy, [packet = Ether(raw(pkt))]. Either attribute may be missing,
    and reading it then raises [AttributeError]: scapy dissects a frame
    whose type/length field is at most 1500 as [Dot3], which has no [type],
    and a frame that ends with its Ethernet header has [NoPayload] for
    payload, which has no [load]. *)
Record Packet : Type := {
  sniffed_on : string;        (* pkt.sniffed_on *)
  ether_type : option N;      (* packet.type, when packet has one *)
  load : option (list N)      (* packet.payload.load (bytes), when there is one *)
}.

Definition set_mem (e : Edge) (s : list Edge) : bool := existsb (edge_eqb e) s.

(** [s.add(e)] *)
Definition set_add (e : Edge) (s : list Edge) : list Edge :=
  if set_mem e s then s else s ++ [e].

(* ================================================================== *)
(** ** class RerouteController *)

Section Controller.

(** The order in which Python iterates over a set. *)
Variable set_iter : forall A : Type, list A -> list A.

(** [dijkstra(self, failures=None)] *)
Definition dijkstra (failures : option (list Edge)) : M (DistTable * PathTable) :=
  graph <- match failures with
           | None => ret RTopo                       (* graph = self.topo *)
           | Some fs =>
               g <- graph_copy RTopo ;;              (* graph = graph.copy() *)
               for_each fs (fun failure =>
                 remove_edge_at g (fst failure) (snd failure)) ;;;
               ret g
           end ;;
  G <- gets (fun s => deref s graph) ;;
  dijkstra_ <- lift (all_pairs_dijkstra G) ;;
  ret (map (fun nd => (fst nd, fst (snd nd))) dijkstra_,
       map (fun nd => (fst nd, snd (snd nd))) dijkstra_).

(** The body of [for host in self.topo.get_hosts()] in [compute_nexthops]. *)
Definition nexthop_round (all_shortest_paths : PathTable) (switch host : Node)
  (switch_results : list (Node * Node)) : M (list (Node * Node)) :=
  match lookup2 all_shortest_paths switch host with
  | Raise _ =>                                       (* except KeyError *)
      print out_not_connected ;;;
      print (out_cannot_reach switch host) ;;;
      ret switch_results                             (* continue *)
  | Ok path =>
      match nth_error path 1 with                    (* nexthop = path[1] *)
      | None => raise IndexError
      | Some nexthop => ret (switch_results ++ [(host, nexthop)])
      end
  end.

(** [compute_nexthops(self, failures=None)] *)
Definition compute_nexthops (failures : option (list Edge))
  : M (Dict (list (Node * Node))) :=
  dp <- dijkstra failures ;;
  let all_shortest_paths := snd dp in
  switches <- gets controllers ;;
  for_fold switches [] (fun switch results =>
    hosts <- gets (fun s => get_hosts (topo s)) ;;
    switch_results <- for_fold hosts [] (nexthop_round all_shortest_paths switch) ;;
    ret (dict_set results switch switch_results)).

(** The body of [for alternate in others] in [compute_lfas]; the local
    variables are [noloop] and [switch_lfas]. *)
Definition lfa_round (_d : DistTable) (switch host alternate : Node)
  (vars : list (Node * nat) * Dict Node) : Res (list (Node * nat) * Dict Node) :=
  let (noloop, switch_lfas) := vars in
  dah <~ lookup2 _d alternate host ;;
  das <~ lookup2 _d alternate switch ;;
  dsh <~ lookup2 _d switch host ;;
  noloop' <~ (if dah <? das + dsh then
                dsa <~ lookup2 _d switch alternate ;;
                dah' <~ lookup2 _d alternate host ;;
                Ok (noloop ++ [(alternate, dsa + dah')])
              else Ok noloop) ;;
  match noloop' with
  | [] => Ok (noloop', switch_lfas)                  (* if not noloop: continue *)
  | _ :: _ =>
      m <~ of_option ValueError (py_min noloop') ;;
      Ok (noloop', dict_set switch_lfas host (fst m))
  end.

(** The body of [for host, nexthop in destinations] in [compute_lfas]. *)
Definition lfa_destination (_d : DistTable) (switch : Node) (connected : list Node)
  (dest : Node * Node) (switch_lfas : Dict Node) : Res (Dict Node) :=
  let (host, nexthop) := dest in
  if String.eqb nexthop host then Ok switch_lfas     (* continue *)
  else
    let others :=
      filter (fun n => negb (String.eqb n nexthop)) connected in
    vars <~ res_fold (set_iter others) ([], switch_lfas)
              (lfa_round _d switch host) ;;
    Ok (snd vars).

(** The loop of [compute_lfas] over [nexthops.items()], on the graph
    [self.topo] refers to. *)
Definition lfa_switches (G : NetworkGraph) (_d : DistTable)
  (nexthops : Dict (list (Node * Node))) : Res (Dict (Dict Node)) :=
  res_fold nexthops [] (fun sd lfas =>
    let (switch, destinations) := sd in
    nbrs <~ get_p4switches_connected_to G switch ;;
    let connected := nodup string_dec nbrs in        (* set(...) *)
    switch_lfas <~ res_fold destinations [] (lfa_destination _d switch connected) ;;
    Ok (dict_set lfas switch switch_lfas)).

(** [compute_lfas(self, nexthops, failures=None)] *)
Definition compute_lfas (nexthops : Dict (list (Node * Node)))
  (failures : option (list Edge)) : M (Dict (Dict Node)) :=
  dp <- dijkstra failures ;;
  G <- gets topo ;;
  lift (lfa_switches G (fst dp) nexthops).

(** [get_host_net(self, host)] *)
Definition get_host_net (host : Node) : M string :=
  G <- gets topo ;;
  lift (host_gateway_ip G host).

(** [get_nexthop_index(self, host)] *)
Definition get_nexthop_index (host : Node) : M nat :=
  G <- gets topo ;;
  let host_list := sorted (get_hosts G) in
  lift (list_index host host_list).

(** [get_port(self, node, nexthop_node)] *)
Definition get_port (node nexthop_node : Node) : M N :=
  G <- gets topo ;;
  lift (node_to_node_port_num G node nexthop_node).

(** [control = self.controllers[switch]] *)
Definition controller_of (switch : Node) : M unit :=
  cs <- gets controllers ;;
  if existsb (String.eqb switch) cs then ret tt else raise KeyError.

(** [install_nexthop_indices(self)] *)
Definition install_nexthop_indices : M unit :=
  switches <- gets controllers ;;
  for_each switches (fun switch =>
    print (out_installing_indices switch) ;;;
    print out_indices_rule ;;;
    call (table_clear switch "ipv4_lpm") ;;;
    hosts <- gets (fun s => get_hosts (topo s)) ;;
    for_each hosts (fun host =>
      subnet <- get_host_net host ;;
      index <- get_nexthop_index host ;;
      call (table_add switch "ipv4_lpm" "read_port" [subnet] [str index]))).

(** The first inner loop of [update_nexthops]. *)
Definition install_primary (switch : Node) (dest : Node * Node) : M unit :=
  let (host, nexthop) := dest in
  nexthop_id <- get_nexthop_index host ;;
  port <- get_port switch nexthop ;;
  call (register_write switch "primaryNH" nexthop_id port).

(** The second inner loop of [update_nexthops]. *)
Definition install_lfa (lfas : Dict (Dict Node)) (switch : Node)
  (dest : Node * Node) : M unit :=
  let (host, nexthop) := dest in
  nexthop_id <- get_nexthop_index host ;;
  if String.eqb host nexthop then ret tt             (* continue *)
  else
    lfa_nexthop <- match lookup2 lfas switch host with
                   | Ok alt => ret alt
                   | Raise _ =>                      (* except KeyError *)
                       print (out_no_lfa switch host nexthop) ;;;
                       ret nexthop
                   end ;;
    lfa_port <- get_port switch lfa_nexthop ;;
    call (register_write switch "alternativeNH" nexthop_id lfa_port).

Definition record_update (failures : option (list Edge)) : M unit :=
  fun s =>
    ({| topo := topo s; copies := copies s; controllers := controllers s;
        notification_delay := notification_delay s;
        failed_links := failed_links s; stdout := stdout s; rpc := rpc s;
        clock := clock s;
        update_calls := update_calls s ++ [failures] |},
     Ok tt).

(** [update_nexthops(self, failures=None)] *)
Definition update_nexthops (failures : option (list Edge)) : M unit :=
  record_update failures ;;;
  nexthops <- compute_nexthops failures ;;
  lfas <- compute_lfas nexthops failures ;;
  for_each nexthops (fun sd =>
    let (switch, destinations) := sd in
    print (out_updating_nexthops switch) ;;;
    controller_of switch ;;;
    for_each destinations (install_primary switch) ;;;
    print out_installing_lfas ;;;
    print out_lfas_rule ;;;
    for_each destinations (install_lfa lfas switch)).

(** [failure_notification(self, failures)] *)
Definition failure_notification (failures : list Edge) : M unit :=
  update_nexthops (Some failures).

Definition add_failed_link (e : Edge) : M unit :=
  fun s =>
    ({| topo := topo s; copies := copies s; controllers := controllers s;
        notification_delay := notification_delay s;
        failed_links := set_add e (failed_links s); stdout := stdout s;
        rpc := rpc s; clock := clock s; update_calls := update_calls s |},
     Ok tt).

(** [process_packet(self, pkt)] *)
Definition process_packet (pkt : Packet) : M unit :=
  let interface := sniffed_on pkt in
  let switch_name := split_head interface in
  type_ <- lift (of_option AttributeError (ether_type pkt)) ;;   (* packet.type *)
  if N.eqb type_ 0x1234 then
    load_ <- lift (of_option AttributeError (load pkt)) ;;       (* packet.payload.load *)
    payload <- lift (unpack_H load_) ;;
    let failed_flag := N.shiftr (N.land payload 0x0020) 5 in
    if N.eqb failed_flag 1 then
      let port := N.shiftr (N.land payload 0xff80) 7 in
      G <- gets topo ;;
      neighbor <- lift (port_to_node G switch_name port) ;;
      let failed_link := sorted_pair switch_name neighbor in
      known <- gets failed_links ;;
      if negb (set_mem failed_link known) then
        delay <- gets notification_delay ;;
        print (out_notification failed_link delay) ;;;
        sleep delay ;;;
        add_failed_link failed_link ;;;
        now_failed <- gets failed_links ;;
        print (out_updating_failure now_failed) ;;;
        failure_notification (set_iter now_failed)
      else ret tt
    else ret tt
  else ret tt.

(** The sniffer hands the frames to [process_packet] one after the other,
    each when it has arrived and the call for the one before has returned;
    an exception ends the loop. (Whether scapy's [sniff] lets an exception
    of the callback through or goes on with the next frame depends on its
    version; what is proved of the loop is also proved, where it matters, of
    the calls made in turn whatever each returns, [process_in_turn].) A
    frame is paired with its arrival time. *)
Definition wait_until (t : nat) : M unit :=
  fun s =>
    ({| topo := topo s; copies := copies s; controllers := controllers s;
        notification_delay := notification_delay s;
        failed_links := failed_links s; stdout := stdout s; rpc := rpc s;
        clock := Nat.max (clock s) t; update_calls := update_calls s |},
     Ok tt).

(** [run_cpu_port_loop(self)], on the frames that arrive. *)
Definition run_cpu_port_loop (arrivals : list (nat * Packet)) : M unit :=
  for_each arrivals (fun tp =>
    wait_until (fst tp) ;;;
    process_packet (snd tp)).

End Controller.

(* ================================================================== *)
(** ** Building topologies *)

Definition host_attr (addr : string) : NodeAttr :=
  {| isHost := true; isP4Switch := false; ip := Some addr |}.

Definition switch_attr : NodeAttr :=
  {| isHost := false; isP4Switch := true; ip := None |}.

(** A link [u]-[v] of weight [w], on port [pu] of [u] and port [pv] of [v]. *)
Record Link : Type := {
  l_u : Node; l_v : Node; l_w : nat; l_pu : N; l_pv : N
}.

(** [Graph.add_edge(u, v, ...)] on nodes already added. *)
Definition add_link (adj : Dict (Dict EdgeAttr)) (l : Link) : Dict (Dict EdgeAttr) :=
  let nu := match dict_get adj (l_u l) with Some d => d | None => [] end in
  let adj1 := dict_set adj (l_u l)
                (dict_set nu (l_v l) {| weight := Some (l_w l); port := l_pu l |}) in
  let nv := match dict_get adj1 (l_v l) with Some d => d | None => [] end in
  dict_set adj1 (l_v l)
    (dict_set nv (l_u l) {| weight := Some (l_w l); port := l_pv l |}).

Definition graph_of (nodes : Dict NodeAttr) (links : list Link) : NetworkGraph :=
  {| g_node := nodes;
     g_adj := fold_left add_link links (map (fun na => (fst na, [])) nodes) |}.

(** The controller right after [__init__] has loaded the topology and
    connected to the switches. *)
Definition initial_state (G : NetworkGraph) (delay : nat) : State :=
  {| topo := G; copies := []; controllers := get_p4switches G;
     notification_delay := delay; failed_links := []; stdout := []; rpc := [];
     clock := 0; update_calls := [] |}.

(** Sets iterated in the order of their elements' insertion. *)
Definition insertion_order : forall A : Type, list A -> list A := fun _ l => l.

Definition mk_link (u v : Node) (w : nat) (pu pv : N) : Link :=
  {| l_u := u; l_v := v; l_w := w; l_pu := pu; l_pv := pv |}.

(** The ring s1-s2-s3-s1 with one host per switch, all weights 1. *)
Definition ring3 : NetworkGraph :=
  graph_of
    [("h1", host_attr "10.0.1.1/24"); ("h2", host_attr "10.0.2.1/24");
     ("h3", host_attr "10.0.3.1/24");
     ("s1", switch_attr); ("s2", switch_attr); ("s3", switch_attr)]
    [mk_link "h1" "s1" 1 0 1; mk_link "h2" "s2" 1 0 1; mk_link "h3" "s3" 1 0 1;
     mk_link "s1" "s2" 1 2 2; mk_link "s2" "s3" 1 3 2; mk_link "s3" "s1" 1 3 3].

(* ================================================================== *)
(** ** Paths of a graph *)

(** [walk G s t p]: [p] lists the nodes of a walk of [G] from [s] to [t]. *)
Inductive walk (G : NetworkGraph) (s : Node) : Node -> list Node -> Prop :=
| walk_source : walk G s s [s]
| walk_step v u p : walk G s v p -> has_edge G v u -> walk G s u (p ++ [u]).

Lemma has_edgeb_spec G u v : has_edgeb G u v = true <-> has_edge G u v.
Proof.
  unfold has_edgeb, has_edge, dict_mem. split.
  - destruct (dict_get (g_adj G) u) as [nbrs|]; [|discriminate].
    destruct (dict_get nbrs v) as [e|] eqn:E; [|discriminate]. eauto.
  - intros (nbrs & e & -> & ->). reflexivity.
Qed.

Lemma walk_head G s t p : walk G s t p -> nth_error p 0 = Some s.
Proof.
  induction 1 as [|v u p _ IH _]; [reflexivity|].
  destruct p; [discriminate | exact IH].
Qed.

Lemma walk_last G s t p : walk G s t p -> nth_error p (length p - 1) = Some t.
Proof.
  induction 1 as [|v u p _ _ _]; [reflexivity|].
  rewrite length_app. simpl. replace (length p + 1 - 1) with (length p) by lia.
  rewrite nth_error_app2 by lia. now rewrite Nat.sub_diag.
Qed.

Lemma walk_nonempty G s t p : walk G s t p -> 1 <= length p.
Proof.
  induction 1; [simpl; lia|]. rewrite length_app. simpl. lia.
Qed.

(** Consecutive nodes of a walk are joined by a link. *)
Lemma walk_consecutive G s t p :
  walk G s t p ->
  forall i a b, nth_error p i = Some a -> nth_error p (S i) = Some b ->
                has_edge G a b.
Proof.
  induction 1 as [|v u p Hw IH He]; intros i a b Ha Hb.
  - destruct i; simpl in Hb; discriminate.
  - assert (Hlen := walk_nonempty Hw).
    destruct (Nat.lt_ge_cases (S i) (length p)) as [Hlt|Hge].
    + rewrite nth_error_app1 in Ha, Hb by lia. eauto.
    + assert (S i = length p) as Hi.
      { assert (S i < length (p ++ [u])) as Hb'
          by (apply nth_error_Some; congruence).
        rewrite length_app in Hb'. simpl in Hb'. lia. }
      rewrite nth_error_app1 in Ha by lia.
      rewrite nth_error_app2 in Hb by lia.
      rewrite Hi, Nat.sub_diag in Hb. injection Hb as <-.
      apply walk_last in Hw. replace (length p - 1) with i in Hw by lia.
      congruence.
Qed.

(** A walk between distinct nodes has a second node. *)
Lemma walk_second G s t p :
  walk G s t p -> s <> t -> exists n, nth_error p 1 = Some n.
Proof.
  intros Hw Hne. destruct Hw as [|v u p Hw He]; [congruence|].
  assert (Hlen := walk_nonempty Hw).
  destruct p as [|a [|b q]]; simpl in *; [lia | eauto | eauto].
Qed.

Lemma walk_mono (G G' : NetworkGraph) s t p :
  (forall a b, has_edge G a b -> has_edge G' a b) ->
  walk G s t p -> walk G' s t p.
Proof.
  intros Hsub. induction 1; econstructor; eauto.
Qed.

(* ================================================================== *)
(** ** Dijkstra: every recorded path is a walk from the source *)

Section DijkstraPaths.
Variable G : NetworkGraph.
Variable source : Node.

Definition paths_ok (st : DState) : Prop :=
  forall u p, In (u, p) (ds_paths st) -> walk G source u p.

Lemma relax_paths_ok v st ue st' :
  paths_ok st -> has_edge G v (fst ue) ->
  relax v st ue = Ok st' -> paths_ok st'.
Proof.
  intros Hok He. unfold relax. destruct ue as [u e]. simpl in He.
  destruct (dict_get (ds_dist st) v) as [dv|]; [|discriminate].
  assert (Hpush :
    match dict_get (ds_paths st) v with
    | Some pv =>
        Ok {| ds_dist := ds_dist st;
              ds_seen := dict_set (ds_seen st) u (dv + cost e);
              ds_paths := dict_set (ds_paths st) u (pv ++ [u]);
              ds_fringe := (dv + cost e, ds_c st, u) :: ds_fringe st;
              ds_c := S (ds_c st) |}
    | None => Raise KeyError
    end = Ok st' -> paths_ok st').
  { destruct (dict_get (ds_paths st) v) as [pv|] eqn:Epv; [|discriminate].
    intros [= <-]. intros w p Hin. simpl in Hin.
    apply dict_set_In in Hin. destruct Hin as [[-> ->]|Hin]; [|now apply Hok].
    eapply walk_step; [|exact He]. apply Hok. now apply dict_get_In. }
  destruct (dict_get (ds_dist st) u) as [ud|].
  - destruct (dv + cost e <? ud); [discriminate|]. now intros [= <-].
  - destruct (dict_get (ds_seen st) u) as [su|]; [|exact Hpush].
    destruct (dv + cost e <? su); [exact Hpush|]. now intros [= <-].
Qed.

Lemma relax_all_paths_ok v nbrs st st' :
  paths_ok st -> (forall ue, In ue nbrs -> has_edge G v (fst ue)) ->
  relax_all v nbrs st = Ok st' -> paths_ok st'.
Proof.
  revert st. induction nbrs as [|ue t IH]; simpl; intros st Hok He.
  - now intros [= <-].
  - destruct (relax v st ue) as [st1|] eqn:E1; [|discriminate].
    intros H. eapply IH; [| |exact H].
    + eapply relax_paths_ok; [exact Hok| |exact E1]. apply He. now left.
    + intros ue' Hin. apply He. now right.
Qed.

Lemma adjacency_has_edge v nbrs ue :
  dict_get (g_adj G) v = Some nbrs -> In ue nbrs -> has_edge G v (fst ue).
Proof.
  intros Hv Hin. destruct ue as [u e]. simpl.
  destruct (dict_In_get _ _ _ Hin) as [e' He']. exists nbrs, e'. auto.
Qed.

Lemma dijkstra_loop_paths_ok fuel st st' :
  paths_ok st -> dijkstra_loop fuel (g_adj G) st = Ok st' -> paths_ok st'.
Proof.
  revert st. induction fuel as [|fuel IH]; simpl; intros st Hok; [discriminate|].
  destruct (heappop (ds_fringe st)) as [[[[d c] v] rest]|].
  - destruct (dict_mem (ds_dist st) v).
    + apply IH. exact Hok.
    + destruct (dict_get (g_adj G) v) as [nbrs|] eqn:Ev; [|discriminate].
      destruct (relax_all _ _ _) as [st1|] eqn:E1; [|discriminate].
      apply IH. eapply relax_all_paths_ok; [| |exact E1].
      * exact Hok.
      * intros ue Hin. eapply adjacency_has_edge; eauto.
  - now intros [= <-].
Qed.

Lemma single_source_paths dist paths :
  single_source_dijkstra G source = Ok (dist, paths) ->
  forall t p, In (t, p) paths -> walk G source t p.
Proof.
  unfold single_source_dijkstra.
  destruct (dict_mem (g_node G) source); [|discriminate].
  destruct (dijkstra_loop _ _ _) as [st|] eqn:E; [|discriminate].
  intros [= <- <-]. eapply dijkstra_loop_paths_ok; [|exact E].
  intros u p [[= <- <-]|[]]. constructor.
Qed.

End DijkstraPaths.

Definition table_ok (G : NetworkGraph) (acc : Dict (Dict nat * Dict (list Node)))
  : Prop :=
  forall n data, In (n, data) acc ->
  forall t p, In (t, p) (snd data) -> walk G n t p.

Lemma all_pairs_from_paths G nodes acc r :
  table_ok G acc -> all_pairs_from G nodes acc = Ok r -> table_ok G r.
Proof.
  revert acc. induction nodes as [|n t IH]; simpl; intros acc Hok.
  - now intros [= <-].
  - destruct (single_source_dijkstra G n) as [[dist paths]|] eqn:E; [|discriminate].
    apply IH. intros m data Hin.
    apply dict_set_In in Hin. destruct Hin as [[-> ->]|Hin]; [|now apply Hok].
    simpl. eapply single_source_paths. exact E.
Qed.

Lemma all_pairs_dijkstra_paths G r :
  all_pairs_dijkstra G = Ok r -> table_ok G r.
Proof.
  apply all_pairs_from_paths. intros n data [].
Qed.

(* ================================================================== *)
(** ** Removing links *)

Lemma remove_edge_has_edge G u v G' :
  remove_edge G u v = Ok G' ->
  forall a b, has_edge G' a b <->
              has_edge G a b /\ ~ (a = u /\ b = v) /\ ~ (a = v /\ b = u).
Proof.
  unfold remove_edge.
  destruct (dict_get (g_adj G) u) as [nu|] eqn:Eu; [|discriminate].
  destruct (dict_mem nu v) eqn:Emv; [|discriminate].
  destruct (String.eqb_spec u v) as [<-|Huv].
  - intros [= <-] a b. unfold has_edge. simpl. rewrite dict_get_set.
    destruct (String.eqb_spec u a) as [<-|Hua].
    + split.
      * intros (nbrs & e & [= <-] & Hb). rewrite dict_get_del in Hb.
        destruct (String.eqb_spec u b) as [->|Hub]; [discriminate|].
        split; [eauto|]. split; intros [_ ?]; congruence.
      * intros ((nbrs & e & Hn & Hb) & Hne & _).
        rewrite Eu in Hn. injection Hn as <-.
        exists (dict_del nu u), e. split; [reflexivity|].
        rewrite dict_get_del.
        destruct (String.eqb_spec u b) as [->|Hub]; [exfalso; now apply Hne|exact Hb].
    + split.
      * intros H. split; [exact H|]. split; intros [? _]; congruence.
      * intros [H _]. exact H.
  - simpl. rewrite dict_get_set.
    destruct (String.eqb_spec u v) as [?|_]; [contradiction|].
    destruct (dict_get (g_adj G) v) as [nv|] eqn:Ev; [|discriminate].
    destruct (dict_mem nv u) eqn:Emu; [|discriminate].
    intros [= <-] a b. unfold has_edge. simpl. rewrite !dict_get_set.
    destruct (String.eqb_spec v a) as [<-|Hva].
    + split.
      * intros (nbrs & e & [= <-] & Hb). rewrite dict_get_del in Hb.
        destruct (String.eqb_spec u b) as [->|Hub]; [discriminate|].
        split; [eauto|]. split; intros [? ?]; congruence.
      * intros ((nbrs & e & Hn & Hb) & _ & Hne).
        rewrite Ev in Hn. injection Hn as <-.
        exists (dict_del nv u), e. split; [reflexivity|].
        rewrite dict_get_del.
        destruct (String.eqb_spec u b) as [->|Hub]; [exfalso; now apply Hne|exact Hb].
    + destruct (String.eqb_spec u a) as [<-|Hua].
      * split.
        -- intros (nbrs & e & [= <-] & Hb). rewrite dict_get_del in Hb.
           destruct (String.eqb_spec v b) as [->|Hvb]; [discriminate|].
           split; [eauto|]. split; intros [? ?]; congruence.
        -- intros ((nbrs & e & Hn & Hb) & Hne & _).
           rewrite Eu in Hn. injection Hn as <-.
           exists (dict_del nu v), e. split; [reflexivity|].
           rewrite dict_get_del.
           destruct (String.eqb_spec v b) as [->|Hvb];
             [exfalso; now apply Hne|exact Hb].
      * split.
        -- intros H. split; [exact H|]. split; intros [? _]; congruence.
        -- intros [H _]. exact H.
Qed.

(** [remove_edge] raises exactly when the link is not in the graph. *)
Lemma remove_edge_absent G u v :
  has_edgeb G u v = false -> remove_edge G u v = Raise NetworkXError.
Proof.
  unfold has_edgeb, remove_edge.
  destruct (dict_get (g_adj G) u) as [nu|]; [|reflexivity].
  intros ->. reflexivity.
Qed.

(** The loop [for failure in failures] of [dijkstra], which removes the
    link of every failure in turn, as a function of the graph. *)
Fixpoint remove_edges (G : NetworkGraph) (fs : list Edge) : Res NetworkGraph :=
  match fs with
  | [] => Ok G
  | f :: t => G' <~ remove_edge G (fst f) (snd f) ;; remove_edges G' t
  end.

(** The graph [dijkstra] runs on. *)
Definition without_failures (G : NetworkGraph) (failures : option (list Edge))
  : Res NetworkGraph :=
  match failures with
  | None => Ok G
  | Some fs => remove_edges (nx_copy G) fs
  end.

Definition same_link (f : Edge) (a b : Node) : Prop :=
  (fst f = a /\ snd f = b) \/ (fst f = b /\ snd f = a).

Lemma remove_edges_has_edge fs : forall G G',
  remove_edges G fs = Ok G' ->
  forall a b, has_edge G' a b <->
              has_edge G a b /\ forall f, In f fs -> ~ same_link f a b.
Proof.
  induction fs as [|f t IH]; simpl; intros G G'.
  - intros [= <-] a b. split; [intros H; split; [exact H | intros f []] | tauto].
  - destruct (remove_edge G (fst f) (snd f)) as [G1|] eqn:E1; [|discriminate].
    simpl. intros H a b. rewrite (IH _ _ H a b).
    rewrite (remove_edge_has_edge _ _ _ E1 a b). unfold same_link. split.
    + intros [(He & Hn1 & Hn2) Ht]. split; [exact He|].
      intros g [<-|Hg].
      * intros [[? ?]|[? ?]]; [apply Hn1 | apply Hn2]; auto.
      * now apply Ht.
    + intros [He Hall]. split; [split; [exact He|]|].
      * split; intros [-> ->]; apply (Hall f); auto.
      * intros g Hg. apply Hall. now right.
Qed.

(* ================================================================== *)
(** ** What [dijkstra] returns and what it changes *)

Definition tables_of (d : Dict (Dict nat * Dict (list Node)))
  : DistTable * PathTable :=
  (map (fun nd => (fst nd, fst (snd nd))) d,
   map (fun nd => (fst nd, snd (snd nd))) d).

(** The result of [dijkstra] as a function of the graph [self.topo] refers
    to and of [failures]. *)
Definition dijkstra_result (G : NetworkGraph) (failures : option (list Edge))
  : Res (DistTable * PathTable) :=
  G' <~ without_failures G failures ;;
  d <~ all_pairs_dijkstra G' ;;
  Ok (tables_of d).

Definition with_copies (s : State) (cs : list NetworkGraph) : State :=
  {| topo := topo s; copies := cs; controllers := controllers s;
     notification_delay := notification_delay s;
     failed_links := failed_links s; stdout := stdout s; rpc := rpc s;
     clock := clock s; update_calls := update_calls s |}.

Lemma with_copies_id s : with_copies s (copies s) = s.
Proof. now destruct s. Qed.

Lemma list_update_length {A} (l : list A) n a :
  length (list_update l n a) = length l.
Proof.
  revert n. induction l as [|x t IH]; intros [|n]; simpl; auto.
Qed.

Lemma list_update_nth {A} (l : list A) n a d :
  n < length l -> nth n (list_update l n a) d = a.
Proof.
  revert n. induction l as [|x t IH]; intros [|n]; simpl; try lia; auto.
  intros H. apply IH. lia.
Qed.

Lemma remove_loop_run fs : forall s n,
  n < length (copies s) ->
  exists cs,
    for_each fs (fun failure => remove_edge_at (RCopy n) (fst failure) (snd failure)) s
    = (with_copies s cs,
       _ <~ remove_edges (nth n (copies s) empty_graph) fs ;; Ok tt)
    /\ length cs = length (copies s)
    /\ forall G', remove_edges (nth n (copies s) empty_graph) fs = Ok G' ->
                  nth n cs empty_graph = G'.
Proof.
  unfold for_each.
  induction fs as [|f t IH]; intros s n Hn; simpl.
  - exists (copies s). unfold ret. rewrite with_copies_id.
    split; [reflexivity|]. split; [reflexivity|]. now intros G' [= <-].
  - unfold bind at 1. unfold remove_edge_at at 1. simpl.
    destruct (remove_edge (nth n (copies s) empty_graph) (fst f) (snd f))
      as [G1|e] eqn:E1; simpl.
    + destruct (IH (assign s (RCopy n) G1) n) as (cs & Hrun & Hlen & Hget).
      { simpl. now rewrite list_update_length. }
      simpl in Hrun, Hlen, Hget.
      rewrite list_update_nth in Hrun, Hget by exact Hn.
      rewrite list_update_length in Hlen.
      exists cs. split; [exact Hrun|]. split; [exact Hlen | exact Hget].
    + exists (copies s). rewrite with_copies_id.
      split; [reflexivity|]. split; [reflexivity | discriminate].
Qed.

(** [dijkstra] returns [dijkstra_result] of the graph of [self.topo], and
    changes nothing but the store of copies. *)
Lemma dijkstra_run failures s :
  exists cs, dijkstra failures s
             = (with_copies s cs, dijkstra_result (topo s) failures).
Proof.
  unfold dijkstra, dijkstra_result. destruct failures as [fs|]; simpl.
  - unfold bind at 1. unfold bind at 1. unfold bind at 1.
    unfold graph_copy at 1. simpl.
    match goal with
    | |- context [for_each fs _ ?s1] =>
        destruct (remove_loop_run fs s1 (n := length (copies s)))
          as (cs & Hrun & Hlen & Hget)
    end.
    { simpl. rewrite length_app. simpl. lia. }
    simpl in Hrun, Hget.
    assert (nth (length (copies s)) (copies s ++ [nx_copy (topo s)]) empty_graph
            = nx_copy (topo s)) as Hnth.
    { rewrite app_nth2 by lia. now rewrite Nat.sub_diag. }
    rewrite Hnth in Hrun, Hget.
    rewrite Hrun.
    destruct (remove_edges (nx_copy (topo s)) fs) as [G'|e] eqn:Erm; simpl.
    + exists cs. unfold ret, bind, gets, lift. simpl.
      rewrite (Hget G' eq_refl).
      destruct (all_pairs_dijkstra G'); reflexivity.
    + exists cs. reflexivity.
  - exists (copies s). unfold bind, ret, gets, lift. simpl.
    rewrite with_copies_id.
    destruct (all_pairs_dijkstra (topo s)); reflexivity.
Qed.

Lemma dict_get_map {A B} (f : A -> B) (d : Dict A) k :
  dict_get (map (fun kv => (fst kv, f (snd kv))) d) k
  = option_map f (dict_get d k).
Proof.
  induction d as [|[a b] t IH]; simpl; [reflexivity|].
  destruct (String.eqb a k); [reflexivity | exact IH].
Qed.

Lemma lookup2_paths d src dst p :
  lookup2 (snd (tables_of d)) src dst = Ok p ->
  exists data, In (src, data) d /\ In (dst, p) (snd data).
Proof.
  unfold lookup2, tables_of. simpl.
  rewrite (dict_get_map (fun x : Dict nat * Dict (list Node) => snd x)).
  destruct (dict_get d src) as [data|] eqn:E; simpl; [|discriminate].
  destruct (dict_get (snd data) dst) as [q|] eqn:E2; simpl; [|discriminate].
  intros [= <-]. exists data. split; now apply dict_get_In.
Qed.

Lemma dijkstra_result_walk G failures D P :
  dijkstra_result G failures = Ok (D, P) ->
  exists G', without_failures G failures = Ok G' /\
             forall src dst p, lookup2 P src dst = Ok p -> walk G' src dst p.
Proof.
  unfold dijkstra_result.
  destruct (without_failures G failures) as [G'|] eqn:EG; simpl; [|discriminate].
  destruct (all_pairs_dijkstra G') as [d|] eqn:Ed; simpl; [|discriminate].
  intros [= <- <-]. exists G'. split; [reflexivity|].
  intros src dst p Hp.
  destruct (lookup2_paths d src dst Hp) as (data & Hin & Hin').
  exact (all_pairs_dijkstra_paths _ Ed _ _ Hin _ _ Hin').
Qed.

Lemma dijkstra_snd failures s :
  snd (dijkstra failures s) = dijkstra_result (topo s) failures.
Proof.
  destruct (dijkstra_run failures s) as [cs ->]. reflexivity.
Qed.

(** The failures a list names, when there is one. *)
Definition failed (failures : option (list Edge)) : list Edge :=
  match failures with
  | Some fs => fs
  | None => []
  end.

(* ================================================================== *)
(** ** Dijkstra returns: no exception, and the loop bound is never reached *)

(** What networkx maintains of a graph: every node has its adjacency
    dictionary, and a link is recorded at both of its endpoints. *)
Definition wf_graph (G : NetworkGraph) : Prop :=
  NoDup (dict_keys (g_node G)) /\
  NoDup (dict_keys (g_adj G)) /\
  (forall n, dict_mem (g_node G) n = true -> dict_get (g_adj G) n <> None) /\
  (forall u v, has_edge G u v -> has_edge G v u).

Lemma wf_adjacency G n :
  wf_graph G -> dict_mem (g_node G) n = true -> dict_get (g_adj G) n <> None.
Proof. intros (_ & _ & H & _). apply H. Qed.

Lemma wf_symmetric G u v : wf_graph G -> has_edge G u v -> has_edge G v u.
Proof. intros (_ & _ & _ & H). apply H. Qed.

Lemma heappop_spec h : forall m r,
  heappop h = Some (m, r) ->
  In m h /\ length h = S (length r) /\ (forall y, In y r -> In y h) /\
  (forall y, In y h -> fst (fst m) <= fst (fst y)).
Proof.
  induction h as [|x t IH]; simpl; intros m r; [discriminate|].
  destruct (heappop t) as [[m' r']|] eqn:E.
  - destruct (IH _ _ eq_refl) as (Hin & Hlen & Hsub & Hmin).
    destruct (item_lt m' x) eqn:Elt; intros [= <- <-].
    + split; [now right|]. split; [simpl; lia|]. split.
      * intros y [<-|Hy]; [now left | right; now apply Hsub].
      * intros y [<-|Hy]; [|now apply Hmin].
        destruct m' as [[d1 c1] n1], x as [[d2 c2] n2]. simpl in *.
        apply orb_true_iff in Elt. destruct Elt as [Hl|Hl].
        -- apply Nat.ltb_lt in Hl. lia.
        -- apply andb_true_iff in Hl. destruct Hl as [Hl _].
           apply Nat.eqb_eq in Hl. lia.
    + split; [now left|]. split; [reflexivity|]. split; [intros y Hy; now right|].
      intros y [<-|Hy]; [lia|]. specialize (Hmin _ Hy).
      destruct m' as [[d1 c1] n1], x as [[d2 c2] n2]. simpl in *.
      apply orb_false_iff in Elt. destruct Elt as [Hl Hl2].
      apply Nat.ltb_ge in Hl. lia.
  - intros [= <- <-]. destruct t as [|z t']; [|simpl in E;
      destruct (heappop t') as [[? ?]|]; [destruct (item_lt _ _)|]; discriminate].
    split; [now left|]. split; [reflexivity|]. split; [intros y []|].
    intros y [<-|[]]. lia.
Qed.

Lemma heappop_none h : heappop h = None -> h = [].
Proof.
  destruct h as [|x t]; [reflexivity|]. simpl.
  destruct (heappop t) as [[m r]|]; [destruct (item_lt m x)|]; discriminate.
Qed.

(** The adjacency entries of the nodes whose distance is not final yet. *)
Definition pending (adj : Dict (Dict EdgeAttr)) (dist : Dict nat) : nat :=
  list_sum (map (fun kv => if dict_mem dist (fst kv) then 0 else length (snd kv)) adj).

Lemma dict_mem_set {V} (d : Dict V) k v k' :
  dict_mem (dict_set d k v) k' = String.eqb k k' || dict_mem d k'.
Proof.
  unfold dict_mem. rewrite dict_get_set.
  destruct (String.eqb k k'); [reflexivity|]. now destruct (dict_get d k').
Qed.

Lemma pending_mono adj dist v d :
  pending adj (dict_set dist v d) <= pending adj dist.
Proof.
  unfold pending. induction adj as [|[k nb] t IH]; simpl; [lia|].
  rewrite dict_mem_set. destruct (String.eqb v k); simpl.
  - destruct (dict_mem dist k); lia.
  - destruct (dict_mem dist k); lia.
Qed.

Lemma pending_final adj dist v d nbrs :
  dict_mem dist v = false -> dict_get adj v = Some nbrs ->
  pending adj (dict_set dist v d) + length nbrs <= pending adj dist.
Proof.
  intros Hv. unfold pending. induction adj as [|[k nb] t IH]; simpl; [discriminate|].
  rewrite dict_mem_set. destruct (String.eqb_spec k v) as [->|Hkv].
  - intros [= ->]. rewrite String.eqb_refl, Hv. simpl.
    assert (H := pending_mono t dist v d). unfold pending in H. lia.
  - intros Hg. specialize (IH Hg).
    destruct (String.eqb_spec v k) as [->|_]; [congruence|]. simpl.
    destruct (dict_mem dist k); lia.
Qed.

Lemma pending_empty adj : pending adj [] = total_degree adj.
Proof. reflexivity. Qed.

Section DijkstraTotal.
Variable G : NetworkGraph.
Hypothesis Hwf : wf_graph G.

(** Every fringe entry is a node with a recorded path and an adjacency. *)
Definition fringe_ok (st : DState) : Prop :=
  forall it, In it (ds_fringe st) ->
    dict_get (ds_paths st) (snd it) <> None /\
    dict_get (g_adj G) (snd it) <> None.

Lemma neighbour_has_adjacency v nbrs ue :
  dict_get (g_adj G) v = Some nbrs -> In ue nbrs ->
  dict_get (g_adj G) (fst ue) <> None.
Proof.
  intros Hv Hin. assert (He := adjacency_has_edge G v ue Hv Hin).
  apply (@wf_symmetric G _ _ Hwf) in He. destruct He as (n & e & Hn & _). congruence.
Qed.

Lemma relax_total v d st ue :
  dict_get (ds_dist st) v = Some d ->
  dict_get (ds_paths st) v <> None ->
  (forall u du, dict_get (ds_dist st) u = Some du -> du <= d) ->
  fringe_ok st ->
  dict_get (g_adj G) (fst ue) <> None ->
  exists st',
    relax v st ue = Ok st' /\ ds_dist st' = ds_dist st /\
    dict_get (ds_paths st') v <> None /\ fringe_ok st' /\
    (forall it, In it (ds_fringe st') ->
                In it (ds_fringe st) \/ d <= fst (fst it)) /\
    length (ds_fringe st') <= S (length (ds_fringe st)).
Proof.
  intros Hd Hp Hle Hok Hadj. unfold relax. destruct ue as [u e]. simpl in Hadj.
  rewrite Hd.
  destruct (dict_get (ds_paths st) v) as [pv|] eqn:Epv; [|congruence].
  assert (Hstay : exists st',
            Ok st = Ok st' /\ ds_dist st' = ds_dist st /\
            dict_get (ds_paths st') v <> None /\ fringe_ok st' /\
            (forall it, In it (ds_fringe st') ->
                        In it (ds_fringe st) \/ d <= fst (fst it)) /\
            length (ds_fringe st') <= S (length (ds_fringe st))).
  { exists st. repeat split; auto; try congruence; apply Hok; auto. }
  assert (Hpush : exists st',
            Ok {| ds_dist := ds_dist st;
                  ds_seen := dict_set (ds_seen st) u (d + cost e);
                  ds_paths := dict_set (ds_paths st) u (pv ++ [u]);
                  ds_fringe := (d + cost e, ds_c st, u) :: ds_fringe st;
                  ds_c := S (ds_c st) |} = Ok st' /\
            ds_dist st' = ds_dist st /\
            dict_get (ds_paths st') v <> None /\ fringe_ok st' /\
            (forall it, In it (ds_fringe st') ->
                        In it (ds_fringe st) \/ d <= fst (fst it)) /\
            length (ds_fringe st') <= S (length (ds_fringe st))).
  { eexists. split; [reflexivity|]. simpl. split; [reflexivity|]. split.
    - rewrite dict_get_set. destruct (String.eqb u v); congruence.
    - split; [|split; [|lia]].
      + intros it [<-|Hin]; simpl.
        * rewrite dict_get_set, String.eqb_refl. split; [discriminate | exact Hadj].
        * destruct (Hok _ Hin) as [H1 H2]. split; [|exact H2].
          rewrite dict_get_set. destruct (String.eqb u (snd it)); [discriminate|exact H1].
      + intros it [<-|Hin]; [right; simpl; lia | now left]. }
  destruct (dict_get (ds_dist st) u) as [ud|] eqn:Eu.
  - specialize (Hle _ _ Eu).
    destruct (Nat.ltb_spec (d + cost e) ud); [lia | exact Hstay].
  - destruct (dict_get (ds_seen st) u) as [su|]; [|exact Hpush].
    destruct (d + cost e <? su); [exact Hpush | exact Hstay].
Qed.

Lemma relax_all_total v d nbrs : forall st,
  dict_get (ds_dist st) v = Some d ->
  dict_get (ds_paths st) v <> None ->
  (forall u du, dict_get (ds_dist st) u = Some du -> du <= d) ->
  fringe_ok st ->
  (forall ue, In ue nbrs -> dict_get (g_adj G) (fst ue) <> None) ->
  exists st',
    relax_all v nbrs st = Ok st' /\ ds_dist st' = ds_dist st /\ fringe_ok st' /\
    (forall it, In it (ds_fringe st') ->
                In it (ds_fringe st) \/ d <= fst (fst it)) /\
    length (ds_fringe st') <= length (ds_fringe st) + length nbrs.
Proof.
  induction nbrs as [|ue t IH]; simpl; intros st Hd Hp Hle Hok Hadj.
  - exists st. repeat split; auto; try lia; apply Hok; auto.
  - destruct (@relax_total v d st ue Hd Hp Hle Hok (Hadj _ (or_introl eq_refl)))
      as (st1 & -> & Hd1 & Hp1 & Hok1 & Hfr1 & Hlen1).
    destruct (IH st1) as (st2 & Hr & Hd2 & Hok2 & Hfr2 & Hlen2).
    + now rewrite Hd1.
    + exact Hp1.
    + rewrite Hd1. exact Hle.
    + exact Hok1.
    + intros ue' Hin. apply Hadj. now right.
    + exists st2. split; [exact Hr|]. split; [congruence|]. split; [exact Hok2|].
      split; [|lia].
      intros it Hin. destruct (Hfr2 _ Hin) as [H|H]; [|now right].
      apply Hfr1. exact H.
Qed.

(** Final distances never exceed what is still in the fringe. *)
Definition dist_below_fringe (st : DState) : Prop :=
  forall u du, dict_get (ds_dist st) u = Some du ->
  forall it, In it (ds_fringe st) -> du <= fst (fst it).

Lemma dijkstra_loop_total fuel : forall st,
  fringe_ok st -> dist_below_fringe st ->
  length (ds_fringe st) + pending (g_adj G) (ds_dist st) < fuel ->
  exists st', dijkstra_loop fuel (g_adj G) st = Ok st'.
Proof.
  induction fuel as [|fuel IH]; intros st Hok Hbelow Hfuel; [lia|].
  simpl. destruct (heappop (ds_fringe st)) as [[[[d c] v] rest]|] eqn:Epop;
    [|eauto].
  destruct (heappop_spec _ Epop) as (Hin & Hlen & Hsub & Hmin). simpl in Hmin.
  destruct (dict_mem (ds_dist st) v) eqn:Emem.
  - apply IH; simpl.
    + intros it Hit. apply (Hok it). now apply Hsub.
    + intros u du Hu it Hit. apply (Hbelow u du Hu). now apply Hsub.
    + lia.
  - destruct (Hok _ Hin) as [Hpv Hav]. simpl in Hpv, Hav.
    destruct (dict_get (g_adj G) v) as [nbrs|] eqn:Ev; [|congruence].
    assert (Hle : forall u du,
              dict_get (dict_set (ds_dist st) v d) u = Some du -> du <= d).
    { intros u du. rewrite dict_get_set.
      destruct (String.eqb v u); [intros [= <-]; lia|].
      intros Hu. exact (Hbelow _ _ Hu _ Hin). }
    destruct (@relax_all_total v d nbrs
                {| ds_dist := dict_set (ds_dist st) v d; ds_seen := ds_seen st;
                   ds_paths := ds_paths st; ds_fringe := rest; ds_c := ds_c st |})
      as (st' & -> & Hd' & Hok' & Hfr' & Hlen'); simpl.
    + now rewrite dict_get_set, String.eqb_refl.
    + exact Hpv.
    + exact Hle.
    + intros it Hit. apply (Hok it). now apply Hsub.
    + intros ue Hue. eapply neighbour_has_adjacency; eauto.
    + simpl in *. apply IH.
      * exact Hok'.
      * intros u du Hu it Hit. rewrite Hd' in Hu.
        destruct (Hfr' _ Hit) as [Hr|Hr].
        -- revert Hu. rewrite dict_get_set.
           destruct (String.eqb v u).
           ++ intros [= <-]. apply Hmin. now apply Hsub.
           ++ intros Hu. apply (Hbelow _ _ Hu). now apply Hsub.
        -- specialize (Hle _ _ Hu). lia.
      * rewrite Hd'.
        assert (Hp := pending_final (g_adj G) (ds_dist st) v d Emem Ev). lia.
Qed.

Lemma single_source_total source :
  dict_mem (g_node G) source = true ->
  exists data, single_source_dijkstra G source = Ok data.
Proof.
  intros Hs. unfold single_source_dijkstra. rewrite Hs.
  destruct (@dijkstra_loop_total (dijkstra_fuel (g_adj G)) (dijkstra_init source))
    as [st ->]; [| | |eauto].
  - intros it [<-|[]]. simpl. rewrite String.eqb_refl.
    split; [discriminate | now apply (@wf_adjacency G source Hwf)].
  - intros u du Hu. discriminate Hu.
  - simpl. unfold dijkstra_fuel. rewrite pending_empty. lia.
Qed.

Lemma all_pairs_from_total nodes : forall acc,
  (forall n, In n nodes -> dict_mem (g_node G) n = true) ->
  exists r, all_pairs_from G nodes acc = Ok r.
Proof.
  induction nodes as [|n t IH]; simpl; intros acc Hn; [eauto|].
  destruct (single_source_total n) as [data ->]; [apply Hn; now left|].
  apply IH. intros m Hm. apply Hn. now right.
Qed.

End DijkstraTotal.

Lemma dict_keys_mem {V} (d : Dict V) k : In k (dict_keys d) -> dict_mem d k = true.
Proof.
  unfold dict_keys, dict_mem. induction d as [|[a b] t IH]; simpl; [tauto|].
  intros [->|H].
  - now rewrite String.eqb_refl.
  - destruct (String.eqb a k); [reflexivity | now apply IH].
Qed.

(** On a graph as networkx keeps it, [all_pairs_dijkstra] returns. *)
Lemma all_pairs_dijkstra_total G :
  wf_graph G -> exists r, all_pairs_dijkstra G = Ok r.
Proof.
  intros Hwf. apply all_pairs_from_total; [exact Hwf|].
  intros n. apply dict_keys_mem.
Qed.

(* ================================================================== *)
(** ** Copies and removals keep the graph well formed *)

Lemma remove_edge_adj_keys G u v G' n :
  remove_edge G u v = Ok G' ->
  dict_get (g_adj G) n <> None -> dict_get (g_adj G') n <> None.
Proof.
  unfold remove_edge.
  destruct (dict_get (g_adj G) u) as [nu|] eqn:Eu; [|discriminate].
  destruct (dict_mem nu v); [|discriminate].
  destruct (String.eqb u v).
  - intros [= <-] Hn. simpl. rewrite dict_get_set.
    destruct (String.eqb u n); [discriminate | exact Hn].
  - destruct (dict_get (g_adj (set_adj G _)) v) as [nv|]; [|discriminate].
    destruct (dict_mem nv u); [|discriminate].
    intros [= <-] Hn. simpl. rewrite !dict_get_set.
    destruct (String.eqb v n); [discriminate|].
    destruct (String.eqb u n); [discriminate | exact Hn].
Qed.

Lemma remove_edge_nodes G u v G' :
  remove_edge G u v = Ok G' -> g_node G' = g_node G.
Proof.
  unfold remove_edge.
  destruct (dict_get (g_adj G) u) as [nu|]; [|discriminate].
  destruct (dict_mem nu v); [|discriminate].
  destruct (String.eqb u v); [now intros [= <-]|].
  destruct (dict_get (g_adj (set_adj G _)) v) as [nv|]; [|discriminate].
  destruct (dict_mem nv u); [|discriminate]. now intros [= <-].
Qed.

Lemma remove_edge_adj_nodup G u v G' :
  remove_edge G u v = Ok G' ->
  NoDup (dict_keys (g_adj G)) -> NoDup (dict_keys (g_adj G')).
Proof.
  unfold remove_edge.
  destruct (dict_get (g_adj G) u) as [nu|]; [|discriminate].
  destruct (dict_mem nu v); [|discriminate].
  destruct (String.eqb u v).
  - intros [= <-] Hn. simpl. now apply dict_set_keys_nodup.
  - destruct (dict_get (g_adj (set_adj G _)) v) as [nv|]; [|discriminate].
    destruct (dict_mem nv u); [|discriminate].
    intros [= <-] Hn. simpl. now apply dict_set_keys_nodup, dict_set_keys_nodup.
Qed.

Lemma remove_edge_wf G u v G' :
  wf_graph G -> remove_edge G u v = Ok G' -> wf_graph G'.
Proof.
  intros (Hnn & Hna & Hn & Hs) Hr. split; [|split; [|split]].
  - now rewrite (remove_edge_nodes _ _ _ Hr).
  - eapply remove_edge_adj_nodup; eauto.
  - intros n. rewrite (remove_edge_nodes _ _ _ Hr). intros Hm.
    eapply remove_edge_adj_keys; eauto.
  - intros a b. rewrite !(remove_edge_has_edge _ _ _ Hr).
    intros (He & H1 & H2). split; [now apply Hs|]. split; tauto.
Qed.

(** On a well-formed graph, removing a link that is there succeeds. *)
Lemma remove_edge_present G u v :
  wf_graph G -> has_edge G u v -> exists G', remove_edge G u v = Ok G'.
Proof.
  intros (_ & _ & _ & Hs) He. assert (He' := Hs _ _ He).
  destruct He as (nu & e & Hu & Hv). destruct He' as (nv & e' & Hv' & Hu').
  unfold remove_edge. rewrite Hu. unfold dict_mem at 1. rewrite Hv.
  destruct (String.eqb_spec u v) as [->|Hne]; [eauto|].
  simpl. rewrite dict_get_set.
  destruct (String.eqb_spec u v) as [?|_]; [contradiction|].
  rewrite Hv'. unfold dict_mem. rewrite Hu'. eauto.
Qed.

(* ------------------------------------------------------------------ *)
(** *** The copy has the links of the graph copied *)

(** [linked adj a b]: [adj[a][b]] exists. *)
Definition linked (adj : Dict (Dict EdgeAttr)) (a b : Node) : Prop :=
  exists e, dict_get (adj_get adj a) b = Some e.

(** [entry adj a b]: [b] is listed among the neighbours in an item of [a]. *)
Definition entry (adj : Dict (Dict EdgeAttr)) (a b : Node) : Prop :=
  exists nbrs, In (a, nbrs) adj /\ In b (dict_keys nbrs).

Lemma has_edge_linked G a b : has_edge G a b <-> linked (g_adj G) a b.
Proof.
  unfold has_edge, linked, adj_get. split.
  - intros (nbrs & e & -> & H). eauto.
  - destruct (dict_get (g_adj G) a) as [nbrs|]; intros [e H]; [eauto|discriminate].
Qed.

Lemma linked_set_entry adj u v e a b :
  linked (set_entry adj u v e) a b <-> linked adj a b \/ (a = u /\ b = v).
Proof.
  unfold linked, set_entry, adj_get at 1. rewrite dict_get_set.
  destruct (String.eqb_spec u a) as [<-|Hua].
  - rewrite dict_get_set. destruct (String.eqb_spec v b) as [<-|Hvb].
    + split; [auto | eauto].
    + split; [auto | intros [H|[_ H]]; [exact H | congruence]].
  - fold (adj_get adj a). split; [auto | intros [H|[H _]]; [exact H | congruence]].
Qed.

Lemma linked_copy_edge G adj u ve a b :
  linked (copy_edge G adj u ve) a b <->
  linked adj a b \/ (a = u /\ b = fst ve) \/ (a = fst ve /\ b = u).
Proof.
  unfold copy_edge. destruct ve as [v e]. simpl.
  rewrite !linked_set_entry. tauto.
Qed.

Lemma linked_copy_edges G u nbrs : forall adj a b,
  linked (fold_left (fun x ve => copy_edge G x u ve) nbrs adj) a b <->
  linked adj a b \/ (a = u /\ In b (dict_keys nbrs)) \/
  (b = u /\ In a (dict_keys nbrs)).
Proof.
  induction nbrs as [|ve t IH]; simpl; intros adj a b; [tauto|].
  rewrite IH, linked_copy_edge. intuition (subst; auto).
Qed.

Lemma linked_copy_all G L : forall adj a b,
  linked (fold_left (copy_edges G) L adj) a b <->
  linked adj a b \/ entry L a b \/ entry L b a.
Proof.
  unfold entry. induction L as [|[u nbrs] t IH]; simpl; intros adj a b.
  - split; [auto | intros [H|[(n & [] & _)|(n & [] & _)]]; exact H].
  - rewrite IH. unfold copy_edges. simpl. rewrite linked_copy_edges. split.
    + intros [[H|[[-> H]|[-> H]]]|[(n & Hn & Hb)|(n & Hn & Hb)]]; eauto 8.
    + intros [H|[(n & [[= <- <-]|Hn] & Hb)|(n & [[= <- <-]|Hn] & Hb)]]; eauto 8.
Qed.

Lemma linked_empty (nodes : Dict NodeAttr) a b :
  ~ linked (map (fun na => (fst na, [])) nodes) a b.
Proof.
  unfold linked, adj_get. intros [e H].
  induction nodes as [|[n x] t IH]; simpl in H; [discriminate|].
  destruct (String.eqb n a); [discriminate | auto].
Qed.

Lemma nx_copy_has_edge G a b :
  has_edge (nx_copy G) a b <-> entry (g_adj G) a b \/ entry (g_adj G) b a.
Proof.
  rewrite has_edge_linked. unfold nx_copy. simpl. rewrite linked_copy_all.
  split; [intros [H|H]; [now apply linked_empty in H | exact H] | auto].
Qed.

Lemma entry_has_edge G a b :
  NoDup (dict_keys (g_adj G)) -> (entry (g_adj G) a b <-> has_edge G a b).
Proof.
  intros Hnd. unfold entry, has_edge, dict_keys. split.
  - intros (nbrs & Ha & Hb). apply in_map_iff in Hb.
    destruct Hb as ([k e] & Hk & Hb). simpl in Hk. subst k.
    destruct (dict_In_get _ _ _ Hb) as [e' He'].
    exists nbrs, e'. split; [now apply dict_nodup_In_get | exact He'].
  - intros (nbrs & e & Ha & Hb). exists nbrs.
    split; [now apply dict_get_In|].
    apply dict_get_In in Hb. change b with (fst (b, e)). now apply in_map.
Qed.

(** On a well-formed graph the copy has exactly the links of the graph. *)
Lemma nx_copy_same_links G a b :
  wf_graph G -> (has_edge (nx_copy G) a b <-> has_edge G a b).
Proof.
  intros (_ & Hna & _ & Hs). rewrite nx_copy_has_edge, !entry_has_edge by exact Hna.
  split; [intros [H|H]; [exact H | now apply Hs] | auto].
Qed.

Lemma set_entry_keys adj u v e n :
  dict_get adj n <> None -> dict_get (set_entry adj u v e) n <> None.
Proof.
  unfold set_entry. rewrite dict_get_set.
  destruct (String.eqb u n); [discriminate | auto].
Qed.

Lemma copy_all_keep (Q : Dict (Dict EdgeAttr) -> Prop) G :
  (forall adj u v e, Q adj -> Q (set_entry adj u v e)) ->
  forall L adj, Q adj -> Q (fold_left (copy_edges G) L adj).
Proof.
  intros Hset. induction L as [|[u nbrs] t IH]; simpl; intros adj HQ; [exact HQ|].
  apply IH. unfold copy_edges. simpl. clear IH. revert adj HQ.
  induction nbrs as [|[v e] r IHr]; simpl; intros adj HQ; [exact HQ|].
  apply IHr. unfold copy_edge. now apply Hset, Hset.
Qed.

Lemma nx_copy_wf G : wf_graph G -> wf_graph (nx_copy G).
Proof.
  intros Hwf. assert (Hnn := proj1 Hwf). split; [exact Hnn|]. split; [|split].
  - unfold nx_copy. simpl. apply copy_all_keep.
    + intros adj u v e. apply dict_set_keys_nodup.
    + unfold dict_keys in *. rewrite map_map. simpl. exact Hnn.
  - intros n Hn. unfold nx_copy. simpl.
    apply (copy_all_keep (fun adj => dict_get adj n <> None)).
    + intros adj u v e. apply set_entry_keys.
    + simpl in Hn. unfold dict_mem in Hn. clear Hwf Hnn.
      induction (g_node G) as [|[k x] t IH]; simpl in *; [discriminate|].
      destruct (String.eqb k n); [discriminate | auto].
  - intros u v. rewrite !nx_copy_has_edge. tauto.
Qed.

(** Every listed link is in the graph, and none is listed twice (in either
    orientation). *)
Fixpoint present_once (G : NetworkGraph) (fs : list Edge) : Prop :=
  match fs with
  | [] => True
  | f :: t =>
      has_edge G (fst f) (snd f) /\
      (forall g, In g t -> ~ same_link f (fst g) (snd g)) /\
      present_once G t
  end.

Lemma remove_edges_present fs : forall G,
  wf_graph G -> present_once G fs ->
  exists G', remove_edges G fs = Ok G' /\ wf_graph G'.
Proof.
  induction fs as [|f t IH]; simpl; intros G Hwf Hp; [eauto|].
  destruct Hp as (He & Hd & Hp).
  destruct (remove_edge_present Hwf He) as [G1 E1]. rewrite E1. simpl.
  apply IH; [eapply remove_edge_wf; eauto|].
  clear IH He. revert Hd Hp. induction t as [|g t IHt]; simpl; [auto|].
  intros Hd (Hg & Hgd & Hgt). split; [|split; [exact Hgd|]].
  - apply (remove_edge_has_edge _ _ _ E1). split; [exact Hg|].
    assert (Hns := Hd g (or_introl eq_refl)). unfold same_link in Hns.
    split; intros [? ?]; apply Hns; auto.
  - apply IHt; [|exact Hgt]. intros h Hh. apply Hd. now right.
Qed.

(** A listed link that is not in the graph makes the loop raise. *)
Lemma remove_edges_absent fs : forall G f,
  In f fs -> has_edgeb G (fst f) (snd f) = false ->
  remove_edges G fs = Raise NetworkXError.
Proof.
  induction fs as [|g t IH]; simpl; intros G f; [tauto|].
  intros [->|Hin] Habs.
  - now rewrite remove_edge_absent.
  - destruct (remove_edge G (fst g) (snd g)) as [G1|e] eqn:E1; simpl.
    + apply (IH G1 f Hin).
      destruct (has_edgeb G1 (fst f) (snd f)) eqn:E; [|reflexivity].
      apply has_edgeb_spec in E. apply (remove_edge_has_edge _ _ _ E1) in E.
      destruct E as [E _]. apply has_edgeb_spec in E. congruence.
    + revert E1. unfold remove_edge.
      destruct (dict_get (g_adj G) (fst g)) as [nu|]; [|congruence].
      destruct (dict_mem nu (snd g)); [|congruence].
      destruct (String.eqb (fst g) (snd g)); [discriminate|].
      destruct (dict_get _ (snd g)) as [nv|]; [|congruence].
      destruct (dict_mem nv (fst g)); [discriminate | congruence].
Qed.

Lemma present_once_mono G G' fs :
  (forall a b, has_edge G a b -> has_edge G' a b) ->
  present_once G fs -> present_once G' fs.
Proof.
  intros Hsub. induction fs as [|f t IH]; simpl; [auto|].
  intros (He & Hd & Hp). auto.
Qed.

(** On a well-formed topology whose listed failures are links of it, each
    listed once, [dijkstra] returns its two tables. *)
Lemma dijkstra_total failures s :
  wf_graph (topo s) -> present_once (topo s) (failed failures) ->
  exists G' r,
    without_failures (topo s) failures = Ok G' /\ wf_graph G' /\
    all_pairs_dijkstra G' = Ok r /\
    snd (dijkstra failures s) = Ok (tables_of r).
Proof.
  intros Hwf Hp. rewrite dijkstra_snd. unfold dijkstra_result.
  assert (exists G', without_failures (topo s) failures = Ok G' /\ wf_graph G')
    as (G' & HG & Hwf').
  { destruct failures as [fs|]; simpl in *; [|eauto].
    apply remove_edges_present; [now apply nx_copy_wf|].
    apply (@present_once_mono (topo s) _ fs); [|exact Hp].
    intros a b. now apply nx_copy_same_links. }
  destruct (all_pairs_dijkstra_total Hwf') as [r Hr].
  exists G', r. rewrite HG. simpl. rewrite Hr. auto.
Qed.

(** A decidable check of [wf_graph]. *)
Fixpoint nodupb (l : list string) : bool :=
  match l with
  | [] => true
  | x :: t => negb (existsb (String.eqb x) t) && nodupb t
  end.

Lemma nodupb_sound l : nodupb l = true -> NoDup l.
Proof.
  induction l as [|x t IH]; simpl; [constructor|].
  rewrite andb_true_iff, negb_true_iff. intros [Hx Ht].
  constructor; [|now apply IH].
  intros Hin. assert (existsb (String.eqb x) t = true); [|congruence].
  apply existsb_exists. exists x. split; [exact Hin | apply String.eqb_refl].
Qed.

Definition wf_graphb (G : NetworkGraph) : bool :=
  nodupb (dict_keys (g_node G)) && nodupb (dict_keys (g_adj G)) &&
  forallb (dict_mem (g_adj G)) (dict_keys (g_node G)) &&
  forallb (fun un => forallb (fun ve => has_edgeb G (fst ve) (fst un)) (snd un))
    (g_adj G).

Lemma dict_mem_keys {V} (d : Dict V) k : dict_mem d k = true -> In k (dict_keys d).
Proof.
  unfold dict_mem. destruct (dict_get d k) as [v|] eqn:E; [|discriminate].
  intros _. apply dict_get_In in E. unfold dict_keys.
  change k with (fst (k, v)). now apply in_map.
Qed.

Lemma wf_graphb_sound G : wf_graphb G = true -> wf_graph G.
Proof.
  unfold wf_graphb. rewrite !andb_true_iff, !forallb_forall.
  intros [[[Hn1 Hn2] H1] H2].
  split; [now apply nodupb_sound|]. split; [now apply nodupb_sound|]. split.
  - intros n Hn. apply dict_mem_keys in Hn. specialize (H1 _ Hn).
    unfold dict_mem in H1. destruct (dict_get (g_adj G) n); congruence.
  - intros u v (nu & e & Hu & Hv). apply has_edgeb_spec.
    apply dict_get_In in Hu, Hv. specialize (H2 _ Hu). simpl in H2.
    rewrite forallb_forall in H2. exact (H2 _ Hv).
Qed.

(** The graph [dijkstra] runs on has the links of the topology but the
    failed ones. *)
Lemma without_failures_links G failures G' :
  wf_graph G -> without_failures G failures = Ok G' ->
  forall a b, has_edge G' a b <->
              has_edge G a b /\ forall f, In f (failed failures) -> ~ same_link f a b.
Proof.
  intros Hwf. destruct failures as [fs|]; simpl.
  - intros H a b. rewrite (remove_edges_has_edge _ _ H a b).
    now rewrite (nx_copy_same_links a b Hwf).
  - intros [= <-] a b. split; [intros H; split; [exact H | intros f []] | tauto].
Qed.

(** C5. Whatever the topology (a graph as networkx keeps it) and the
    failures handed to [dijkstra], every path of the returned path table is a
    walk, from its source key to its destination key, of the topology with
    the failed links removed: each pair of consecutive nodes on it is a link
    of that remaining graph, hence a link of the topology that is none of the
    failed ones. *)
Theorem dijkstra_paths_avoid_failures (failures : option (list Edge))
  (s : State) (D : DistTable) (P : PathTable) :
  wf_graph (topo s) ->
  snd (dijkstra failures s) = Ok (D, P) ->
  exists G',
    without_failures (topo s) failures = Ok G' /\
    forall src dst p, lookup2 P src dst = Ok p ->
      walk G' src dst p /\
      forall i a b, nth_error p i = Some a -> nth_error p (S i) = Some b ->
        has_edge G' a b /\ has_edge (topo s) a b /\
        forall f, In f (failed failures) -> ~ same_link f a b.
Proof.
  intros Hwf. rewrite dijkstra_snd. intros H.
  destruct (dijkstra_result_walk _ _ H) as (G' & HG & Hw).
  exists G'. split; [exact HG|].
  intros src dst p Hp. specialize (Hw _ _ _ Hp). split; [exact Hw|].
  intros i a b Ha Hb.
  assert (He := walk_consecutive Hw _ Ha Hb). split; [exact He|].
  now apply (without_failures_links _ Hwf HG).
Qed.

(** The ring with the link s1-s2 down. *)
Definition ring3_failures : option (list Edge) := Some [("s1", "s2")].

Definition ring3_tables : DistTable * PathTable :=
  Eval vm_compute in
    match snd (dijkstra ring3_failures (initial_state ring3 2)) with
    | Ok t => t
    | Raise _ => ([], [])
    end.

Lemma ring3_wf : wf_graph ring3.
Proof. apply wf_graphb_sound. vm_compute. reflexivity. Qed.

Lemma dijkstra_paths_avoid_failures_witness :
  exists G',
    without_failures ring3 ring3_failures = Ok G' /\
    forall src dst p, lookup2 (snd ring3_tables) src dst = Ok p ->
      walk G' src dst p /\
      forall i a b, nth_error p i = Some a -> nth_error p (S i) = Some b ->
        has_edge G' a b /\ has_edge ring3 a b /\
        forall f, In f (failed ring3_failures) -> ~ same_link f a b.
Proof.
  apply (@dijkstra_paths_avoid_failures ring3_failures (initial_state ring3 2)
           (fst ring3_tables) (snd ring3_tables)).
  - exact ring3_wf.
  - vm_compute. reflexivity.
Defined.

(* ================================================================== *)
(** ** Loop-free alternates *)

Lemma res_fold_inv {A S} (I : S -> Prop) (body : A -> S -> Res S) l :
  forall acc r,
  I acc ->
  (forall x a a', In x l -> I a -> body x a = Ok a' -> I a') ->
  res_fold l acc body = Ok r -> I r.
Proof.
  induction l as [|x t IH]; simpl; intros acc r Hacc Hstep.
  - now intros [= <-].
  - destruct (body x acc) as [a'|] eqn:E; simpl; [|discriminate].
    apply IH.
    + eapply Hstep; [now left | exact Hacc | exact E].
    + intros y a a'' Hy. apply Hstep. now right.
Qed.

Lemma py_min_In l m : py_min l = Some m -> In m l.
Proof.
  revert m. induction l as [|x t IH]; simpl; intros m; [discriminate|].
  destruct (py_min t) as [m'|].
  - destruct (snd m' <? snd x); intros [= <-]; [right; now apply IH | now left].
  - intros [= <-]. now left.
Qed.

Lemma py_min_least l m :
  py_min l = Some m -> forall x, In x l -> snd m <= snd x.
Proof.
  revert m. induction l as [|y t IH]; simpl; intros m; [discriminate|].
  destruct (py_min t) as [m'|] eqn:E.
  - destruct (Nat.ltb_spec (snd m') (snd y)) as [Hlt|Hge]; intros [= <-].
    + intros x [<-|Hx]; [lia | now apply IH].
    + intros x [<-|Hx]; [lia|]. specialize (IH _ eq_refl x Hx). lia.
  - intros [= <-] x [<-|Hx]; [lia|]. destruct t as [|z t']; [destruct Hx|].
    simpl in E. destruct (py_min t') as [m'|]; [destruct (snd m' <? snd z)|];
      discriminate.
Qed.

Lemma py_min_some l : l <> [] -> exists m, py_min l = Some m.
Proof.
  destruct l as [|x t]; [congruence|]. intros _. simpl.
  destruct (py_min t) as [m'|]; [destruct (snd m' <? snd x)|]; eauto.
Qed.

(** The condition of [compute_lfas] on an alternate, read in the distance
    table [D]: [D[alt][host] < D[alt][switch] + D[switch][host]]. *)
Definition loop_free (D : DistTable) (switch host alt : Node) : Prop :=
  exists dah das dsh,
    lookup2 D alt host = Ok dah /\ lookup2 D alt switch = Ok das /\
    lookup2 D switch host = Ok dsh /\ dah < das + dsh.

Section LfaSound.
Variable set_iter : forall A : Type, list A -> list A.
Variable D : DistTable.

Definition row_sound (switch : Node) (row : Dict Node) : Prop :=
  forall host alt, In (host, alt) row -> loop_free D switch host alt.

Lemma lfa_round_sound switch host alternate noloop row noloop' row' :
  (forall a, In a noloop -> loop_free D switch host (fst a)) ->
  row_sound switch row ->
  lfa_round D switch host alternate (noloop, row) = Ok (noloop', row') ->
  (forall a, In a noloop' -> loop_free D switch host (fst a)) /\
  row_sound switch row'.
Proof.
  intros Hnl Hrow. unfold lfa_round.
  destruct (lookup2 D alternate host) as [dah|] eqn:E1; simpl; [|discriminate].
  destruct (lookup2 D alternate switch) as [das|] eqn:E2; simpl; [|discriminate].
  destruct (lookup2 D switch host) as [dsh|] eqn:E3; simpl; [|discriminate].
  assert (forall nl, (if dah <? das + dsh
                      then dsa <~ lookup2 D switch alternate ;;
                           dah' <~ Ok dah ;;
                           Ok (noloop ++ [(alternate, dsa + dah')])
                      else Ok noloop) = Ok nl ->
                     forall a, In a nl -> loop_free D switch host (fst a)) as Hnl'.
  { intros nl. destruct (Nat.ltb_spec dah (das + dsh)) as [Hlt|_].
    - destruct (lookup2 D switch alternate) as [dsa|]; simpl; [|discriminate].
      intros [= <-] a Ha. apply in_app_or in Ha. destruct Ha as [Ha|[<-|[]]].
      + now apply Hnl.
      + simpl. exists dah, das, dsh. auto.
    - intros [= <-]. exact Hnl. }
  destruct (if dah <? das + dsh then _ else _) as [nl|] eqn:Enl; simpl;
    [|discriminate].
  specialize (Hnl' nl eq_refl).
  destruct nl as [|x t].
  - intros [= <- <-]. split; [exact Hnl' | exact Hrow].
  - destruct (py_min (x :: t)) as [m|] eqn:Em; simpl; [|discriminate].
    intros [= <- <-]. split; [exact Hnl'|].
    intros h alt Hin. apply dict_set_In in Hin.
    destruct Hin as [[-> ->]|Hin]; [|now apply Hrow].
    apply Hnl'. now apply py_min_In.
Qed.

Lemma lfa_destination_sound switch connected dest row row' :
  row_sound switch row ->
  lfa_destination set_iter D switch connected dest row = Ok row' ->
  row_sound switch row'.
Proof.
  intros Hrow. unfold lfa_destination. destruct dest as [host nexthop].
  destruct (String.eqb nexthop host); [now intros [= <-]|].
  destruct (res_fold _ _ _) as [[nl r]|] eqn:E; simpl; [|discriminate].
  intros [= <-].
  apply (res_fold_inv
           (fun v => (forall a, In a (fst v) -> loop_free D switch host (fst a))
                     /\ row_sound switch (snd v))) in E; [apply E| |].
  - split; [intros a [] | exact Hrow].
  - intros alternate [nl0 r0] [nl1 r1] _ [H1 H2] Hr. simpl in *.
    eapply lfa_round_sound; eauto.
Qed.

Lemma lfa_switches_sound G nexthops lfas :
  lfa_switches set_iter G D nexthops = Ok lfas ->
  forall switch row, In (switch, row) lfas -> row_sound switch row.
Proof.
  unfold lfa_switches. intros H.
  refine (res_fold_inv
            (fun l => forall switch row, In (switch, row) l -> row_sound switch row)
            _ _ _ _ _ H).
  - intros switch row [].
  - intros [sw dests] a a' _ Ha.
    destruct (get_p4switches_connected_to G sw) as [nbrs|]; simpl; [|discriminate].
    destruct (res_fold dests _ _) as [row|] eqn:E; simpl; [|discriminate].
    intros [= <-] switch row' Hin. apply dict_set_In in Hin.
    destruct Hin as [[-> ->]|Hin]; [|now apply Ha].
    refine (res_fold_inv (row_sound sw) _ _ _ _ _ E).
    + intros h alt [].
    + intros dest r r' _ Hr. now apply lfa_destination_sound.
Qed.

End LfaSound.

Lemma lookup2_In {V} (d : Dict (Dict V)) a b v :
  lookup2 d a b = Ok v -> exists row, In (a, row) d /\ In (b, v) row.
Proof.
  unfold lookup2. destruct (dict_get d a) as [row|] eqn:E; [|discriminate].
  destruct (dict_get row b) as [w|] eqn:E2; simpl; [|discriminate].
  intros [= <-]. exists row. split; now apply dict_get_In.
Qed.

Lemma compute_lfas_snd set_iter nexthops failures s :
  snd (compute_lfas set_iter nexthops failures s)
  = (dp <~ dijkstra_result (topo s) failures ;;
     lfa_switches set_iter (topo s) (fst dp) nexthops).
Proof.
  unfold compute_lfas, bind.
  destruct (dijkstra_run failures s) as [cs ->].
  destruct (dijkstra_result (topo s) failures); reflexivity.
Qed.

(** C1. Loop-free alternates are sound: whatever the failures, an alternate
    that [compute_lfas] records for a switch and a host satisfies
    [d(alt, host) < d(alt, switch) + d(switch, host)] in the distance table
    [dijkstra] computes under the same failures. *)
Theorem compute_lfas_sound (set_iter : forall A : Type, list A -> list A)
  (nexthops : Dict (list (Node * Node))) (failures : option (list Edge))
  (s : State) (D : DistTable) (P : PathTable) (lfas : Dict (Dict Node)) :
  snd (dijkstra failures s) = Ok (D, P) ->
  snd (compute_lfas set_iter nexthops failures s) = Ok lfas ->
  forall switch host alt,
    lookup2 lfas switch host = Ok alt ->
    exists dah das dsh,
      lookup2 D alt host = Ok dah /\ lookup2 D alt switch = Ok das /\
      lookup2 D switch host = Ok dsh /\ dah < das + dsh.
Proof.
  rewrite dijkstra_snd, compute_lfas_snd. intros -> Hl. simpl in Hl.
  intros switch host alt Hlk.
  destruct (lookup2_In _ _ _ Hlk) as (row & Hrow & Halt).
  exact (lfa_switches_sound _ _ _ _ Hl _ _ Hrow _ _ Halt).
Qed.

(* ================================================================== *)
(** ** What the methods leave unchanged *)

(** [frame s s']: from [s] to [s'] only the store of copies, the output
    and the calls to the switches may have changed. *)
Definition frame (s s' : State) : Prop :=
  topo s' = topo s /\ controllers s' = controllers s /\
  notification_delay s' = notification_delay s /\
  failed_links s' = failed_links s /\ clock s' = clock s /\
  update_calls s' = update_calls s.

Definition framed {A} (m : M A) : Prop := forall s, frame s (fst (m s)).

Lemma frame_refl s : frame s s.
Proof. unfold frame. tauto. Qed.

Lemma frame_trans s1 s2 s3 : frame s1 s2 -> frame s2 s3 -> frame s1 s3.
Proof. unfold frame. intuition congruence. Qed.

Lemma framed_ret {A} (a : A) : framed (ret a).
Proof. intros s. apply frame_refl. Qed.

Lemma framed_raise {A} e : framed (@raise A e).
Proof. intros s. apply frame_refl. Qed.

Lemma framed_lift {A} (r : Res A) : framed (lift r).
Proof. intros s. apply frame_refl. Qed.

Lemma framed_gets {A} (f : State -> A) : framed (gets f).
Proof. intros s. apply frame_refl. Qed.

Lemma framed_print o : framed (print o).
Proof. intros s. unfold frame. simpl. tauto. Qed.

Lemma framed_call c : framed (call c).
Proof. intros s. unfold frame. simpl. tauto. Qed.

Lemma framed_bind {A B} (m : M A) (k : A -> M B) :
  framed m -> (forall a, framed (k a)) -> framed (bind m k).
Proof.
  intros Hm Hk s. unfold bind. specialize (Hm s).
  destruct (m s) as [s1 [a|e]]; simpl in *.
  - eapply frame_trans; [exact Hm | apply Hk].
  - exact Hm.
Qed.

Lemma framed_for_fold {A S} (l : list A) (body : A -> S -> M S) :
  (forall x acc, framed (body x acc)) -> forall acc, framed (for_fold l acc body).
Proof.
  intros Hb. induction l as [|x t IH]; intros acc; simpl.
  - apply framed_ret.
  - apply framed_bind; [apply Hb | intros a; apply IH].
Qed.

Lemma framed_for_each {A} (l : list A) (body : A -> M unit) :
  (forall x, framed (body x)) -> framed (for_each l body).
Proof. intros Hb. apply framed_for_fold. intros x _. apply Hb. Qed.

Lemma framed_dijkstra failures : framed (dijkstra failures).
Proof.
  intros s. destruct (dijkstra_run failures s) as [cs ->].
  unfold frame. simpl. tauto.
Qed.

Create HintDb framed.

#[local] Hint Resolve framed_ret framed_raise framed_lift framed_gets
  framed_print framed_call framed_dijkstra : framed.

Ltac framed_auto :=
  repeat first
    [ progress auto with framed
    | apply framed_bind; [|intros ?]
    | apply framed_for_each; intros ?
    | apply framed_for_fold; intros ? ?
    | match goal with
      | |- framed (match ?x with _ => _ end) => destruct x
      | |- framed (if ?b then _ else _) => destruct b
      | |- framed (let (_, _) := ?p in _) => destruct p
      end ].

Lemma framed_compute_nexthops failures : framed (compute_nexthops failures).
Proof. unfold compute_nexthops, nexthop_round. framed_auto. Qed.

Lemma framed_compute_lfas set_iter nexthops failures :
  framed (compute_lfas set_iter nexthops failures).
Proof. unfold compute_lfas. framed_auto. Qed.

Lemma framed_get_nexthop_index host : framed (get_nexthop_index host).
Proof. unfold get_nexthop_index. framed_auto. Qed.

Lemma framed_get_port a b : framed (get_port a b).
Proof. unfold get_port. framed_auto. Qed.

#[local] Hint Resolve framed_compute_nexthops framed_compute_lfas
  framed_get_nexthop_index framed_get_port : framed.

(** After its first step, which notes the call, [update_nexthops] keeps
    the frame. *)
Lemma update_nexthops_frame set_iter failures s :
  let s' := fst (update_nexthops set_iter failures s) in
  topo s' = topo s /\ controllers s' = controllers s /\
  notification_delay s' = notification_delay s /\
  failed_links s' = failed_links s /\ clock s' = clock s /\
  update_calls s' = update_calls s ++ [failures].
Proof.
  unfold update_nexthops. unfold bind at 1. unfold record_update at 1.
  cbv beta iota.
  match goal with
  | |- context [fst (?m ?s1)] =>
      assert (framed m) as Hm; [|pose proof (Hm s1) as Hf]
  end.
  { unfold install_primary, install_lfa, controller_of. framed_auto. }
  destruct Hf as (H1 & H2 & H3 & H4 & H5 & H6). simpl in *. auto 7.
Qed.

(* ================================================================== *)
(** ** Failure notifications *)

(** What [process_packet] reads in a frame: the failed link a notification
    names, nothing for any other frame. *)
Definition notified_link (G : NetworkGraph) (pkt : Packet) : Res (option Edge) :=
  type_ <~ of_option AttributeError (ether_type pkt) ;;
  if N.eqb type_ 0x1234 then
    load_ <~ of_option AttributeError (load pkt) ;;
    payload <~ unpack_H load_ ;;
    if N.eqb (N.shiftr (N.land payload 0x0020) 5) 1 then
      neighbor <~ port_to_node G (split_head (sniffed_on pkt))
                    (N.shiftr (N.land payload 0xff80) 7) ;;
      Ok (Some (sorted_pair (split_head (sniffed_on pkt)) neighbor))
    else Ok None
  else Ok None.

(** The state in which [process_packet] calls [failure_notification] for
    a new failed link: the delay has passed, the link is in the set. *)
Definition announced (s : State) (failed_link : Edge) : State :=
  {| topo := topo s; copies := copies s; controllers := controllers s;
     notification_delay := notification_delay s;
     failed_links := set_add failed_link (failed_links s);
     stdout := (stdout s ++ [out_notification failed_link (notification_delay s)])
               ++ [out_updating_failure (set_add failed_link (failed_links s))];
     rpc := rpc s; clock := clock s + notification_delay s;
     update_calls := update_calls s |}.

Lemma process_packet_run set_iter pkt s :
  process_packet set_iter pkt s
  = match notified_link (topo s) pkt with
    | Raise e => (s, Raise e)
    | Ok None => (s, Ok tt)
    | Ok (Some failed_link) =>
        if set_mem failed_link (failed_links s) then (s, Ok tt)
        else failure_notification set_iter
               (set_iter _ (set_add failed_link (failed_links s)))
               (announced s failed_link)
    end.
Proof.
  unfold process_packet, notified_link.
  unfold bind at 1, lift at 1.
  destruct (ether_type pkt) as [type_|]; cbn [of_option res_bind]; [|reflexivity].
  destruct (N.eqb type_ 0x1234); [|reflexivity].
  unfold bind at 1, lift at 1.
  destruct (load pkt) as [load_|]; cbn [of_option res_bind]; [|reflexivity].
  unfold bind at 1, lift at 1.
  destruct (unpack_H load_) as [payload|e]; cbv beta iota;
    unfold res_bind; [|reflexivity].
  destruct (N.eqb (N.shiftr (N.land payload 32) 5) 1); [|reflexivity].
  unfold bind at 1, gets at 1. unfold bind at 1, lift at 1.
  destruct (port_to_node (topo s) (split_head (sniffed_on pkt))
              (N.shiftr (N.land payload 65408) 7)) as [neighbor|e];
    cbv beta iota; [|reflexivity].
  unfold bind at 1, gets at 1. cbv beta iota.
  destruct (set_mem (sorted_pair (split_head (sniffed_on pkt)) neighbor)
              (failed_links s)); reflexivity.
Qed.

Lemma ltb_asym a b : String.ltb a b = true -> String.ltb b a = false.
Proof.
  unfold String.ltb. rewrite (String.compare_antisym a b).
  destruct (String.compare b a); simpl; congruence.
Qed.

Lemma ltb_total a b :
  String.ltb a b = false -> String.ltb b a = false -> a = b.
Proof.
  unfold String.ltb. rewrite (String.compare_antisym a b).
  destruct (String.compare b a) eqn:E; simpl; try congruence.
  intros _ _. symmetry. now apply String.compare_eq_iff.
Qed.


Lemma edge_eqb_eq a b : edge_eqb a b = true <-> a = b.
Proof.
  unfold edge_eqb. destruct a as [a1 a2], b as [b1 b2]. simpl.
  rewrite andb_true_iff, !String.eqb_eq. split; [intros [-> ->] | intros [= -> ->]]; auto.
Qed.

Lemma set_mem_In e l : set_mem e l = true <-> In e l.
Proof.
  unfold set_mem. rewrite existsb_exists. split.
  - intros (x & Hx & Heq). apply edge_eqb_eq in Heq. now subst.
  - intros H. exists e. split; [exact H | now apply edge_eqb_eq].
Qed.



(** Two notifications on the ring: s1 reports its port 2 (the link s1-s2)
    and s2 its port 3 (the link s2-s3). *)
Definition notify_s1_s2 : Packet :=
  {| sniffed_on := "s1-cpu-eth1"; ether_type := Some 0x1234%N;
     load := Some [1; 32]%N |}.

Definition notify_s2_s3 : Packet :=
  {| sniffed_on := "s2-cpu-eth1"; ether_type := Some 0x1234%N;
     load := Some [1; 160]%N |}.

(** C3, as stated, fails: with delay 2, a notification at time 0 and a
    second one at time 1 (inside the delay of the first) give two
    recomputations, the first on the failure set of the first link alone. *)
Lemma debounce_not_coalesced :
  let s' := fst (run_cpu_port_loop insertion_order
                   [(0, notify_s1_s2); (1, notify_s2_s3)]
                   (initial_state ring3 2)) in
  update_calls s' = [Some [("s1", "s2")]; Some [("s1", "s2"); ("s2", "s3")]] /\
  clock s' = 4 /\
  ~ (exists fs, update_calls s' = [Some fs] /\
                forall e, In e fs <-> e = ("s1", "s2") \/ e = ("s2", "s3")).
Proof.
  vm_compute. split; [reflexivity|]. split; [reflexivity|].
  intros (fs & H & _). discriminate H.
Qed.

(** One call of [process_packet] for a link that is not yet in
    [failed_links]: it returns only after the delay has passed, the link has
    been added to the set, and [update_nexthops] has been called once, on
    the set of all links known by then. *)
Lemma notification_handled_alone
  (set_iter : forall A : Type, list A -> list A) (pkt : Packet) (s : State)
  (failed_link : Edge) :
  notified_link (topo s) pkt = Ok (Some failed_link) ->
  set_mem failed_link (failed_links s) = false ->
  let s' := fst (process_packet set_iter pkt s) in
  clock s' = clock s + notification_delay s /\
  failed_links s' = failed_links s ++ [failed_link] /\
  update_calls s'
  = update_calls s ++ [Some (set_iter _ (failed_links s ++ [failed_link]))].
Proof.
  intros Hn Hm. cbv zeta. rewrite process_packet_run, Hn, Hm.
  unfold failure_notification.
  destruct (update_nexthops_frame set_iter
              (Some (set_iter _ (set_add failed_link (failed_links s))))
              (announced s failed_link)) as (_ & _ & _ & H4 & H5 & H6).
  simpl in H4, H5, H6. rewrite H4, H5, H6.
  unfold set_add. rewrite Hm. auto.
Qed.


(** The next hops and the alternates on the ring with the link s1-s2 down. *)
Definition ring3_nexthops : Dict (list (Node * Node)) :=
  Eval vm_compute in
    match snd (compute_nexthops ring3_failures (initial_state ring3 2)) with
    | Ok nh => nh
    | Raise _ => []
    end.

Definition ring3_lfas : Dict (Dict Node) :=
  Eval vm_compute in
    match snd (compute_lfas insertion_order ring3_nexthops ring3_failures
                 (initial_state ring3 2)) with
    | Ok l => l
    | Raise _ => []
    end.

Lemma compute_lfas_sound_witness :
  lookup2 ring3_lfas "s1" "h3" = Ok "s2" /\
  forall switch host alt,
    lookup2 ring3_lfas switch host = Ok alt ->
    exists dah das dsh,
      lookup2 (fst ring3_tables) alt host = Ok dah /\
      lookup2 (fst ring3_tables) alt switch = Ok das /\
      lookup2 (fst ring3_tables) switch host = Ok dsh /\ dah < das + dsh.
Proof.
  split; [reflexivity|].
  apply (@compute_lfas_sound insertion_order ring3_nexthops ring3_failures
           (initial_state ring3 2) (fst ring3_tables) (snd ring3_tables)
           ring3_lfas); vm_compute; reflexivity.
Defined.

(** A switch s4 that hangs on s1 alone; s1 reaches h2 through s2 (cost 2)
    or through s3 (cost 4). *)
Definition spur : NetworkGraph :=
  graph_of
    [("h1", host_attr "10.0.1.1/24"); ("h2", host_attr "10.0.2.1/24");
     ("s1", switch_attr); ("s2", switch_attr); ("s3", switch_attr);
     ("s4", switch_attr)]
    [mk_link "h1" "s1" 1 0 1; mk_link "h2" "s2" 1 0 1;
     mk_link "s1" "s2" 1 2 2; mk_link "s1" "s3" 2 3 1; mk_link "s3" "s2" 1 2 3;
     mk_link "s1" "s4" 1 4 1].

Definition spur_failures : option (list Edge) := Some [("s1", "s4")].

Definition spur_tables : DistTable * PathTable :=
  Eval vm_compute in
    match snd (dijkstra spur_failures (initial_state spur 1)) with
    | Ok t => t
    | Raise _ => ([], [])
    end.

Definition spur_nexthops : Dict (list (Node * Node)) :=
  Eval vm_compute in
    match snd (compute_nexthops spur_failures (initial_state spur 1)) with
    | Ok nh => nh
    | Raise _ => []
    end.

Definition reverse_order : forall A : Type, list A -> list A := fun _ l => rev l.

(** C2 on [spur] once the link s1-s4 has failed. For s1 and h2 the primary
    next hop is s2; the neighbour s3 satisfies the loop-free condition; the
    neighbour s4 has no distance to h2, the lookup raises [KeyError], and
    [compute_lfas] returns no table at all, in whichever order the
    neighbours are visited. *)
Lemma compute_lfas_raises_on_partition :
  snd (dijkstra spur_failures (initial_state spur 1)) = Ok spur_tables /\
  snd (compute_nexthops spur_failures (initial_state spur 1)) = Ok spur_nexthops /\
  dict_get spur_nexthops "s1" = Some [("h1", "h1"); ("h2", "s2")] /\
  get_p4switches_connected_to spur "s1" = Ok ["s2"; "s3"; "s4"] /\
  loop_free (fst spur_tables) "s1" "h2" "s3" /\
  lookup2 (fst spur_tables) "s4" "h2" = Raise KeyError /\
  snd (compute_lfas insertion_order spur_nexthops spur_failures
         (initial_state spur 1)) = Raise KeyError /\
  snd (compute_lfas reverse_order spur_nexthops spur_failures
         (initial_state spur 1)) = Raise KeyError /\
  snd (update_nexthops insertion_order spur_failures (initial_state spur 1))
  = Raise KeyError.
Proof.
  repeat split; try (vm_compute; reflexivity).
  exists 2, 2, 2. repeat split; try (vm_compute; reflexivity). lia.
Qed.

(* ================================================================== *)
(** ** What [compute_nexthops] returns and prints *)

Lemma add_out_nil s : add_out s [] = s.
Proof. destruct s. unfold add_out. simpl. now rewrite app_nil_r. Qed.

Lemma add_out_app s a b : add_out (add_out s a) b = add_out s (a ++ b).
Proof. unfold add_out. simpl. now rewrite app_assoc. Qed.

(** The inner loop of [compute_nexthops] for one switch, as a function:
    what it prints and the list it builds from [acc]. *)
Fixpoint nexthops_row (P : PathTable) (switch : Node) (hosts : list Node)
  (acc : list (Node * Node)) : list Output * Res (list (Node * Node)) :=
  match hosts with
  | [] => ([], Ok acc)
  | host :: t =>
      match lookup2 P switch host with
      | Raise _ =>
          let (o, r) := nexthops_row P switch t acc in
          ([out_not_connected; out_cannot_reach switch host] ++ o, r)
      | Ok path =>
          match nth_error path 1 with
          | None => ([], Raise IndexError)
          | Some nexthop => nexthops_row P switch t (acc ++ [(host, nexthop)])
          end
      end
  end.

(** The outer loop, over the switches. *)
Fixpoint nexthops_table (P : PathTable) (hosts switches : list Node)
  (acc : Dict (list (Node * Node)))
  : list Output * Res (Dict (list (Node * Node))) :=
  match switches with
  | [] => ([], Ok acc)
  | switch :: t =>
      match nexthops_row P switch hosts [] with
      | (o, Raise e) => (o, Raise e)
      | (o, Ok row) =>
          let (o', r) := nexthops_table P hosts t (dict_set acc switch row) in
          (o ++ o', r)
      end
  end.

Lemma nexthop_loop_run P switch hosts : forall acc s,
  for_fold hosts acc (nexthop_round P switch) s
  = (add_out s (fst (nexthops_row P switch hosts acc)),
     snd (nexthops_row P switch hosts acc)).
Proof.
  induction hosts as [|host t IH]; intros acc s; cbn [for_fold nexthops_row].
  - cbn. now rewrite add_out_nil.
  - unfold bind at 1. unfold nexthop_round at 1.
    destruct (lookup2 P switch host) as [path|e].
    + destruct (nth_error path 1) as [nexthop|]; cbn [ret raise fst snd].
      * apply IH.
      * now rewrite add_out_nil.
    + unfold bind, print, ret. rewrite IH.
      destruct (nexthops_row P switch t acc) as [o r]. cbn [fst snd].
      now rewrite !add_out_app.
Qed.

Lemma nexthops_loop_run P hosts switches : forall acc s,
  get_hosts (topo s) = hosts ->
  for_fold switches acc (fun switch results =>
    hosts <- gets (fun s => get_hosts (topo s)) ;;
    switch_results <- for_fold hosts [] (nexthop_round P switch) ;;
    ret (dict_set results switch switch_results)) s
  = (add_out s (fst (nexthops_table P hosts switches acc)),
     snd (nexthops_table P hosts switches acc)).
Proof.
  induction switches as [|switch t IH]; intros acc s Hh; simpl.
  - now rewrite add_out_nil.
  - unfold bind at 1. unfold bind at 1. unfold gets at 1. cbv beta iota.
    unfold bind at 1. rewrite Hh, nexthop_loop_run.
    destruct (nexthops_row P switch hosts []) as [o [row|e]]; simpl.
    + unfold ret. rewrite IH by exact Hh.
      destruct (nexthops_table P hosts t (dict_set acc switch row)) as [o' r].
      cbn [fst snd]. now rewrite add_out_app.
    + reflexivity.
Qed.

(** [compute_nexthops] in one equation. *)
Lemma compute_nexthops_run failures s :
  exists cs,
    compute_nexthops failures s
    = match dijkstra_result (topo s) failures with
      | Raise e => (with_copies s cs, Raise e)
      | Ok dp =>
          let t := nexthops_table (snd dp) (get_hosts (topo s)) (controllers s) [] in
          (add_out (with_copies s cs) (fst t), snd t)
      end.
Proof.
  destruct (dijkstra_run failures s) as [cs Hd]. exists cs.
  unfold compute_nexthops. unfold bind at 1. rewrite Hd.
  destruct (dijkstra_result (topo s) failures) as [dp|e]; [|reflexivity].
  unfold bind at 1, gets at 1. cbv beta iota zeta.
  now rewrite (nexthops_loop_run (snd dp) (hosts := get_hosts (topo s))).
Qed.

(** Every recorded pair comes from a path of the table. *)
Lemma nexthops_row_sound P switch hosts : forall acc row,
  snd (nexthops_row P switch hosts acc) = Ok row ->
  forall host nexthop, In (host, nexthop) row ->
    In (host, nexthop) acc \/
    (In host hosts /\ exists path, lookup2 P switch host = Ok path /\
                                   nth_error path 1 = Some nexthop).
Proof.
  induction hosts as [|h t IH]; cbn [nexthops_row fst snd]; intros acc row.
  - intros [= <-]. auto.
  - destruct (lookup2 P switch h) as [path|e] eqn:El.
    + destruct (nth_error path 1) as [nh|] eqn:En; cbn [fst snd]; [|discriminate].
      intros H host nexthop Hin.
      destruct (IH _ _ H _ _ Hin) as [Ha|(Ht & Hp)].
      * apply in_app_or in Ha. destruct Ha as [Ha|[[= <- <-]|[]]]; [now left|].
        right. split; [now left | eauto].
      * right. split; [now right | exact Hp].
    + destruct (nexthops_row P switch t acc) as [o r] eqn:Er. simpl.
      intros H host nexthop Hin. specialize (IH acc row).
      rewrite Er in IH. destruct (IH H _ _ Hin) as [Ha|(Ht & Hp)]; [now left|].
      right. split; [now right | exact Hp].
Qed.

(** Every host with a path gets its pair; every host without one gets the
    warning. *)
Lemma nexthops_row_complete P switch hosts : forall acc row,
  snd (nexthops_row P switch hosts acc) = Ok row ->
  incl acc row /\
  forall host, In host hosts ->
    match lookup2 P switch host with
    | Ok path => exists nexthop, nth_error path 1 = Some nexthop /\
                                 In (host, nexthop) row
    | Raise _ => In (out_cannot_reach switch host)
                   (fst (nexthops_row P switch hosts acc))
    end.
Proof.
  induction hosts as [|h t IH]; cbn [nexthops_row fst snd]; intros acc row.
  - intros [= <-]. split; [apply incl_refl | intros host []].
  - destruct (lookup2 P switch h) as [path|e] eqn:El.
    + destruct (nth_error path 1) as [nh|] eqn:En; cbn [fst snd]; [|discriminate].
      intros H. destruct (IH _ _ H) as [Hinc Hall]. split.
      * intros x Hx. apply Hinc, in_or_app. now left.
      * intros host [<-|Hin]; [|now apply Hall].
        rewrite El. exists nh. split; [exact En|].
        apply Hinc, in_or_app. right. now left.
    + destruct (nexthops_row P switch t acc) as [o r] eqn:Er. simpl.
      intros H. specialize (IH acc row). rewrite Er in IH.
      destruct (IH H) as [Hinc Hall]. split; [exact Hinc|].
      intros host [<-|Hin].
      * rewrite El. right. now left.
      * specialize (Hall _ Hin). destruct (lookup2 P switch host); [exact Hall|].
        right. now right.
Qed.

Lemma nexthops_row_total P switch hosts : forall acc,
  (forall host path, In host hosts -> lookup2 P switch host = Ok path ->
                     nth_error path 1 <> None) ->
  exists row, snd (nexthops_row P switch hosts acc) = Ok row.
Proof.
  induction hosts as [|h t IH]; cbn [nexthops_row fst snd]; intros acc Hp.
  - eauto.
  - destruct (lookup2 P switch h) as [path|e] eqn:El.
    + destruct (nth_error path 1) as [nh|] eqn:En.
      * apply IH. intros host p Hin. apply Hp. now right.
      * exfalso. exact (Hp h path (or_introl eq_refl) El En).
    + destruct (IH acc) as [row Hrow].
      { intros host p Hin. apply Hp. now right. }
      destruct (nexthops_row P switch t acc). simpl in *. eauto.
Qed.

(** The hosts of a row are hosts of the topology, in their order. *)
Lemma nexthops_row_keys P switch hosts : forall acc row,
  snd (nexthops_row P switch hosts acc) = Ok row ->
  exists hs, map fst row = map fst acc ++ hs /\
             (forall h, In h hs -> In h hosts) /\ (NoDup hosts -> NoDup hs).
Proof.
  induction hosts as [|h t IH]; cbn [nexthops_row fst snd]; intros acc row.
  - intros [= <-]. exists []. rewrite app_nil_r.
    split; [reflexivity|]. split; [intros h [] | intros _; constructor].
  - destruct (lookup2 P switch h) as [path|e].
    + destruct (nth_error path 1) as [nh|]; cbn [fst snd]; [|discriminate].
      intros H. destruct (IH _ _ H) as (hs & Hm & Hin & Hnd).
      exists (h :: hs). rewrite Hm, map_app, <- app_assoc. simpl.
      split; [reflexivity|]. split.
      * intros x [<-|Hx]; [now left | right; now apply Hin].
      * intros Hn. inversion Hn as [|? ? Hni Hnt]; subst. constructor; [|auto].
        intros Hh. apply Hni. now apply Hin.
    + destruct (nexthops_row P switch t acc) as [o r] eqn:Er. simpl.
      intros H. specialize (IH acc row). rewrite Er in IH.
      destruct (IH H) as (hs & Hm & Hin & Hnd). exists hs.
      split; [exact Hm|]. split.
      * intros x Hx. right. now apply Hin.
      * intros Hn. inversion Hn; subst. auto.
Qed.

Lemma nexthops_table_rows P hosts switches : forall acc results,
  snd (nexthops_table P hosts switches acc) = Ok results ->
  forall switch,
    (In switch switches ->
     exists row, snd (nexthops_row P switch hosts []) = Ok row /\
                 dict_get results switch = Some row) /\
    (~ In switch switches -> dict_get results switch = dict_get acc switch).
Proof.
  induction switches as [|x t IH]; cbn [nexthops_table]; intros acc results.
  - cbn. intros [= <-] switch. split; [intros [] | reflexivity].
  - destruct (nexthops_row P x hosts []) as [o [rowx|e]] eqn:Ex;
      cbn [snd]; [|discriminate].
    destruct (nexthops_table P hosts t (dict_set acc x rowx)) as [o' r] eqn:Et.
    cbn [snd]. intros ->. specialize (IH (dict_set acc x rowx) results).
    rewrite Et in IH. specialize (IH eq_refl).
    intros switch. destruct (IH switch) as [IH1 IH2].
    destruct (in_dec string_dec switch t) as [Hin|Hnin].
    + split; [intros _; now apply IH1 | intros Hn; exfalso; apply Hn; now right].
    + rewrite (IH2 Hnin), dict_get_set. split.
      * intros [->|Hin]; [|contradiction].
        rewrite String.eqb_refl. exists rowx. rewrite Ex. auto.
      * intros Hn. destruct (String.eqb_spec x switch) as [->|_]; [|reflexivity].
        exfalso. apply Hn. now left.
Qed.

Lemma nexthops_table_In P hosts switches : forall acc results,
  snd (nexthops_table P hosts switches acc) = Ok results ->
  forall switch row, In (switch, row) results ->
    In (switch, row) acc \/
    (In switch switches /\ snd (nexthops_row P switch hosts []) = Ok row).
Proof.
  induction switches as [|x t IH]; cbn [nexthops_table]; intros acc results.
  - cbn. intros [= <-]. auto.
  - destruct (nexthops_row P x hosts []) as [o [rowx|e]] eqn:Ex;
      cbn [snd]; [|discriminate].
    destruct (nexthops_table P hosts t (dict_set acc x rowx)) as [o' r] eqn:Et.
    cbn [snd]. intros ->. specialize (IH (dict_set acc x rowx) results).
    rewrite Et in IH. specialize (IH eq_refl).
    intros switch row Hin. destruct (IH _ _ Hin) as [Ha|[Ht Hr]].
    + apply dict_set_In in Ha. destruct Ha as [[-> ->]|Ha]; [|now left].
      right. split; [now left | now rewrite Ex].
    + right. split; [now right | exact Hr].
Qed.

Lemma nexthops_table_out P hosts switches : forall acc results,
  snd (nexthops_table P hosts switches acc) = Ok results ->
  forall switch o, In switch switches ->
    In o (fst (nexthops_row P switch hosts [])) ->
    In o (fst (nexthops_table P hosts switches acc)).
Proof.
  induction switches as [|x t IH]; cbn [nexthops_table]; intros acc results.
  - intros _ switch o [].
  - destruct (nexthops_row P x hosts []) as [ox [rowx|e]] eqn:Ex;
      cbn [snd]; [|discriminate].
    destruct (nexthops_table P hosts t (dict_set acc x rowx)) as [o' r] eqn:Et.
    cbn [fst snd]. intros ->. specialize (IH (dict_set acc x rowx) results).
    rewrite Et in IH. specialize (IH eq_refl).
    intros switch o [->|Hin] Ho; apply in_or_app.
    + left. now rewrite Ex in Ho.
    + right. now apply (IH switch).
Qed.

Lemma nexthops_table_total P hosts switches : forall acc,
  (forall switch, In switch switches ->
     exists row, snd (nexthops_row P switch hosts []) = Ok row) ->
  exists results, snd (nexthops_table P hosts switches acc) = Ok results.
Proof.
  induction switches as [|x t IH]; cbn [nexthops_table]; intros acc Hall.
  - cbn. eauto.
  - destruct (Hall x (or_introl eq_refl)) as [rowx Hx].
    destruct (nexthops_row P x hosts []) as [o r]. cbn [snd] in Hx. subst r.
    destruct (IH (dict_set acc x rowx)) as [results Hr].
    { intros sw Hin. apply Hall. now right. }
    destruct (nexthops_table P hosts t (dict_set acc x rowx)). cbn [snd] in *. eauto.
Qed.

Lemma compute_nexthops_snd failures s :
  snd (compute_nexthops failures s)
  = (dp <~ dijkstra_result (topo s) failures ;;
     snd (nexthops_table (snd dp) (get_hosts (topo s)) (controllers s) [])).
Proof.
  destruct (compute_nexthops_run failures s) as [cs ->].
  destruct (dijkstra_result (topo s) failures); reflexivity.
Qed.

Lemma without_failures_sub G failures G' :
  wf_graph G -> without_failures G failures = Ok G' ->
  forall a b, has_edge G' a b -> has_edge G a b.
Proof.
  intros Hwf H a b He. now apply (without_failures_links _ Hwf H) in He.
Qed.

(** C6. A pair [(host, nexthop)] that [compute_nexthops] records for a
    switch comes from the computed path from the switch to the host: the path
    starts at the switch and [nexthop] is its second node. Consecutive nodes
    of the path being linked, [nexthop] is a neighbour of the switch, so
    [nexthop = host] only when the switch and the host are directly linked in
    the topology (a graph as networkx keeps it). *)
Theorem compute_nexthops_second_node (failures : option (list Edge)) (s : State)
  (D : DistTable) (P : PathTable) (results : Dict (list (Node * Node))) :
  wf_graph (topo s) ->
  snd (dijkstra failures s) = Ok (D, P) ->
  snd (compute_nexthops failures s) = Ok results ->
  forall switch row host nexthop,
    dict_get results switch = Some row -> In (host, nexthop) row ->
    exists path G',
      lookup2 P switch host = Ok path /\
      nth_error path 0 = Some switch /\ nth_error path 1 = Some nexthop /\
      without_failures (topo s) failures = Ok G' /\
      walk G' switch host path /\
      has_edge G' switch nexthop /\ has_edge (topo s) switch nexthop /\
      (nexthop = host -> has_edge (topo s) switch host).
Proof.
  intros Hwf. rewrite dijkstra_snd, compute_nexthops_snd. intros HD. rewrite HD.
  cbn [res_bind snd]. intros Ht switch row host nexthop Hrow Hin.
  apply dict_get_In in Hrow.
  destruct (nexthops_table_In _ _ _ _ Ht _ _ Hrow) as [[]|[_ Hr]].
  destruct (nexthops_row_sound _ _ _ _ Hr _ _ Hin) as [[]|(_ & path & Hp & Hn)].
  destruct (dijkstra_result_walk _ _ HD) as (G' & HG & Hw).
  specialize (Hw _ _ _ Hp).
  assert (H0 := walk_head Hw).
  assert (He := walk_consecutive Hw _ H0 Hn).
  assert (He' := without_failures_sub _ Hwf HG He).
  exists path, G'. repeat (split; [assumption|]). now intros <-.
Qed.

Lemma compute_nexthops_second_node_witness :
  exists path G',
    lookup2 (snd ring3_tables) "s1" "h2" = Ok path /\
    nth_error path 0 = Some "s1" /\ nth_error path 1 = Some "s3" /\
    without_failures ring3 ring3_failures = Ok G' /\
    walk G' "s1" "h2" path /\
    has_edge G' "s1" "s3" /\ has_edge ring3 "s1" "s3" /\
    ("s3" = "h2" -> has_edge ring3 "s1" "h2").
Proof.
  apply (@compute_nexthops_second_node ring3_failures (initial_state ring3 2)
           (fst ring3_tables) (snd ring3_tables) ring3_nexthops ring3_wf
           (ltac:(vm_compute; reflexivity)) (ltac:(vm_compute; reflexivity))
           "s1" [("h1", "h1"); ("h2", "s3"); ("h3", "s3")] "h2" "s3").
  - reflexivity.
  - right. left. reflexivity.
Defined.

(** What holds of C7, in [compute_nexthops] itself: when the path table has
    no entry from a switch to a host, [compute_nexthops] prints the warning,
    leaves that pair out and goes on: it returns a table that has, for every
    switch, the pair of every host the switch has a path to. The lookup that
    fails does not make [compute_nexthops] raise. (No node is both a switch
    of [self.controllers] and a host.) What becomes of the recomputation
    afterwards is [unreachable_pair_aborts_update] below. *)
Lemma unreachable_pairs_skipped (failures : option (list Edge)) (s : State)
  (D : DistTable) (P : PathTable) :
  snd (dijkstra failures s) = Ok (D, P) ->
  (forall n, In n (controllers s) -> In n (get_hosts (topo s)) -> False) ->
  exists cs out results,
    compute_nexthops failures s = (add_out (with_copies s cs) out, Ok results) /\
    forall switch host,
      In switch (controllers s) -> In host (get_hosts (topo s)) ->
      exists row,
        dict_get results switch = Some row /\
        match lookup2 P switch host with
        | Ok path =>
            exists nexthop, nth_error path 1 = Some nexthop /\
                            In (host, nexthop) row
        | Raise _ =>
            (forall nexthop, ~ In (host, nexthop) row) /\
            In (out_cannot_reach switch host) out
        end.
Proof.
  rewrite dijkstra_snd. intros HD Hdisj.
  destruct (compute_nexthops_run failures s) as [cs Hrun]. rewrite HD in Hrun.
  cbn [snd] in Hrun. cbv zeta in Hrun.
  destruct (dijkstra_result_walk _ _ HD) as (G' & HG & Hw).
  destruct (nexthops_table_total P (get_hosts (topo s)) (controllers s) [])
    as [results Hres].
  { intros switch Hsw. apply nexthops_row_total.
    intros host path Hh Hp Hnone.
    destruct (walk_second (Hw _ _ _ Hp)) as [n Hn]; [|congruence].
    intros ->. exact (Hdisj _ Hsw Hh). }
  exists cs, (fst (nexthops_table P (get_hosts (topo s)) (controllers s) [])), results.
  split; [now rewrite Hrun, Hres|].
  intros switch host Hsw Hh.
  destruct (nexthops_table_rows _ _ _ _ Hres switch) as [Hrows _].
  destruct (Hrows Hsw) as (row & Hrow & Hget).
  exists row. split; [exact Hget|].
  destruct (nexthops_row_complete _ _ _ _ Hrow) as [_ Hall].
  specialize (Hall _ Hh).
  destruct (lookup2 P switch host) as [path|e] eqn:El; [exact Hall|].
  split.
  - intros nexthop Hin.
    destruct (nexthops_row_sound _ _ _ _ Hrow _ _ Hin) as [[]|(_ & p & Hp & _)].
    congruence.
  - eapply nexthops_table_out; eauto.
Qed.

(** On [spur] with the link s1-s4 down, s1 has no path to s4's side and s4
    none to the hosts. *)
Lemma unreachable_pairs_skipped_witness :
  exists cs out results,
    compute_nexthops spur_failures (initial_state spur 1)
    = (add_out (with_copies (initial_state spur 1) cs) out, Ok results) /\
    forall switch host,
      In switch (controllers (initial_state spur 1)) ->
      In host (get_hosts (topo (initial_state spur 1))) ->
      exists row,
        dict_get results switch = Some row /\
        match lookup2 (snd spur_tables) switch host with
        | Ok path =>
            exists nexthop, nth_error path 1 = Some nexthop /\
                            In (host, nexthop) row
        | Raise _ =>
            (forall nexthop, ~ In (host, nexthop) row) /\
            In (out_cannot_reach switch host) out
        end.
Proof.
  apply (@unreachable_pairs_skipped spur_failures (initial_state spur 1)
           (fst spur_tables) (snd spur_tables)).
  - vm_compute. reflexivity.
  - vm_compute. intuition congruence.
Defined.

(** C9, as stated, fails: on the ring, h2-s1 is not a link; listed as a
    failure it makes [dijkstra] raise, where the empty list of failures gives
    the tables of the whole topology. *)
Lemma absent_edge_raises :
  has_edgeb ring3 "h2" "s1" = false /\
  snd (dijkstra (Some [("h2", "s1")]) (initial_state ring3 2)) = Raise NetworkXError /\
  (exists t, snd (dijkstra (Some []) (initial_state ring3 2)) = Ok t) /\
  snd (dijkstra (Some [("h2", "s1")]) (initial_state ring3 2))
  <> snd (dijkstra (Some []) (initial_state ring3 2)).
Proof.
  split; [reflexivity|]. split; [vm_compute; reflexivity|]. split.
  - eexists. vm_compute. reflexivity.
  - vm_compute. discriminate.
Qed.

(** A list of failures that [remove_edges] gets through names links of
    the graph, each once. *)
Lemma remove_edges_exn fs : forall G e,
  remove_edges G fs = Raise e -> e = NetworkXError.
Proof.
  induction fs as [|f t IH]; simpl; intros G e; [discriminate|].
  destruct (remove_edge G (fst f) (snd f)) as [G1|x] eqn:E1; cbn [res_bind].
  - apply IH.
  - intros [= <-]. revert E1. unfold remove_edge.
    destruct (dict_get (g_adj G) (fst f)) as [nu|]; [|congruence].
    destruct (dict_mem nu (snd f)); [|congruence].
    destruct (String.eqb (fst f) (snd f)); [discriminate|].
    destruct (dict_get _ (snd f)) as [nv|]; [|congruence].
    destruct (dict_mem nv (fst f)); [discriminate | congruence].
Qed.

Lemma remove_edges_ok_present fs : forall G G',
  remove_edges G fs = Ok G' -> present_once G fs.
Proof.
  induction fs as [|f t IH]; simpl; intros G G'; [auto|].
  destruct (remove_edge G (fst f) (snd f)) as [G1|x] eqn:E1; cbn [res_bind];
    [|discriminate].
  intros Ht.
  assert (Hsub : forall a b, has_edge G1 a b -> has_edge G a b).
  { intros a b H. now apply (remove_edge_has_edge _ _ _ E1) in H. }
  split; [|split].
  - apply has_edgeb_spec. destruct (has_edgeb G (fst f) (snd f)) eqn:E; [reflexivity|].
    rewrite (remove_edge_absent _ _ _ E) in E1. discriminate.
  - intros g Hg Hsame.
    assert (Habs : has_edgeb G1 (fst g) (snd g) = false).
    { destruct (has_edgeb G1 (fst g) (snd g)) eqn:E; [|reflexivity].
      apply has_edgeb_spec, (remove_edge_has_edge _ _ _ E1) in E.
      destruct E as (_ & N1 & N2). unfold same_link in Hsame.
      destruct Hsame as [[H1 H2]|[H1 H2]]; exfalso; [apply N1 | apply N2]; auto. }
    rewrite (remove_edges_absent t G1 g Hg Habs) in Ht. discriminate.
  - exact (present_once_mono _ Hsub (IH _ _ Ht)).
Qed.

(** A link that comes twice in the list, in either orientation. *)
Definition listed_twice (fs : list Edge) : Prop :=
  exists pre f mid g post,
    fs = pre ++ f :: mid ++ g :: post /\ same_link f (fst g) (snd g).

Lemma listed_twice_not_once G fs : listed_twice fs -> ~ present_once G fs.
Proof.
  intros (pre & f & mid & g & post & -> & Hsame).
  induction pre as [|x pre IH]; simpl.
  - intros (_ & Hd & _). apply (Hd g); [|exact Hsame].
    apply in_or_app. right. now left.
  - intros (_ & _ & H). now apply IH.
Qed.

(** C9, amended. [dijkstra] never changes the topology the controller
    holds: the links are removed from a copy. On a topology as networkx
    keeps it, a listed failure that is not a link of the topology is not
    skipped: [remove_edge] raises [NetworkXError] and [dijkstra] with it, and
    so does a link that is listed twice (in either orientation), the second
    removal finding it gone; [dijkstra] returns exactly when every listed
    failure is a link of the topology and is listed once, and then it
    returns the tables of the graph that has the links of the topology but
    the listed ones. *)
Theorem failed_links_removed_from_copy (failures : option (list Edge)) (s : State) :
  topo (fst (dijkstra failures s)) = topo s /\
  (wf_graph (topo s) ->
   (forall f, In f (failed failures) ->
      has_edgeb (topo s) (fst f) (snd f) = false ->
      snd (dijkstra failures s) = Raise NetworkXError) /\
   (listed_twice (failed failures) ->
    snd (dijkstra failures s) = Raise NetworkXError) /\
   (~ present_once (topo s) (failed failures) ->
    snd (dijkstra failures s) = Raise NetworkXError) /\
   (present_once (topo s) (failed failures) ->
    exists G' r,
      without_failures (topo s) failures = Ok G' /\
      (forall a b, has_edge G' a b <->
                   has_edge (topo s) a b /\
                   forall f, In f (failed failures) -> ~ same_link f a b) /\
      all_pairs_dijkstra G' = Ok r /\
      snd (dijkstra failures s) = Ok (tables_of r))).
Proof.
  split; [|intros Hwf].
  { destruct (dijkstra_run failures s) as [cs ->]. reflexivity. }
  assert (Hnot : ~ present_once (topo s) (failed failures) ->
                 snd (dijkstra failures s) = Raise NetworkXError).
  { intros Hnp. rewrite dijkstra_snd. unfold dijkstra_result.
    destruct failures as [fs|]; simpl in *; [|now destruct Hnp].
    destruct (remove_edges (nx_copy (topo s)) fs) as [G'|e] eqn:E; cbn [res_bind].
    - exfalso. apply Hnp. apply remove_edges_ok_present in E.
      apply (@present_once_mono (nx_copy (topo s)) _ fs); [|exact E].
      intros a b. now apply nx_copy_same_links.
    - f_equal. exact (remove_edges_exn _ _ E). }
  split; [|split; [|split; [exact Hnot|]]].
  - intros f Hin Habs. rewrite dijkstra_snd. unfold dijkstra_result.
    destruct failures as [fs|]; simpl in *; [|contradiction].
    rewrite (remove_edges_absent fs (nx_copy (topo s)) f Hin); [reflexivity|].
    destruct (has_edgeb (nx_copy (topo s)) (fst f) (snd f)) eqn:E; [|reflexivity].
    apply has_edgeb_spec, (nx_copy_same_links _ _ Hwf), has_edgeb_spec in E.
    congruence.
  - intros Htw. apply Hnot. now apply listed_twice_not_once.
  - intros Hp.
    destruct (dijkstra_total failures s Hwf Hp) as (G' & r & HG & _ & Hr & Hd).
    exists G', r. split; [exact HG|]. split; [|auto].
    exact (without_failures_links _ Hwf HG).
Qed.

(** On the ring: the link s1-s2 listed once, and listed twice, the second
    time from its other end. *)
Lemma failed_links_removed_from_copy_witness :
  (exists G' r,
     without_failures ring3 ring3_failures = Ok G' /\
     (forall a b, has_edge G' a b <->
                  has_edge ring3 a b /\
                  forall f, In f (failed ring3_failures) -> ~ same_link f a b) /\
     all_pairs_dijkstra G' = Ok r /\
     snd (dijkstra ring3_failures (initial_state ring3 2)) = Ok (tables_of r)) /\
  snd (dijkstra (Some [("s1", "s2"); ("s2", "s1")]) (initial_state ring3 2))
  = Raise NetworkXError.
Proof.
  split.
  - apply (proj2 (proj2 (proj2 (proj2 (failed_links_removed_from_copy ring3_failures
                           (initial_state ring3 2)) ring3_wf)))).
    simpl. split; [|split; [intros g []|exact I]].
    apply has_edgeb_spec. vm_compute. reflexivity.
  - apply (proj1 (proj2 (proj2 (failed_links_removed_from_copy
                           (Some [("s1", "s2"); ("s2", "s1")])
                           (initial_state ring3 2)) ring3_wf))).
    exists [], ("s1", "s2"), [], ("s2", "s1"), []. split; [reflexivity|].
    right. auto.
Defined.

(* ================================================================== *)
(** ** What a method prints and sends, as a value

    The methods that install the next hops read only [self.topo] and
    [self.controllers], print, and call the switches. [runs_as G ctl m x]
    says that [m], wherever the topology is [G] and the switches are [ctl],
    prints and sends what [x] lists and returns what [x] returns. *)

Definition Eff (A : Type) : Type := (list Output * list Cmd * Res A)%type.

Definition eff_ret {A} (a : A) : Eff A := ([], [], Ok a).

Definition eff_bind {A B} (x : Eff A) (k : A -> Eff B) : Eff B :=
  match x with
  | (o, c, Ok a) => let '(o', c', r) := k a in (o ++ o', c ++ c', r)
  | (o, c, Raise e) => (o, c, Raise e)
  end.

Fixpoint eff_each {A} (l : list A) (f : A -> Eff unit) : Eff unit :=
  match l with
  | [] => eff_ret tt
  | x :: t => eff_bind (f x) (fun _ => eff_each t f)
  end.

Definition eff_out {A} (x : Eff A) : list Output := fst (fst x).
Definition eff_cmds {A} (x : Eff A) : list Cmd := snd (fst x).
Definition eff_res {A} (x : Eff A) : Res A := snd x.

(** The state after more copies, output and calls. *)
Definition upd (s : State) (cs : list NetworkGraph) (o : list Output)
  (c : list Cmd) : State :=
  {| topo := topo s; copies := cs; controllers := controllers s;
     notification_delay := notification_delay s;
     failed_links := failed_links s; stdout := stdout s ++ o;
     rpc := rpc s ++ c; clock := clock s; update_calls := update_calls s |}.

Lemma upd_upd s cs o c cs' o' c' :
  upd (upd s cs o c) cs' o' c' = upd s cs' (o ++ o') (c ++ c').
Proof. unfold upd. simpl. now rewrite !app_assoc. Qed.

Lemma upd_id s : upd s (copies s) [] [] = s.
Proof. destruct s. unfold upd. simpl. now rewrite !app_nil_r. Qed.

Definition runs_as {A} (G : NetworkGraph) (ctl : list Node) (m : M A) (x : Eff A)
  : Prop :=
  forall s, topo s = G -> controllers s = ctl ->
  exists cs, m s = (upd s cs (eff_out x) (eff_cmds x), eff_res x).

Section Runs.
Variable G : NetworkGraph.
Variable ctl : list Node.

Lemma runs_ret {A} (a : A) : runs_as G ctl (ret a) (eff_ret a).
Proof. intros s _ _. exists (copies s). unfold ret. simpl. now rewrite upd_id. Qed.

Lemma runs_raise {A} e : runs_as G ctl (@raise A e) ([], [], Raise e).
Proof. intros s _ _. exists (copies s). unfold raise. simpl. now rewrite upd_id. Qed.

Lemma runs_lift {A} (r : Res A) : runs_as G ctl (lift r) ([], [], r).
Proof. intros s _ _. exists (copies s). unfold lift. simpl. now rewrite upd_id. Qed.

Lemma runs_gets_topo : runs_as G ctl (gets topo) (eff_ret G).
Proof.
  intros s <- _. exists (copies s). unfold gets. simpl. now rewrite upd_id.
Qed.

Lemma runs_gets_controllers : runs_as G ctl (gets controllers) (eff_ret ctl).
Proof.
  intros s _ <-. exists (copies s). unfold gets. simpl. now rewrite upd_id.
Qed.

Lemma runs_print o : runs_as G ctl (print o) ([o], [], Ok tt).
Proof.
  intros s _ _. exists (copies s). unfold print, add_out, upd. simpl.
  now rewrite app_nil_r.
Qed.

Lemma runs_call c : runs_as G ctl (call c) ([], [c], Ok tt).
Proof.
  intros s _ _. exists (copies s). unfold call, add_rpc, upd. simpl.
  now rewrite app_nil_r.
Qed.

Lemma runs_bind {A B} (m : M A) (k : A -> M B) x y :
  runs_as G ctl m x -> (forall a, runs_as G ctl (k a) (y a)) ->
  runs_as G ctl (bind m k) (eff_bind x y).
Proof.
  intros Hm Hk s HG Hc. destruct (Hm s HG Hc) as [cs Hs].
  unfold bind. rewrite Hs. destruct x as [[o c] [a|e]];
    unfold eff_out, eff_cmds, eff_res; cbn [fst snd eff_bind].
  - destruct (Hk a (upd s cs o c)) as [cs' Hs']; [exact HG | exact Hc|].
    rewrite Hs'. exists cs'. destruct (y a) as [[o' c'] r].
    unfold eff_out, eff_cmds, eff_res; cbn [fst snd]. now rewrite upd_upd.
  - exists cs. reflexivity.
Qed.

Lemma runs_for_each {A} (l : list A) (body : A -> M unit) f :
  (forall x, runs_as G ctl (body x) (f x)) ->
  runs_as G ctl (for_each l body) (eff_each l f).
Proof.
  intros Hb. unfold for_each. induction l as [|x t IH]; simpl.
  - apply runs_ret.
  - refine (@runs_bind _ _ _ _ _ (fun _ => eff_each t f) (Hb x) _).
    intros []. exact IH.
Qed.

End Runs.

(** What is sent comes from one of the elements; in a run that returns,
    every element's part has been printed and sent, and has returned. *)
Lemma eff_each_cmds {A} (l : list A) f c :
  In c (eff_cmds (eff_each l f)) -> exists x, In x l /\ In c (eff_cmds (f x)).
Proof.
  induction l as [|x t IH]; simpl; [intros []|].
  unfold eff_bind. destruct (f x) as [[o cs] [[]|e]] eqn:Ex.
  - destruct (eff_each t f) as [[o' c'] r]. unfold eff_cmds in *. simpl in *.
    intros Hin. apply in_app_or in Hin. destruct Hin as [Hin|Hin].
    + exists x. rewrite Ex. auto.
    + destruct (IH Hin) as (y & Hy & Hc). eauto.
  - unfold eff_cmds. simpl. intros Hin. exists x. rewrite Ex. auto.
Qed.

Lemma eff_each_ok {A} (l : list A) f :
  eff_res (eff_each l f) = Ok tt ->
  forall x, In x l ->
    eff_res (f x) = Ok tt /\
    incl (eff_out (f x)) (eff_out (eff_each l f)) /\
    incl (eff_cmds (f x)) (eff_cmds (eff_each l f)).
Proof.
  induction l as [|y t IH]; simpl; [intros _ x []|].
  unfold eff_bind. destruct (f y) as [[o cs] [[]|e]] eqn:Ey.
  - destruct (eff_each t f) as [[o' c'] r] eqn:Et.
    unfold eff_res, eff_out, eff_cmds in *. simpl in *.
    intros -> x [<-|Hx].
    + rewrite Ey. simpl. split; [reflexivity|].
      split; apply incl_appl, incl_refl.
    + destruct (IH eq_refl x Hx) as (H1 & H2 & H3).
      split; [exact H1|]. split; apply incl_appr; assumption.
  - unfold eff_res. simpl. discriminate.
Qed.

Lemma runs_as_eq {A} G ctl (m : M A) x y :
  runs_as G ctl m x -> x = y -> runs_as G ctl m y.
Proof. now intros H <-. Qed.

Lemma eff_bind_cmds {A B} (x : Eff A) (k : A -> Eff B) c :
  In c (eff_cmds (eff_bind x k)) ->
  In c (eff_cmds x) \/ exists a, eff_res x = Ok a /\ In c (eff_cmds (k a)).
Proof.
  unfold eff_bind, eff_cmds, eff_res. destruct x as [[o cs] [a|e]]; simpl.
  - destruct (k a) as [[o' c'] r] eqn:Ek. simpl. intros Hin.
    apply in_app_or in Hin. destruct Hin as [Hin|Hin]; [now left|].
    right. exists a. rewrite Ek. auto.
  - auto.
Qed.

Lemma eff_bind_ok {A B} (x : Eff A) (k : A -> Eff B) b :
  eff_res (eff_bind x k) = Ok b ->
  exists a, eff_res x = Ok a /\ eff_res (k a) = Ok b /\
            eff_out (eff_bind x k) = eff_out x ++ eff_out (k a) /\
            eff_cmds (eff_bind x k) = eff_cmds x ++ eff_cmds (k a).
Proof.
  unfold eff_bind, eff_cmds, eff_res, eff_out. destruct x as [[o cs] [a|e]]; simpl.
  - destruct (k a) as [[o' c'] r] eqn:Ek. simpl. intros ->. exists a.
    rewrite Ek. auto.
  - discriminate.
Qed.

Lemma eff_bind_ret {A B} (a : A) (k : A -> Eff B) : eff_bind (eff_ret a) k = k a.
Proof. unfold eff_bind, eff_ret. now destruct (k a) as [[o c] r]. Qed.

(* ------------------------------------------------------------------ *)
(** *** [update_nexthops] and [install_nexthop_indices] as values *)

Definition host_index (G : NetworkGraph) (host : Node) : Res nat :=
  list_index host (sorted (get_hosts G)).

Definition install_primary_eff (G : NetworkGraph) (switch : Node)
  (dest : Node * Node) : Eff unit :=
  let (host, nexthop) := dest in
  eff_bind ([], [], host_index G host) (fun nexthop_id =>
  eff_bind ([], [], node_to_node_port_num G switch nexthop) (fun port =>
  ([], [register_write switch "primaryNH" nexthop_id port], Ok tt))).

Definition install_lfa_eff (G : NetworkGraph) (lfas : Dict (Dict Node))
  (switch : Node) (dest : Node * Node) : Eff unit :=
  let (host, nexthop) := dest in
  eff_bind ([], [], host_index G host) (fun nexthop_id =>
  if String.eqb host nexthop then eff_ret tt
  else
    eff_bind (match lookup2 lfas switch host with
              | Ok alt => eff_ret alt
              | Raise _ => ([out_no_lfa switch host nexthop], [], Ok nexthop)
              end) (fun lfa_nexthop =>
    eff_bind ([], [], node_to_node_port_num G switch lfa_nexthop) (fun lfa_port =>
    ([], [register_write switch "alternativeNH" nexthop_id lfa_port], Ok tt)))).

Definition install_switch_eff (G : NetworkGraph) (ctl : list Node)
  (lfas : Dict (Dict Node)) (sd : Node * list (Node * Node)) : Eff unit :=
  let (switch, destinations) := sd in
  eff_bind ([out_updating_nexthops switch], [], Ok tt) (fun _ =>
  eff_bind ([], [], if existsb (String.eqb switch) ctl then Ok tt
                    else Raise KeyError) (fun _ =>
  eff_bind (eff_each destinations (install_primary_eff G switch)) (fun _ =>
  eff_bind ([out_installing_lfas], [], Ok tt) (fun _ =>
  eff_bind ([out_lfas_rule], [], Ok tt) (fun _ =>
  eff_each destinations (install_lfa_eff G lfas switch)))))).

Definition install_index_eff (G : NetworkGraph) (switch host : Node) : Eff unit :=
  eff_bind ([], [], host_gateway_ip G host) (fun subnet =>
  eff_bind ([], [], host_index G host) (fun index =>
  ([], [table_add switch "ipv4_lpm" "read_port" [subnet] [str index]], Ok tt))).

Definition install_indices_eff (G : NetworkGraph) (switch : Node) : Eff unit :=
  eff_bind ([out_installing_indices switch], [], Ok tt) (fun _ =>
  eff_bind ([out_indices_rule], [], Ok tt) (fun _ =>
  eff_bind ([], [table_clear switch "ipv4_lpm"], Ok tt) (fun _ =>
  eff_each (get_hosts G) (install_index_eff G switch)))).

Section RunsInstall.
Variable G : NetworkGraph.
Variable ctl : list Node.

Lemma runs_get_nexthop_index host :
  runs_as G ctl (get_nexthop_index host) ([], [], host_index G host).
Proof.
  unfold get_nexthop_index.
  eapply runs_as_eq;
    [eapply runs_bind; [apply runs_gets_topo | intros a; apply runs_lift]|].
  reflexivity.
Qed.

Lemma runs_get_port a b :
  runs_as G ctl (get_port a b) ([], [], node_to_node_port_num G a b).
Proof.
  unfold get_port.
  eapply runs_as_eq;
    [eapply runs_bind; [apply runs_gets_topo | intros x; apply runs_lift]|].
  reflexivity.
Qed.

Lemma runs_get_host_net host :
  runs_as G ctl (get_host_net host) ([], [], host_gateway_ip G host).
Proof.
  unfold get_host_net.
  eapply runs_as_eq;
    [eapply runs_bind; [apply runs_gets_topo | intros x; apply runs_lift]|].
  reflexivity.
Qed.

Lemma runs_install_primary switch dest :
  runs_as G ctl (install_primary switch dest) (install_primary_eff G switch dest).
Proof.
  unfold install_primary, install_primary_eff. destruct dest as [host nexthop].
  apply runs_bind; [apply runs_get_nexthop_index | intros i].
  apply runs_bind; [apply runs_get_port | intros p]. apply runs_call.
Qed.

Lemma runs_install_lfa lfas switch dest :
  runs_as G ctl (install_lfa lfas switch dest) (install_lfa_eff G lfas switch dest).
Proof.
  unfold install_lfa, install_lfa_eff. destruct dest as [host nexthop].
  apply runs_bind; [apply runs_get_nexthop_index | intros i].
  destruct (String.eqb host nexthop); [apply runs_ret|].
  apply runs_bind.
  - destruct (lookup2 lfas switch host) as [alt|e]; [apply runs_ret|].
    eapply runs_as_eq;
      [eapply runs_bind; [apply runs_print | intros x; apply runs_ret]|].
    reflexivity.
  - intros alt. apply runs_bind; [apply runs_get_port | intros p]. apply runs_call.
Qed.

Lemma runs_controller_of switch :
  runs_as G ctl (controller_of switch)
    ([], [], if existsb (String.eqb switch) ctl then Ok tt else Raise KeyError).
Proof.
  intros s _ Hc. exists (copies s). unfold controller_of, bind, gets.
  rewrite Hc. unfold eff_out, eff_cmds, eff_res. cbn [fst snd].
  rewrite upd_id. destruct (existsb (String.eqb switch) ctl); reflexivity.
Qed.

Lemma runs_install_switch lfas (sd : Node * list (Node * Node)) :
  runs_as G ctl
    (let (switch, destinations) := sd in
     print (out_updating_nexthops switch) ;;;
     controller_of switch ;;;
     for_each destinations (install_primary switch) ;;;
     print out_installing_lfas ;;;
     print out_lfas_rule ;;;
     for_each destinations (install_lfa lfas switch))
    (install_switch_eff G ctl lfas sd).
Proof.
  unfold install_switch_eff. destruct sd as [switch destinations].
  apply runs_bind; [apply runs_print | intros _].
  apply runs_bind; [apply runs_controller_of | intros _].
  apply runs_bind; [apply runs_for_each; intros x; apply runs_install_primary
                   | intros _].
  apply runs_bind; [apply runs_print | intros _].
  apply runs_bind; [apply runs_print | intros _].
  apply runs_for_each. intros x. apply runs_install_lfa.
Qed.

End RunsInstall.

Lemma runs_install_nexthop_indices G ctl :
  runs_as G ctl install_nexthop_indices (eff_each ctl (install_indices_eff G)).
Proof.
  unfold install_nexthop_indices.
  refine (runs_as_eq
            (@runs_bind _ _ _ _ _ _ (eff_ret ctl)
               (fun cs => eff_each cs (install_indices_eff G))
               (@runs_gets_controllers G ctl) _) _).
  - intros cs. cbv beta. refine (@runs_for_each G ctl _ _ _ _ _). intros switch.
    unfold install_indices_eff.
    apply runs_bind; [apply runs_print | intros _].
    apply runs_bind; [apply runs_print | intros _].
    apply runs_bind; [apply runs_call | intros _].
    refine (runs_as_eq
              (@runs_bind _ _ _ _ _ _ (eff_ret (get_hosts G))
                 (fun hosts => eff_each hosts (install_index_eff G switch)) _ _)
              (eff_bind_ret (get_hosts G)
                 (fun hosts => eff_each hosts (install_index_eff G switch)))).
    + intros s <- _. exists (copies s). unfold gets. simpl. now rewrite upd_id.
    + intros hosts. cbv beta. refine (@runs_for_each G ctl _ _ _ _ _).
      intros host.
      unfold install_index_eff.
      apply runs_bind; [apply runs_get_host_net | intros subnet].
      apply runs_bind; [apply runs_get_nexthop_index | intros i]. apply runs_call.
  - exact (eff_bind_ret ctl (fun cs => eff_each cs (install_indices_eff G))).
Qed.

(** [compute_nexthops] and [compute_lfas] as values. *)
Definition nexthops_eff (G : NetworkGraph) (ctl : list Node)
  (failures : option (list Edge)) : Eff (Dict (list (Node * Node))) :=
  match dijkstra_result G failures with
  | Raise e => ([], [], Raise e)
  | Ok dp =>
      let t := nexthops_table (snd dp) (get_hosts G) ctl [] in
      (fst t, [], snd t)
  end.

Definition lfas_res (set_iter : forall A : Type, list A -> list A)
  (G : NetworkGraph) (nexthops : Dict (list (Node * Node)))
  (failures : option (list Edge)) : Res (Dict (Dict Node)) :=
  dp <~ dijkstra_result G failures ;;
  lfa_switches set_iter G (fst dp) nexthops.

(** [update_nexthops], after it has noted the call, as a value. *)
Definition update_eff (set_iter : forall A : Type, list A -> list A)
  (G : NetworkGraph) (ctl : list Node) (failures : option (list Edge)) : Eff unit :=
  eff_bind (nexthops_eff G ctl failures) (fun nexthops =>
  eff_bind ([], [], lfas_res set_iter G nexthops failures) (fun lfas =>
  eff_each nexthops (install_switch_eff G ctl lfas))).

Lemma runs_compute_nexthops G ctl failures :
  runs_as G ctl (compute_nexthops failures) (nexthops_eff G ctl failures).
Proof.
  intros s HG Hc. destruct (compute_nexthops_run failures s) as [cs Hrun].
  exists cs. rewrite Hrun, HG, Hc. unfold nexthops_eff.
  destruct (dijkstra_result G failures) as [dp|e];
    unfold eff_out, eff_cmds, eff_res; cbn [fst snd].
  - cbv zeta. f_equal. unfold add_out, with_copies, upd. simpl.
    now rewrite app_nil_r.
  - f_equal. unfold with_copies, upd. now rewrite !app_nil_r.
Qed.

Lemma runs_compute_lfas set_iter G ctl nexthops failures :
  runs_as G ctl (compute_lfas set_iter nexthops failures)
    ([], [], lfas_res set_iter G nexthops failures).
Proof.
  intros s HG Hc. destruct (dijkstra_run failures s) as [cs Hrun].
  exists cs. unfold compute_lfas, bind. rewrite Hrun, HG. unfold lfas_res.
  unfold eff_out, eff_cmds, eff_res; cbn [fst snd].
  assert (upd s cs [] [] = with_copies s cs) as ->.
  { unfold with_copies, upd. now rewrite !app_nil_r. }
  destruct (dijkstra_result G failures) as [dp|e]; [|reflexivity].
  unfold gets, lift. simpl. now rewrite HG.
Qed.

Definition recorded (s : State) (failures : option (list Edge)) : State :=
  {| topo := topo s; copies := copies s; controllers := controllers s;
     notification_delay := notification_delay s;
     failed_links := failed_links s; stdout := stdout s; rpc := rpc s;
     clock := clock s; update_calls := update_calls s ++ [failures] |}.

(** [update_nexthops] in one equation. *)
Lemma update_nexthops_run set_iter failures s :
  let e := update_eff set_iter (topo s) (controllers s) failures in
  exists cs,
    update_nexthops set_iter failures s
    = (upd (recorded s failures) cs (eff_out e) (eff_cmds e), eff_res e).
Proof.
  cbv zeta.
  assert (runs_as (topo s) (controllers s)
            (nexthops <- compute_nexthops failures ;;
             lfas <- compute_lfas set_iter nexthops failures ;;
             for_each nexthops (fun sd : Node * list (Node * Node) =>
               let (switch, destinations) := sd in
               print (out_updating_nexthops switch) ;;;
               controller_of switch ;;;
               for_each destinations (install_primary switch) ;;;
               print out_installing_lfas ;;;
               print out_lfas_rule ;;;
               for_each destinations (install_lfa lfas switch)))
            (update_eff set_iter (topo s) (controllers s) failures)) as Hruns.
  { unfold update_eff.
    apply runs_bind; [apply runs_compute_nexthops | intros nexthops].
    apply runs_bind; [apply runs_compute_lfas | intros lfas].
    refine (@runs_for_each _ _ _ _ _ _ _). intros sd. apply runs_install_switch. }
  destruct (Hruns (recorded s failures) eq_refl eq_refl) as [cs Hs].
  exists cs. rewrite <- Hs. reflexivity.
Qed.

(* ================================================================== *)
(** ** The next-hop index of a host *)

Lemma list_index_nth x l i : list_index x l = Ok i -> nth_error l i = Some x.
Proof.
  revert i. induction l as [|y t IH]; simpl; intros i; [discriminate|].
  destruct (String.eqb_spec y x) as [->|_].
  - now intros [= <-].
  - destruct (list_index x t) as [j|]; simpl; [|discriminate].
    intros [= <-]. simpl. now apply IH.
Qed.

Lemma list_index_In x l : In x l -> exists i, list_index x l = Ok i.
Proof.
  induction l as [|y t IH]; simpl; [tauto|]. intros H.
  destruct (String.eqb_spec y x) as [->|Hne]; [eauto|].
  destruct H as [->|H]; [contradiction|].
  destruct (IH H) as [i ->]. simpl. eauto.
Qed.

Lemma list_index_inj x y l i :
  list_index x l = Ok i -> list_index y l = Ok i -> x = y.
Proof.
  intros Hx Hy. apply list_index_nth in Hx, Hy. congruence.
Qed.

Definition leb_true (a b : string) : Prop := String.leb a b = true.

Lemma insert_sorted_perm x l : Permutation (x :: l) (insert_sorted x l).
Proof.
  induction l as [|y t IH]; simpl; [reflexivity|].
  destruct (String.leb x y); [reflexivity|].
  rewrite perm_swap. now constructor.
Qed.

Lemma sorted_perm l : Permutation l (sorted l).
Proof.
  induction l as [|x t IH]; simpl; [constructor|].
  rewrite <- insert_sorted_perm. now constructor.
Qed.

Lemma insert_sorted_Sorted x l :
  Sorted leb_true l -> Sorted leb_true (insert_sorted x l).
Proof.
  induction 1 as [|y t Ht IH Hhd]; simpl; [repeat constructor|].
  destruct (String.leb x y) eqn:E.
  - constructor; [now constructor | constructor; exact E].
  - constructor; [exact IH|].
    assert (leb_true y x) as Hyx.
    { destruct (String.leb_total x y) as [H|H]; [congruence | exact H]. }
    destruct t as [|z t']; simpl; [now constructor|].
    destruct (String.leb x z); constructor; [exact Hyx|].
    now inversion Hhd.
Qed.

Lemma sorted_Sorted l : Sorted leb_true (sorted l).
Proof.
  induction l as [|x t IH]; simpl; [constructor | now apply insert_sorted_Sorted].
Qed.

(** What [install_nexthop_indices] sends to a switch: the table is
    cleared, and an entry maps the subnet of a host to the index of that
    host. *)
Definition index_entry (G : NetworkGraph) (switch : Node) (c : Cmd) : Prop :=
  match c with
  | table_clear sw table => sw = switch /\ table = "ipv4_lpm"
  | table_add sw table action keys params =>
      sw = switch /\ table = "ipv4_lpm" /\ action = "read_port" /\
      exists host subnet i,
        In host (get_hosts G) /\ host_gateway_ip G host = Ok subnet /\
        host_index G host = Ok i /\ keys = [subnet] /\ params = [str i]
  | register_write _ _ _ _ => False
  end.

(** The write of [primaryNH] for a recorded pair [(host, nexthop)] of a
    switch: at the index of the host, the port of the switch towards the
    next hop. *)
Definition primary_write (G : NetworkGraph) (switch : Node) (dest : Node * Node)
  (c : Cmd) : Prop :=
  exists i p,
    host_index G (fst dest) = Ok i /\
    node_to_node_port_num G switch (snd dest) = Ok p /\
    c = register_write switch "primaryNH" i p.

(** The backup next hop of a pair: the alternate of [lfas] when there is
    one, else the next hop itself. *)
Definition backup_of (lfas : Dict (Dict Node)) (switch : Node)
  (dest : Node * Node) : Node :=
  match lookup2 lfas switch (fst dest) with
  | Ok alt => alt
  | Raise _ => snd dest
  end.

(** The write of [alternativeNH] for a recorded pair whose next hop is not
    the host: at the index of the host, the port of the switch towards the
    backup next hop. *)
Definition alternative_write (G : NetworkGraph) (lfas : Dict (Dict Node))
  (switch : Node) (dest : Node * Node) (c : Cmd) : Prop :=
  fst dest <> snd dest /\
  exists i p,
    host_index G (fst dest) = Ok i /\
    node_to_node_port_num G switch (backup_of lfas switch dest) = Ok p /\
    c = register_write switch "alternativeNH" i p.

(** What [update_nexthops] sends: one of the two writes of a pair recorded
    for a switch. *)
Definition index_write (G : NetworkGraph) (nexthops : Dict (list (Node * Node)))
  (lfas : Dict (Dict Node)) (c : Cmd) : Prop :=
  exists switch dests dest,
    In (switch, dests) nexthops /\ In dest dests /\
    (primary_write G switch dest c \/ alternative_write G lfas switch dest c).

Lemma install_primary_cmds G switch dest c :
  In c (eff_cmds (install_primary_eff G switch dest)) ->
  exists i p, host_index G (fst dest) = Ok i /\
              node_to_node_port_num G switch (snd dest) = Ok p /\
              c = register_write switch "primaryNH" i p.
Proof.
  unfold install_primary_eff. destruct dest as [host nexthop]. simpl.
  destruct (host_index G host) as [i|]; simpl; [|intros []].
  destruct (node_to_node_port_num G switch nexthop) as [p|]; simpl; [|intros []].
  intros [<-|[]]. eauto.
Qed.

Lemma install_lfa_cmds G lfas switch dest c :
  In c (eff_cmds (install_lfa_eff G lfas switch dest)) ->
  exists i p, host_index G (fst dest) = Ok i /\ fst dest <> snd dest /\
              c = register_write switch "alternativeNH" i p.
Proof.
  unfold install_lfa_eff. destruct dest as [host nexthop]. simpl.
  destruct (host_index G host) as [i|]; simpl; [|intros []].
  destruct (String.eqb_spec host nexthop) as [->|Hne]; simpl; [intros []|].
  destruct (lookup2 lfas switch host) as [alt|e]; simpl.
  - destruct (node_to_node_port_num G switch alt) as [p|]; simpl; [|intros []].
    intros [<-|[]]. eauto.
  - destruct (node_to_node_port_num G switch nexthop) as [p|]; simpl; [|intros []].
    intros [<-|[]]. eauto.
Qed.

(** A call sent by the loop for one switch is a write of one of its
    destinations. *)
Lemma install_switch_cmds G ctl lfas switch dests c :
  In c (eff_cmds (install_switch_eff G ctl lfas (switch, dests))) ->
  exists dest i p, In dest dests /\ host_index G (fst dest) = Ok i /\
    (c = register_write switch "primaryNH" i p \/
     (fst dest <> snd dest /\ c = register_write switch "alternativeNH" i p)).
Proof.
  unfold install_switch_eff. intros H.
  apply eff_bind_cmds in H. destruct H as [[]|(_ & _ & H)].
  apply eff_bind_cmds in H. destruct H as [[]|(_ & _ & H)].
  apply eff_bind_cmds in H. destruct H as [H|(_ & _ & H)].
  - apply eff_each_cmds in H. destruct H as (dest & Hd & H).
    apply install_primary_cmds in H. destruct H as (i & p & Hi & _ & ->).
    exists dest, i, p. auto.
  - apply eff_bind_cmds in H. destruct H as [[]|(_ & _ & H)].
    apply eff_bind_cmds in H. destruct H as [[]|(_ & _ & H)].
    apply eff_each_cmds in H. destruct H as (dest & Hd & H).
    apply install_lfa_cmds in H. destruct H as (i & p & Hi & Hne & ->).
    exists dest, i, p. auto.
Qed.

Lemma update_eff_cmds set_iter G ctl failures c :
  In c (eff_cmds (update_eff set_iter G ctl failures)) ->
  exists nexthops lfas switch dests,
    eff_res (nexthops_eff G ctl failures) = Ok nexthops /\
    lfas_res set_iter G nexthops failures = Ok lfas /\
    In (switch, dests) nexthops /\
    In c (eff_cmds (install_switch_eff G ctl lfas (switch, dests))).
Proof.
  unfold update_eff. intros H.
  apply eff_bind_cmds in H. destruct H as [H|(nexthops & Hn & H)].
  { unfold nexthops_eff, eff_cmds in H.
    destruct (dijkstra_result G failures); destruct H. }
  apply eff_bind_cmds in H. destruct H as [[]|(lfas & Hl & H)].
  apply eff_each_cmds in H. destruct H as ([switch dests] & Hin & H).
  exists nexthops, lfas, switch, dests. auto.
Qed.

Lemma install_indices_cmds G switch c :
  In c (eff_cmds (install_indices_eff G switch)) -> index_entry G switch c.
Proof.
  unfold install_indices_eff. intros H.
  apply eff_bind_cmds in H. destruct H as [[]|(_ & _ & H)].
  apply eff_bind_cmds in H. destruct H as [[]|(_ & _ & H)].
  apply eff_bind_cmds in H. destruct H as [[<-|[]]|(_ & _ & H)];
    [simpl; auto|].
  apply eff_each_cmds in H. destruct H as (host & Hh & H).
  unfold install_index_eff in H.
  apply eff_bind_cmds in H. destruct H as [[]|(subnet & Hs & H)].
  apply eff_bind_cmds in H. destruct H as [[]|(i & Hi & [<-|[]])].
  simpl. split; [reflexivity|]. split; [reflexivity|]. split; [reflexivity|].
  exists host, subnet, i. auto.
Qed.

(* ================================================================== *)
(** ** The backup next hop *)

Lemma nodup_keys_In_eq {V} (d : Dict V) k v1 v2 :
  NoDup (map fst d) -> In (k, v1) d -> In (k, v2) d -> v1 = v2.
Proof.
  induction d as [|[a b] t IH]; simpl; [tauto|].
  intros Hnd H1 H2. inversion Hnd as [|? ? Hni Ht]; subst.
  destruct H1 as [E1|H1], H2 as [E2|H2].
  - congruence.
  - injection E1 as -> ->. exfalso. apply Hni.
    change k with (fst (k, v2)). now apply in_map.
  - injection E2 as -> ->. exfalso. apply Hni.
    change k with (fst (k, v1)). now apply in_map.
  - now apply IH.
Qed.

Lemma nexthops_table_keys P hosts switches : forall acc results,
  NoDup (dict_keys acc) ->
  snd (nexthops_table P hosts switches acc) = Ok results ->
  NoDup (dict_keys results).
Proof.
  induction switches as [|x t IH]; cbn [nexthops_table]; intros acc results Hnd.
  - cbn. now intros [= <-].
  - destruct (nexthops_row P x hosts []) as [o [rowx|e]]; cbn [snd]; [|discriminate].
    destruct (nexthops_table P hosts t (dict_set acc x rowx)) as [o' r] eqn:Et.
    cbn [snd]. intros ->. apply (IH (dict_set acc x rowx)).
    + now apply dict_set_keys_nodup.
    + now rewrite Et.
Qed.

(** An alternate that [compute_lfas] records is one of the neighbours it
    iterated over. *)
Section LfaMember.
Variable set_iter : forall A : Type, list A -> list A.
Hypothesis set_iter_sub : forall A (l : list A) x, In x (set_iter l) -> In x l.
Variable D : DistTable.

Lemma lfa_round_member (Q : Node -> Prop) switch host alternate nl row nl' row' :
  Q alternate ->
  (forall a, In a nl -> Q (fst a)) ->
  (forall h alt, In (h, alt) row -> Q alt) ->
  lfa_round D switch host alternate (nl, row) = Ok (nl', row') ->
  (forall a, In a nl' -> Q (fst a)) /\ (forall h alt, In (h, alt) row' -> Q alt).
Proof.
  intros HQ Hnl Hrow. unfold lfa_round.
  destruct (lookup2 D alternate host) as [dah|]; simpl; [|discriminate].
  destruct (lookup2 D alternate switch) as [das|]; simpl; [|discriminate].
  destruct (lookup2 D switch host) as [dsh|]; simpl; [|discriminate].
  assert (forall l, (if dah <? das + dsh
                     then dsa <~ lookup2 D switch alternate ;;
                          dah' <~ Ok dah ;;
                          Ok (nl ++ [(alternate, dsa + dah')])
                     else Ok nl) = Ok l ->
                    forall a, In a l -> Q (fst a)) as Hnl'.
  { intros l. destruct (dah <? das + dsh).
    - destruct (lookup2 D switch alternate) as [dsa|]; simpl; [|discriminate].
      intros [= <-] a Ha. apply in_app_or in Ha.
      destruct Ha as [Ha|[<-|[]]]; [now apply Hnl | exact HQ].
    - intros [= <-]. exact Hnl. }
  destruct (if dah <? das + dsh then _ else _) as [l|]; simpl; [|discriminate].
  specialize (Hnl' l eq_refl). destruct l as [|x t].
  - intros [= <- <-]. split; [exact Hnl' | exact Hrow].
  - destruct (py_min (x :: t)) as [m|] eqn:Em; simpl; [|discriminate].
    intros [= <- <-]. split; [exact Hnl'|].
    intros h alt Hin. apply dict_set_In in Hin.
    destruct Hin as [[_ ->]|Hin]; [|eapply Hrow; eauto].
    apply Hnl'. now apply py_min_In.
Qed.

Lemma lfa_destination_member connected switch dest row row' :
  (forall h alt, In (h, alt) row -> In alt connected) ->
  lfa_destination set_iter D switch connected dest row = Ok row' ->
  forall h alt, In (h, alt) row' -> In alt connected.
Proof.
  intros Hrow. unfold lfa_destination. destruct dest as [host nexthop].
  destruct (String.eqb nexthop host); [now intros [= <-]|].
  destruct (res_fold _ _ _) as [[nl r]|] eqn:E; simpl; [|discriminate].
  intros [= <-].
  refine (proj2 (res_fold_inv
            (fun v => (forall a, In a (fst v) -> In (fst a) connected) /\
                      (forall h alt, In (h, alt) (snd v) -> In alt connected))
            _ _ _ _ _ E)).
  - split; [intros a [] | exact Hrow].
  - intros alternate [nl0 r0] [nl1 r1] Hin [H1 H2] Hr. simpl in *.
    apply (@lfa_round_member (fun a => In a connected) switch host alternate
             nl0 r0 nl1 r1); [|exact H1 | exact H2 | exact Hr].
    apply set_iter_sub in Hin. apply filter_In in Hin. tauto.
Qed.

Lemma lfa_switches_member G nexthops lfas :
  lfa_switches set_iter G D nexthops = Ok lfas ->
  forall switch row, In (switch, row) lfas ->
  forall h alt, In (h, alt) row -> has_edge G switch alt.
Proof.
  unfold lfa_switches. intros H.
  refine (res_fold_inv
            (fun l => forall switch row, In (switch, row) l ->
                      forall h alt, In (h, alt) row -> has_edge G switch alt)
            _ _ _ _ _ H).
  - intros switch row [].
  - intros [sw dests] a a' _ Ha. unfold get_p4switches_connected_to.
    destruct (dict_get (g_adj G) sw) as [nbrs|] eqn:En; simpl; [|discriminate].
    destruct (res_fold dests _ _) as [row|] eqn:E; simpl; [|discriminate].
    intros [= <-] switch row' Hin. apply dict_set_In in Hin.
    destruct Hin as [[-> ->]|Hin]; [|now apply Ha].
    intros h alt Halt.
    assert (In alt (nodup string_dec (filter (isP4Switch_node G) (dict_keys nbrs))))
      as Hc.
    { refine (res_fold_inv
                (fun r => forall h alt, In (h, alt) r ->
                   In alt (nodup string_dec
                             (filter (isP4Switch_node G) (dict_keys nbrs))))
                _ _ _ _ _ E h alt Halt).
      - intros ? ? [].
      - intros dest r r' _ Hr. now apply lfa_destination_member. }
    apply nodup_In, filter_In in Hc. destruct Hc as [Hc _].
    unfold dict_keys in Hc. apply in_map_iff in Hc.
    destruct Hc as ([k e] & Hk & Hke). simpl in Hk. subst k.
    destruct (dict_In_get _ _ _ Hke) as [e' He']. exists nbrs, e'. auto.
Qed.

End LfaMember.

Lemma eff_each_total {A} (l : list A) f :
  (forall x, In x l -> eff_res (f x) = Ok tt) -> eff_res (eff_each l f) = Ok tt.
Proof.
  induction l as [|x t IH]; simpl; intros Hall; [reflexivity|].
  assert (Hx := Hall x (or_introl eq_refl)).
  assert (Ht := IH (fun y Hy => Hall y (or_intror Hy))).
  unfold eff_bind, eff_res in *. destruct (f x) as [[o c] r]. simpl in Hx. subst r.
  destruct (eff_each t f) as [[o' c'] r']. exact Ht.
Qed.

Lemma port_of_link G a b :
  has_edge G a b -> exists p, node_to_node_port_num G a b = Ok p.
Proof.
  intros (nbrs & e & Ha & Hb). unfold node_to_node_port_num.
  rewrite Ha, Hb. eauto.
Qed.

Lemma eff_bind_res {A B} (x : Eff A) (k : A -> Eff B) a :
  eff_res x = Ok a -> eff_res (eff_bind x k) = eff_res (k a).
Proof.
  unfold eff_res, eff_bind. destruct x as [[o c] r]. simpl. intros ->.
  now destruct (k a) as [[o' c'] r'].
Qed.

Lemma filter_keys_nodup {V} (f : Node * V -> bool) (d : Dict V) :
  NoDup (dict_keys d) -> NoDup (dict_keys (filter f d)).
Proof.
  unfold dict_keys. induction d as [|[k v] t IH]; simpl; intros Hnd; [constructor|].
  inversion Hnd as [|? ? Hni Ht]; subst. destruct (f (k, v)); simpl; [|auto].
  constructor; [|auto]. intros Hin. apply Hni.
  apply in_map_iff in Hin. destruct Hin as (x & Hx & Hin).
  apply filter_In in Hin. apply in_map_iff. exists x. tauto.
Qed.

Lemma wf_hosts_nodup G : wf_graph G -> NoDup (get_hosts G).
Proof. intros Hwf. apply filter_keys_nodup, Hwf. Qed.

(** What holds of a pair recorded by [compute_nexthops]. *)
Lemma recorded_pair G ctl failures dp nexthops switch dests host nexthop :
  wf_graph G ->
  dijkstra_result G failures = Ok dp ->
  snd (nexthops_table (snd dp) (get_hosts G) ctl []) = Ok nexthops ->
  In (switch, dests) nexthops -> In (host, nexthop) dests ->
  In switch ctl /\ In host (get_hosts G) /\ has_edge G switch nexthop /\
  (NoDup (get_hosts G) -> NoDup (map fst dests)).
Proof.
  intros Hwf HD Ht Hsw Hd. destruct dp as [D P]. simpl in Ht.
  destruct (nexthops_table_In _ _ _ _ Ht _ _ Hsw) as [[]|[Hctl Hrow]].
  destruct (nexthops_row_sound _ _ _ _ Hrow _ _ Hd)
    as [[]|(Hh & path & Hp & Hn)].
  destruct (dijkstra_result_walk _ _ HD) as (G' & HG & Hw).
  specialize (Hw _ _ _ Hp).
  assert (He := walk_consecutive Hw _ (walk_head Hw) Hn).
  apply (without_failures_sub _ Hwf HG) in He.
  repeat (split; [assumption|]).
  intros Hnd. destruct (nexthops_row_keys _ _ _ _ Hrow) as (hs & Hm & _ & Hnd').
  rewrite Hm. simpl. auto.
Qed.

Lemma host_index_defined G host :
  In host (get_hosts G) -> exists i, host_index G host = Ok i.
Proof.
  intros Hin. apply list_index_In. now apply (Permutation_in _ (sorted_perm _)).
Qed.

(** The two register loops of one switch, when they return. *)
Lemma install_switch_parts G ctl lfas switch dests :
  eff_res (install_switch_eff G ctl lfas (switch, dests)) = Ok tt ->
  eff_res (eff_each dests (install_lfa_eff G lfas switch)) = Ok tt /\
  incl (eff_out (eff_each dests (install_lfa_eff G lfas switch)))
       (eff_out (install_switch_eff G ctl lfas (switch, dests))) /\
  incl (eff_cmds (eff_each dests (install_lfa_eff G lfas switch)))
       (eff_cmds (install_switch_eff G ctl lfas (switch, dests))).
Proof.
  unfold install_switch_eff. intros H.
  apply eff_bind_ok in H. destruct H as ([] & _ & H & -> & ->).
  apply eff_bind_ok in H. destruct H as ([] & _ & H & -> & ->).
  apply eff_bind_ok in H. destruct H as ([] & _ & H & -> & ->).
  apply eff_bind_ok in H. destruct H as ([] & _ & H & -> & ->).
  apply eff_bind_ok in H. destruct H as ([] & _ & H & -> & ->).
  split; [exact H|].
  split; repeat apply incl_appr; apply incl_refl.
Qed.

Lemma install_switch_total G ctl lfas switch dests :
  In switch ctl ->
  (forall dest, In dest dests ->
     eff_res (install_primary_eff G switch dest) = Ok tt /\
     eff_res (install_lfa_eff G lfas switch dest) = Ok tt) ->
  eff_res (install_switch_eff G ctl lfas (switch, dests)) = Ok tt.
Proof.
  intros Hsw Hall. unfold install_switch_eff.
  rewrite (@eff_bind_res _ _ _ _ tt) by reflexivity.
  rewrite (@eff_bind_res _ _ _ _ tt).
  2:{ unfold eff_res. simpl.
      assert (existsb (String.eqb switch) ctl = true) as ->; [|reflexivity].
      apply existsb_exists. exists switch. split; [exact Hsw|].
      apply String.eqb_refl. }
  rewrite (@eff_bind_res _ _ _ _ tt).
  2:{ apply eff_each_total. intros dest Hd. now apply Hall. }
  rewrite (@eff_bind_res _ _ _ _ tt) by reflexivity.
  rewrite (@eff_bind_res _ _ _ _ tt) by reflexivity.
  apply eff_each_total. intros dest Hd. now apply Hall.
Qed.

Lemma update_eff_eq set_iter G ctl failures dp nexthops lfas :
  dijkstra_result G failures = Ok dp ->
  snd (nexthops_table (snd dp) (get_hosts G) ctl []) = Ok nexthops ->
  lfa_switches set_iter G (fst dp) nexthops = Ok lfas ->
  eff_res (update_eff set_iter G ctl failures)
  = eff_res (eff_each nexthops (install_switch_eff G ctl lfas)) /\
  eff_cmds (update_eff set_iter G ctl failures)
  = eff_cmds (eff_each nexthops (install_switch_eff G ctl lfas)) /\
  eff_out (update_eff set_iter G ctl failures)
  = fst (nexthops_table (snd dp) (get_hosts G) ctl [])
    ++ eff_out (eff_each nexthops (install_switch_eff G ctl lfas)).
Proof.
  intros HD Ht Hl. unfold update_eff, nexthops_eff, lfas_res. rewrite HD.
  cbn [res_bind]. destruct (nexthops_table _ _ _ _) as [o r]. simpl in Ht.
  subst r. cbn [fst snd eff_bind]. rewrite Hl. cbn [eff_bind].
  destruct (eff_each nexthops (install_switch_eff G ctl lfas)) as [[o' c'] r'].
  unfold eff_res, eff_cmds, eff_out. simpl. auto.
Qed.

(** C8. When [compute_nexthops] and [compute_lfas] have returned their
    tables, [update_nexthops] returns too. For a recorded pair whose next hop
    is not the host and for which there is no alternate, it prints the
    warning and writes the port of the primary next hop into [alternativeNH]
    at the index of the host; for a recorded pair whose next hop is the host
    it writes nothing into [alternativeNH] at the index of that host on that
    switch. (The topology is a graph as networkx keeps it; the set iteration
    yields elements of the set.) *)
Theorem backup_fallback (set_iter : forall A : Type, list A -> list A)
  (failures : option (list Edge)) (s : State)
  (nexthops : Dict (list (Node * Node))) (lfas : Dict (Dict Node)) :
  (forall A (l : list A) x, In x (set_iter A l) -> In x l) ->
  wf_graph (topo s) ->
  snd (compute_nexthops failures s) = Ok nexthops ->
  snd (compute_lfas set_iter nexthops failures s) = Ok lfas ->
  exists out cmds,
    snd (update_nexthops set_iter failures s) = Ok tt /\
    stdout (fst (update_nexthops set_iter failures s)) = stdout s ++ out /\
    rpc (fst (update_nexthops set_iter failures s)) = rpc s ++ cmds /\
    forall switch dests host nexthop,
      dict_get nexthops switch = Some dests -> In (host, nexthop) dests ->
      exists i,
        host_index (topo s) host = Ok i /\
        (nexthop <> host -> (forall alt, lookup2 lfas switch host <> Ok alt) ->
         exists p,
           node_to_node_port_num (topo s) switch nexthop = Ok p /\
           In (register_write switch "alternativeNH" i p) cmds /\
           In (out_no_lfa switch host nexthop) out) /\
        (nexthop = host ->
         forall p, ~ In (register_write switch "alternativeNH" i p) cmds).
Proof.
  intros Hsub Hwf Hnh Hl.
  assert (Hnd : NoDup (get_hosts (topo s))) by now apply wf_hosts_nodup.
  rewrite compute_nexthops_snd in Hnh. rewrite compute_lfas_snd in Hl.
  destruct (dijkstra_result (topo s) failures) as [dp|] eqn:HD;
    cbn [res_bind] in Hnh, Hl; [|discriminate].
  destruct (update_eff_eq set_iter (topo s) (controllers s) failures HD Hnh Hl)
    as (Hres & Hcmds & Hout).
  destruct (update_nexthops_run set_iter failures s) as [cs Hrun].
  cbv zeta in Hrun.
  (* every loop round returns *)
  assert (Hpair : forall switch dests host nexthop,
            In (switch, dests) nexthops -> In (host, nexthop) dests ->
            exists i p,
              host_index (topo s) host = Ok i /\
              node_to_node_port_num (topo s) switch nexthop = Ok p /\
              eff_res (install_primary_eff (topo s) switch (host, nexthop)) = Ok tt /\
              eff_res (install_lfa_eff (topo s) lfas switch (host, nexthop)) = Ok tt).
  { intros switch dests host nexthop Hsw Hd.
    destruct (@recorded_pair _ _ _ _ _ _ _ _ _ Hwf HD Hnh Hsw Hd) as (_ & Hh & He & _).
    destruct (host_index_defined _ _ Hh) as [i Hi].
    destruct (port_of_link He) as [p Hp].
    exists i, p. split; [exact Hi|]. split; [exact Hp|].
    unfold install_primary_eff, install_lfa_eff, eff_res, eff_bind, eff_ret.
    rewrite Hi, Hp. simpl. split; [reflexivity|].
    destruct (String.eqb host nexthop); [reflexivity|].
    destruct (lookup2 lfas switch host) as [alt|e] eqn:El; simpl.
    - destruct (lookup2_In _ _ _ El) as (row & Hrow & Halt).
      assert (Ha := lfa_switches_member set_iter Hsub _ _ _ Hl _ _ Hrow _ _ Halt).
      destruct (port_of_link Ha) as [q ->]. reflexivity.
    - rewrite Hp. reflexivity. }
  assert (Htotal : eff_res (eff_each nexthops
                              (install_switch_eff (topo s) (controllers s) lfas))
                   = Ok tt).
  { apply eff_each_total. intros [switch dests] Hsw.
    apply install_switch_total.
    - destruct dests as [|[h n] t].
      + destruct dp as [D P]. simpl in Hnh.
        destruct (nexthops_table_In _ _ _ _ Hnh _ _ Hsw) as [[]|[H _]]. exact H.
      + now destruct (@recorded_pair _ _ _ _ _ _ _ _ _ Hwf HD Hnh Hsw (or_introl eq_refl)).
    - intros [host nexthop] Hd.
      destruct (Hpair _ _ _ _ Hsw Hd) as (i & p & _ & _ & H1 & H2). auto. }
  exists (eff_out (update_eff set_iter (topo s) (controllers s) failures)),
         (eff_cmds (update_eff set_iter (topo s) (controllers s) failures)).
  rewrite Hrun. cbn [fst snd]. split; [now rewrite Hres|].
  split; [reflexivity|]. split; [reflexivity|].
  intros switch dests host nexthop Hget Hd.
  apply dict_get_In in Hget.
  destruct (Hpair _ _ _ _ Hget Hd) as (i & p & Hi & Hp & _ & Hlfa).
  exists i. split; [exact Hi|]. split.
  - intros Hne Hnone. exists p. split; [exact Hp|].
    destruct (eff_each_ok _ _ Htotal _ Hget) as (Hsres & Hsout & Hscmds).
    destruct (install_switch_parts _ _ _ _ _ Hsres) as (Hlres & Hlout & Hlcmds).
    destruct (eff_each_ok _ _ Hlres _ Hd) as (_ & Hdout & Hdcmds).
    assert (eff_out (install_lfa_eff (topo s) lfas switch (host, nexthop))
            = [out_no_lfa switch host nexthop] /\
            eff_cmds (install_lfa_eff (topo s) lfas switch (host, nexthop))
            = [register_write switch "alternativeNH" i p]) as [Eo Ec].
    { unfold install_lfa_eff, eff_out, eff_cmds, eff_bind, eff_ret.
      rewrite Hi. simpl.
      destruct (String.eqb_spec host nexthop) as [E|_]; [congruence|].
      destruct (lookup2 lfas switch host) as [alt|e] eqn:El;
        [exfalso; exact (Hnone alt eq_refl)|].
      simpl. rewrite Hp. simpl. auto. }
    split.
    + rewrite Hcmds. apply Hscmds, Hlcmds, Hdcmds. rewrite Ec. now left.
    + rewrite Hout. apply in_or_app. right.
      apply Hsout, Hlout, Hdout. rewrite Eo. now left.
  - intros -> p' Hin. rewrite Hcmds in Hin.
    apply eff_each_cmds in Hin. destruct Hin as ([sw' dests'] & Hsw' & Hin).
    apply install_switch_cmds in Hin.
    destruct Hin as ([h' n'] & i' & q & Hd' & Hi' & [Hc|[Hne Hc]]);
      [discriminate Hc|].
    injection Hc as <- <- <-. simpl in Hi', Hne.
    assert (dests' = dests) as ->.
    { refine (@nodup_keys_In_eq _ nexthops switch dests' dests _ Hsw' Hget).
      destruct dp as [D P]. simpl in Hnh.
      refine (@nexthops_table_keys _ _ _ [] nexthops _ Hnh). constructor. }
    assert (h' = host) as -> by exact (list_index_inj _ _ _ Hi' Hi).
    destruct (@recorded_pair _ _ _ _ _ _ _ _ _ Hwf HD Hnh Hget Hd) as (_ & _ & _ & Hrow).
    apply Hne. symmetry.
    exact (@nodup_keys_In_eq _ dests host n' host (Hrow Hnd) Hd' Hd).
Qed.

Lemma backup_fallback_witness :
  exists out cmds,
    snd (update_nexthops insertion_order ring3_failures (initial_state ring3 2))
    = Ok tt /\
    stdout (fst (update_nexthops insertion_order ring3_failures
                   (initial_state ring3 2)))
    = stdout (initial_state ring3 2) ++ out /\
    rpc (fst (update_nexthops insertion_order ring3_failures
                (initial_state ring3 2)))
    = rpc (initial_state ring3 2) ++ cmds /\
    forall switch dests host nexthop,
      dict_get ring3_nexthops switch = Some dests -> In (host, nexthop) dests ->
      exists i,
        host_index (topo (initial_state ring3 2)) host = Ok i /\
        (nexthop <> host ->
         (forall alt, lookup2 ring3_lfas switch host <> Ok alt) ->
         exists p,
           node_to_node_port_num (topo (initial_state ring3 2)) switch nexthop
           = Ok p /\
           In (register_write switch "alternativeNH" i p) cmds /\
           In (out_no_lfa switch host nexthop) out) /\
        (nexthop = host ->
         forall p, ~ In (register_write switch "alternativeNH" i p) cmds).
Proof.
  apply (@backup_fallback insertion_order ring3_failures (initial_state ring3 2)
           ring3_nexthops ring3_lfas).
  - intros A l x H. exact H.
  - exact ring3_wf.
  - vm_compute. reflexivity.
  - vm_compute. reflexivity.
Defined.

(** On the ring with s1-s2 down, s3 has no alternate towards h1 (primary
    s1, port 3): the backup register gets the primary port. Its own host h3
    (index 2) gets no backup. *)
Example backup_fallback_ring3 :
  let s' := fst (update_nexthops insertion_order ring3_failures
                   (initial_state ring3 2)) in
  lookup2 ring3_lfas "s3" "h1" = Raise KeyError /\
  In (register_write "s3" "primaryNH" 0 3) (rpc s') /\
  In (register_write "s3" "alternativeNH" 0 3) (rpc s') /\
  In (out_no_lfa "s3" "h1" "s1") (stdout s') /\
  forall p, ~ In (register_write "s3" "alternativeNH" 2 p) (rpc s').
Proof.
  vm_compute. repeat split; auto 20.
  intros p H. repeat (destruct H as [H|H]; [discriminate H|]). exact H.
Qed.

(* ================================================================== *)
(** ** Loop-free alternates: every candidate is looked at, the cheapest
       is kept *)

Lemma res_fold_prefix_aux {A S} (I : list A -> S -> Prop) (body : A -> S -> Res S)
  l : forall done acc r,
  I done acc ->
  (forall pre x post a a', done ++ l = pre ++ x :: post ->
     I pre a -> body x a = Ok a' -> I (pre ++ [x]) a') ->
  res_fold l acc body = Ok r -> I (done ++ l) r.
Proof.
  induction l as [|x t IH]; simpl; intros done acc r Hacc Hstep.
  - intros [= <-]. now rewrite app_nil_r.
  - destruct (body x acc) as [a'|] eqn:E; simpl; [|discriminate].
    intros H. replace (done ++ x :: t) with ((done ++ [x]) ++ t)
      by (now rewrite <- app_assoc).
    apply (IH (done ++ [x]) a' r); [| |exact H].
    + exact (Hstep done x t acc a' eq_refl Hacc E).
    + intros pre y post a a'' Heq. apply (Hstep pre y post).
      now rewrite <- Heq, <- app_assoc.
Qed.

(** An invariant that knows which elements the loop has been through. *)
Lemma res_fold_prefix {A S} (I : list A -> S -> Prop) (body : A -> S -> Res S)
  l acc r :
  I [] acc ->
  (forall pre x post a a', l = pre ++ x :: post ->
     I pre a -> body x a = Ok a' -> I (pre ++ [x]) a') ->
  res_fold l acc body = Ok r -> I l r.
Proof.
  intros H0 Hstep H. exact (@res_fold_prefix_aux A S I body l [] acc r H0 Hstep H).
Qed.

(** [d(switch, x) + d(x, host)], the cost [compute_lfas] compares. *)
Definition path_cost (D : DistTable) (switch host x : Node) : Res nat :=
  dsx <~ lookup2 D switch x ;;
  dxh <~ lookup2 D x host ;;
  Ok (dsx + dxh).

(** What [compute_lfas] is to record for a host whose primary next hop is
    [nexthop]: nothing when no neighbour other than [nexthop] is loop-free,
    else a loop-free neighbour other than [nexthop] of least cost. *)
Definition lfa_spec (D : DistTable) (switch : Node) (connected : list Node)
  (host nexthop : Node) (o : option Node) : Prop :=
  match o with
  | None =>
      forall c, In c connected -> c <> nexthop -> ~ loop_free D switch host c
  | Some alt =>
      In alt connected /\ alt <> nexthop /\ loop_free D switch host alt /\
      forall c, In c connected -> c <> nexthop -> loop_free D switch host c ->
        exists ta tc, path_cost D switch host alt = Ok ta /\
                      path_cost D switch host c = Ok tc /\ ta <= tc
  end.

Section LfaComplete.
Variable set_iter : forall A : Type, list A -> list A.
Hypothesis set_iter_In : forall A (l : list A) x, In x (set_iter l) <-> In x l.
Variable D : DistTable.

Lemma lfa_round_spec switch host a nl row nl' row' :
  lfa_round D switch host a (nl, row) = Ok (nl', row') ->
  ((loop_free D switch host a /\
    exists t, path_cost D switch host a = Ok t /\ nl' = nl ++ [(a, t)]) \/
   (~ loop_free D switch host a /\ nl' = nl)) /\
  match nl' with
  | [] => row' = row
  | _ :: _ => exists m, py_min nl' = Some m /\ row' = dict_set row host (fst m)
  end.
Proof.
  unfold lfa_round, loop_free, path_cost.
  destruct (lookup2 D a host) as [dah|] eqn:E1; simpl; [|discriminate].
  destruct (lookup2 D a switch) as [das|] eqn:E2; simpl; [|discriminate].
  destruct (lookup2 D switch host) as [dsh|] eqn:E3; simpl; [|discriminate].
  destruct (Nat.ltb_spec dah (das + dsh)) as [Hlt|Hge].
  - destruct (lookup2 D switch a) as [dsa|] eqn:E4; simpl; [|discriminate].
    destruct (nl ++ [(a, dsa + dah)]) as [|x t] eqn:En.
    { destruct nl; discriminate En. }
    destruct (py_min (x :: t)) as [m|] eqn:Em; simpl; [|discriminate].
    intros [= <- <-]. split.
    + left. split; [exists dah, das, dsh; auto|]. exists (dsa + dah). auto.
    + exists m. auto.
  - assert (~ (exists dah0 das0 dsh0 : nat,
                 Ok dah = Ok dah0 /\ Ok das = Ok das0 /\ Ok dsh = Ok dsh0 /\
                 dah0 < das0 + dsh0)) as Hnot.
    { intros (x & y & z & [= <-] & [= <-] & [= <-] & H). lia. }
    cbn [res_bind]. destruct nl as [|x t].
    + intros [= <- <-]. split; [right; auto | reflexivity].
    + destruct (py_min (x :: t)) as [m|] eqn:Em; cbn [of_option res_bind];
        [|intros Hx; discriminate Hx].
      intros [= <- <-]. split; [right; auto|]. exists m. auto.
Qed.

Lemma lfa_destination_spec switch connected host nexthop row0 row' :
  lfa_destination set_iter D switch connected (host, nexthop) row0 = Ok row' ->
  (forall h, h <> host -> dict_get row' h = dict_get row0 h) /\
  (nexthop = host -> row' = row0) /\
  (nexthop <> host -> dict_get row0 host = None ->
   lfa_spec D switch connected host nexthop (dict_get row' host)).
Proof.
  unfold lfa_destination.
  destruct (String.eqb_spec nexthop host) as [->|Hne].
  { intros [= <-]. split; [reflexivity|]. split; [reflexivity | congruence]. }
  set (others := filter (fun n => negb (String.eqb n nexthop)) connected).
  destruct (res_fold (set_iter others) ([], row0) (lfa_round D switch host))
    as [[nl row]|] eqn:E; simpl; [|discriminate].
  intros [= <-].
  assert (Hcand : forall c, In c (set_iter others) <-> In c connected /\ c <> nexthop).
  { intros c. rewrite (set_iter_In others c). unfold others. rewrite filter_In.
    destruct (String.eqb_spec c nexthop); simpl; intuition congruence. }
  pose (I := fun (pre : list Node) (v : list (Node * nat) * Dict Node) =>
    (forall a t, In (a, t) (fst v) ->
       In a pre /\ loop_free D switch host a /\ path_cost D switch host a = Ok t) /\
    (forall a, In a pre -> loop_free D switch host a -> exists t, In (a, t) (fst v)) /\
    (forall h, h <> host -> dict_get (snd v) h = dict_get row0 h) /\
    match fst v with
    | [] => snd v = row0
    | _ :: _ => exists m, py_min (fst v) = Some m /\
                          dict_get (snd v) host = Some (fst m)
    end).
  assert (HI : I (set_iter others) (nl, row)).
  { refine (@res_fold_prefix _ _ I _ _ _ _ _ _ E).
    - unfold I. simpl. split; [intros a t []|]. split; [intros a []|].
      split; reflexivity.
    - intros pre a post [nl0 r0] [nl1 r1] _ (H1 & H2 & H3 & H4) Hr.
      destruct (lfa_round_spec _ _ _ _ _ Hr) as [Hnl Hrow]. unfold I. simpl in *.
      assert (Hrow3 : forall h, h <> host -> dict_get r1 h = dict_get row0 h).
      { intros h Hh. destruct nl1 as [|x t].
        - subst r1. now apply H3.
        - destruct Hrow as (m & _ & ->). rewrite dict_get_set.
          destruct (String.eqb_spec host h); [congruence | now apply H3]. }
      assert (Hrow4 : match nl1 with
                      | [] => r1 = row0
                      | _ :: _ => exists m, py_min nl1 = Some m /\
                                            dict_get r1 host = Some (fst m)
                      end).
      { destruct nl1 as [|x t].
        - subst r1. destruct Hnl as [(_ & t & _ & Hn)|[_ Hn]].
          + destruct nl0; discriminate Hn.
          + subst nl0. exact H4.
        - destruct Hrow as (m & Hm & ->). exists m. split; [exact Hm|].
          now rewrite dict_get_set, String.eqb_refl. }
      split; [|split; [|split; [exact Hrow3 | exact Hrow4]]].
      + intros b t Hin. destruct Hnl as [(Hlf & t0 & Hc & ->)|[_ ->]].
        * apply in_app_or in Hin. destruct Hin as [Hin|[[= <- <-]|[]]].
          -- destruct (H1 _ _ Hin) as (Hp & Hl & Hcost).
             split; [apply in_or_app; now left | auto].
          -- split; [apply in_or_app; right; now left | auto].
        * destruct (H1 _ _ Hin) as (Hp & Hl & Hcost).
          split; [apply in_or_app; now left | auto].
      + intros b Hin Hlf. apply in_app_or in Hin.
        destruct Hnl as [(_ & t0 & _ & ->)|[Hn ->]].
        * destruct Hin as [Hin|[<-|[]]].
          -- destruct (H2 _ Hin Hlf) as [t Ht]. exists t. apply in_or_app. now left.
          -- exists t0. apply in_or_app. right. now left.
        * destruct Hin as [Hin|[<-|[]]]; [now apply H2 | contradiction]. }
  destruct HI as (H1 & H2 & H3 & H4). simpl in *.
  split; [exact H3|]. split; [congruence|]. intros _ Hnone.
  destruct nl as [|x t].
  - subst row. rewrite Hnone. simpl. intros c Hc Hcn Hlf.
    destruct (H2 c (proj2 (Hcand c) (conj Hc Hcn)) Hlf) as [t []].
  - destruct H4 as (m & Hm & ->). simpl.
    assert (In (fst m, snd m) (x :: t)) as Hin.
    { rewrite <- surjective_pairing. now apply py_min_In. }
    destruct (H1 _ _ Hin) as (Hp & Hlf & Hcost).
    apply Hcand in Hp. destruct Hp as [Hp1 Hp2].
    repeat (split; [assumption|]).
    intros c Hc Hcn Hclf.
    destruct (H2 c (proj2 (Hcand c) (conj Hc Hcn)) Hclf) as [tc Htc].
    exists (snd m), tc. split; [exact Hcost|]. split.
    + now destruct (H1 _ _ Htc) as (_ & _ & ?).
    + exact (py_min_least _ Hm _ Htc).
Qed.

End LfaComplete.

Lemma nodup_keys_split {V} (pre : Dict V) x post :
  NoDup (map fst (pre ++ x :: post)) -> ~ In (fst x) (map fst pre).
Proof.
  rewrite map_app. simpl. intros H Hin.
  apply NoDup_remove_2 in H. apply H. apply in_or_app. now left.
Qed.

Section LfaTable.
Variable set_iter : forall A : Type, list A -> list A.
Hypothesis set_iter_In : forall A (l : list A) x, In x (set_iter l) <-> In x l.
Variable D : DistTable.

(** The loop over the destinations of one switch. *)
Lemma lfa_destinations_spec switch connected dests row :
  NoDup (map fst dests) ->
  res_fold dests [] (lfa_destination set_iter D switch connected) = Ok row ->
  forall host nexthop, In (host, nexthop) dests -> nexthop <> host ->
    lfa_spec D switch connected host nexthop (dict_get row host).
Proof.
  intros Hnd E.
  pose (I := fun (pre : list (Node * Node)) (r : Dict Node) =>
    (forall h, ~ In h (map fst pre) -> dict_get r h = None) /\
    (forall host nexthop, In (host, nexthop) pre -> nexthop <> host ->
       lfa_spec D switch connected host nexthop (dict_get r host))).
  assert (HI : I dests row).
  { refine (@res_fold_prefix _ _ I _ _ _ _ _ _ E).
    - split; [reflexivity | intros ? ? []].
    - intros pre [host nexthop] post r r' Heq [H1 H2] Hr.
      rewrite Heq in Hnd. apply nodup_keys_split in Hnd. simpl in Hnd.
      destruct (@lfa_destination_spec set_iter set_iter_In D _ _ _ _ _ _ Hr)
        as (Hother & _ & Hspec).
      split.
      + intros h Hh. rewrite map_app in Hh. simpl in Hh.
        rewrite Hother; [apply H1|]; intros H; apply Hh, in_or_app; auto.
        right. now left.
      + intros h nh Hin Hne. apply in_app_or in Hin.
        destruct Hin as [Hin|[[= <- <-]|[]]].
        * rewrite Hother; [now apply H2|].
          intros ->. apply Hnd. change host with (fst (host, nh)).
          now apply in_map.
        * apply Hspec; [exact Hne | now apply H1]. }
  exact (proj2 HI).
Qed.

(** The loop over the switches. *)
Lemma lfa_switches_rows G nexthops lfas :
  NoDup (map fst nexthops) ->
  lfa_switches set_iter G D nexthops = Ok lfas ->
  forall switch dests, In (switch, dests) nexthops ->
  exists nbrs row,
    get_p4switches_connected_to G switch = Ok nbrs /\
    dict_get lfas switch = Some row /\
    res_fold dests [] (lfa_destination set_iter D switch (nodup string_dec nbrs))
    = Ok row.
Proof.
  intros Hnd E. unfold lfa_switches in E.
  pose (I := fun (pre : Dict (list (Node * Node))) (l : Dict (Dict Node)) =>
    forall switch dests, In (switch, dests) pre ->
    exists nbrs row,
      get_p4switches_connected_to G switch = Ok nbrs /\
      dict_get l switch = Some row /\
      res_fold dests [] (lfa_destination set_iter D switch (nodup string_dec nbrs))
      = Ok row).
  refine (@res_fold_prefix _ _ I _ _ _ _ _ _ E).
  - intros ? ? [].
  - intros pre [sw dests] post l l' Heq HI.
    rewrite Heq in Hnd. apply nodup_keys_split in Hnd. simpl in Hnd.
    destruct (get_p4switches_connected_to G sw) as [nbrs|] eqn:En; simpl;
      [|discriminate].
    destruct (res_fold dests _ _) as [row|] eqn:Er; simpl; [|discriminate].
    intros [= <-] switch ds Hin. apply in_app_or in Hin.
    destruct Hin as [Hin|[[= <- <-]|[]]].
    + destruct (HI _ _ Hin) as (nb & r & H1 & H2 & H3).
      exists nb, r. split; [exact H1|]. split; [|exact H3].
      rewrite dict_get_set. destruct (String.eqb_spec sw switch) as [->|_];
        [|exact H2].
      exfalso. apply Hnd. change switch with (fst (switch, ds)). now apply in_map.
    + exists nbrs, row. split; [exact En|]. split; [|exact Er].
      now rewrite dict_get_set, String.eqb_refl.
Qed.

End LfaTable.

(** X1 (with C2). When [compute_lfas] returns a table, it has looked at every
    neighbour:
    for a switch and a host whose primary next hop is not the host, the
    table has an alternate exactly when some P4 neighbour of the switch other
    than the primary next hop is loop-free, and that alternate is then a
    loop-free neighbour other than the primary of least cost
    [d(switch, alt) + d(alt, host)]. The [continue] inside the loop over the
    neighbours does not cut the search short. *)
Theorem compute_lfas_full_scan (set_iter : forall A : Type, list A -> list A)
  (nexthops : Dict (list (Node * Node))) (failures : option (list Edge))
  (s : State) (D : DistTable) (P : PathTable) (lfas : Dict (Dict Node)) :
  (forall A (l : list A) x, In x (set_iter A l) <-> In x l) ->
  NoDup (map fst nexthops) ->
  snd (dijkstra failures s) = Ok (D, P) ->
  snd (compute_lfas set_iter nexthops failures s) = Ok lfas ->
  forall switch dests host nexthop,
    dict_get nexthops switch = Some dests -> NoDup (map fst dests) ->
    In (host, nexthop) dests -> nexthop <> host ->
    exists nbrs,
      get_p4switches_connected_to (topo s) switch = Ok nbrs /\
      ((exists alt, lookup2 lfas switch host = Ok alt) <->
       (exists c, In c nbrs /\ c <> nexthop /\ loop_free D switch host c)) /\
      forall alt, lookup2 lfas switch host = Ok alt ->
        In alt nbrs /\ alt <> nexthop /\ loop_free D switch host alt /\
        forall c, In c nbrs -> c <> nexthop -> loop_free D switch host c ->
          exists ta tc, path_cost D switch host alt = Ok ta /\
                        path_cost D switch host c = Ok tc /\ ta <= tc.
Proof.
  intros Hiter Hkeys. rewrite dijkstra_snd, compute_lfas_snd. intros ->.
  cbn [res_bind fst]. intros Hl switch dests host nexthop Hget Hnd Hin Hne.
  apply dict_get_In in Hget.
  destruct (@lfa_switches_rows set_iter D _ _ _ Hkeys Hl _ _ Hget)
    as (nbrs & row & Hnb & Hrow & Hfold).
  assert (Hspec := @lfa_destinations_spec set_iter Hiter D _ _ _ _ Hnd Hfold
                     _ _ Hin Hne).
  exists nbrs. split; [exact Hnb|].
  unfold lookup2. rewrite Hrow.
  destruct (dict_get row host) as [alt|]; simpl in *.
  - destruct Hspec as (Ha & Han & Hlf & Hmin). rewrite nodup_In in Ha. split.
    + split; [intros _; exists alt; auto | intros _; eauto].
    + intros a [= <-]. repeat (split; [assumption|]).
      intros c Hc. apply Hmin. now rewrite nodup_In.
  - split; [|intros a Ha; discriminate Ha]. split.
    + intros [a Ha]. discriminate Ha.
    + intros (c & Hc & Hcn & Hlf). exfalso.
      apply (Hspec c); auto. now rewrite nodup_In.
Qed.

(** [spur] with every link up: the tables, the next hops and the
    alternates. From s1 towards h2 the primary next hop is s2 and the other
    neighbours are s3 and s4; s3 is loop-free (2 < 2 + 2) and s4 is not
    (3 < 1 + 2 fails). *)
Definition spur_up_tables : DistTable * PathTable :=
  Eval vm_compute in
    match snd (dijkstra None (initial_state spur 1)) with
    | Ok t => t
    | Raise _ => ([], [])
    end.

Definition spur_up_nexthops : Dict (list (Node * Node)) :=
  Eval vm_compute in
    match snd (compute_nexthops None (initial_state spur 1)) with
    | Ok nh => nh
    | Raise _ => []
    end.

Definition spur_up_lfas : Dict (Dict Node) :=
  Eval vm_compute in
    match snd (compute_lfas reverse_order spur_up_nexthops None
                 (initial_state spur 1)) with
    | Ok l => l
    | Raise _ => []
    end.

Lemma compute_lfas_full_scan_witness :
  exists nbrs,
    get_p4switches_connected_to (topo (initial_state spur 1)) "s1" = Ok nbrs /\
    ((exists alt, lookup2 spur_up_lfas "s1" "h2" = Ok alt) <->
     (exists c, In c nbrs /\ c <> "s2" /\
                loop_free (fst spur_up_tables) "s1" "h2" c)) /\
    forall alt, lookup2 spur_up_lfas "s1" "h2" = Ok alt ->
      In alt nbrs /\ alt <> "s2" /\ loop_free (fst spur_up_tables) "s1" "h2" alt /\
      forall c, In c nbrs -> c <> "s2" ->
        loop_free (fst spur_up_tables) "s1" "h2" c ->
        exists ta tc, path_cost (fst spur_up_tables) "s1" "h2" alt = Ok ta /\
                      path_cost (fst spur_up_tables) "s1" "h2" c = Ok tc /\
                      ta <= tc.
Proof.
  apply (@compute_lfas_full_scan reverse_order spur_up_nexthops None
           (initial_state spur 1) (fst spur_up_tables) (snd spur_up_tables)
           spur_up_lfas (fun A l x => iff_sym (in_rev l x))
           ltac:(vm_compute; repeat constructor; simpl; intuition congruence)
           ltac:(vm_compute; reflexivity) ltac:(vm_compute; reflexivity)
           "s1" [("h1", "h1"); ("h2", "s2")] "h2" "s2").
  - reflexivity.
  - simpl. repeat constructor; simpl; intuition congruence.
  - simpl. auto.
  - discriminate.
Defined.

(** The scan on that input: iterating from the last neighbour, the loop
    meets s4 first, which fails the condition, and goes on to s3, which it
    records. *)
Example full_scan_on_spur :
  get_p4switches_connected_to spur "s1" = Ok ["s2"; "s3"; "s4"] /\
  dict_get spur_up_nexthops "s1" = Some [("h1", "h1"); ("h2", "s2")] /\
  ~ loop_free (fst spur_up_tables) "s1" "h2" "s4" /\
  loop_free (fst spur_up_tables) "s1" "h2" "s3" /\
  lookup2 spur_up_lfas "s1" "h2" = Ok "s3" /\
  snd (compute_lfas insertion_order spur_up_nexthops None (initial_state spur 1))
  = Ok spur_up_lfas.
Proof.
  split; [reflexivity|]. split; [reflexivity|]. split; [|split].
  - intros (dah & das & dsh & H1 & H2 & H3 & Hlt).
    vm_compute in H1, H2, H3. injection H1 as <-. injection H2 as <-.
    injection H3 as <-. lia.
  - exists 2, 2, 2. repeat split; try (vm_compute; reflexivity). lia.
  - split; vm_compute; reflexivity.
Qed.

(** X2. On a well-formed topology whose listed failures are links of it,
    each listed once, [dijkstra] returns the tables of the topology without
    those links: it raises nothing and its loop ends within the bound of the
    model. *)
Theorem dijkstra_returns (failures : option (list Edge)) (s : State) :
  wf_graph (topo s) -> present_once (topo s) (failed failures) ->
  exists G' r,
    without_failures (topo s) failures = Ok G' /\ wf_graph G' /\
    all_pairs_dijkstra G' = Ok r /\
    snd (dijkstra failures s) = Ok (tables_of r).
Proof. apply dijkstra_total. Qed.

Lemma dijkstra_returns_witness :
  exists G' r,
    without_failures ring3 ring3_failures = Ok G' /\ wf_graph G' /\
    all_pairs_dijkstra G' = Ok r /\
    snd (dijkstra ring3_failures (initial_state ring3 2)) = Ok (tables_of r).
Proof.
  apply (@dijkstra_returns ring3_failures (initial_state ring3 2)).
  - exact ring3_wf.
  - simpl. split; [|split; [intros g []|exact I]].
    apply has_edgeb_spec. vm_compute. reflexivity.
Defined.

(* ================================================================== *)
(** ** Dijkstra: the distances are those of shortest walks *)

(** The attributes of the link [a]-[b] as [a] holds them. *)
Definition link_attr (G : NetworkGraph) (a b : Node) : option EdgeAttr :=
  match dict_get (g_adj G) a with
  | Some nbrs => dict_get nbrs b
  | None => None
  end.

(** The weight of that link as Dijkstra reads it (0 where there is no
    link). *)
Definition link_cost (G : NetworkGraph) (a b : Node) : nat :=
  match link_attr G a b with
  | Some e => cost e
  | None => 0
  end.

(** The total weight of the links along a list of nodes (the weights being
    integers, the order of the additions does not matter: see [path_dist]
    for the sum taken as Dijkstra takes it). *)
Fixpoint walk_cost (G : NetworkGraph) (p : list Node) : nat :=
  match p with
  | [] => 0
  | a :: t =>
      match t with
      | [] => 0
      | b :: _ => link_cost G a b + walk_cost G t
      end
  end.

(** The distance along a list of nodes as Dijkstra accumulates it, from
    the source on: [dist[u] = dist[v] + weight(v, u)]. *)
Fixpoint dist_along (G : NetworkGraph) (d : nat) (v : Node) (p : list Node) : nat :=
  match p with
  | [] => d
  | u :: t => dist_along G (d + link_cost G v u) u t
  end.

Definition path_dist (G : NetworkGraph) (p : list Node) : nat :=
  match p with
  | [] => 0
  | source :: t => dist_along G 0 source t
  end.

(** What Python's dictionaries give besides [wf_graph]: a neighbour is
    listed once in an adjacency dictionary, and only nodes have one. *)
Definition wf_adj (G : NetworkGraph) : Prop :=
  (forall v nbrs, dict_get (g_adj G) v = Some nbrs -> NoDup (dict_keys nbrs)) /\
  (forall v, dict_mem (g_adj G) v = true -> dict_mem (g_node G) v = true).

Lemma dist_along_walk_cost G p : forall d v,
  dist_along G d v p = d + walk_cost G (v :: p).
Proof.
  induction p as [|u t IH]; intros d v.
  - simpl. lia.
  - cbn [dist_along]. rewrite IH.
    change (walk_cost G (v :: u :: t)) with (link_cost G v u + walk_cost G (u :: t)).
    lia.
Qed.

Lemma path_dist_walk_cost G p : path_dist G p = walk_cost G p.
Proof.
  destruct p as [|v t]; [reflexivity|]. unfold path_dist.
  now rewrite dist_along_walk_cost.
Qed.

Lemma has_edge_attr G a b : has_edge G a b <-> exists e, link_attr G a b = Some e.
Proof.
  unfold has_edge, link_attr. split.
  - intros (nbrs & e & -> & H). eauto.
  - destruct (dict_get (g_adj G) a) as [nbrs|]; intros [e H]; [eauto | discriminate].
Qed.

Lemma walk_snoc_inv G s t p : walk G s t p -> exists q, p = q ++ [t].
Proof. destruct 1; [exists []; reflexivity | eauto]. Qed.

Lemma walk_cost_snoc G q v u :
  walk_cost G ((q ++ [v]) ++ [u]) = walk_cost G (q ++ [v]) + link_cost G v u.
Proof.
  induction q as [|a q IH].
  - simpl. lia.
  - destruct q as [|b q'].
    + simpl. lia.
    + change (link_cost G a b + walk_cost G (((b :: q') ++ [v]) ++ [u])
              = link_cost G a b + walk_cost G ((b :: q') ++ [v]) + link_cost G v u).
      rewrite IH. lia.
Qed.

Lemma walk_cost_step G s v u p :
  walk G s v p -> walk_cost G (p ++ [u]) = walk_cost G p + link_cost G v u.
Proof. intros Hw. destruct (walk_snoc_inv Hw) as [q ->]. apply walk_cost_snoc. Qed.

Lemma heappop_rest h : forall m r,
  heappop h = Some (m, r) -> forall y, In y h -> y = m \/ In y r.
Proof.
  induction h as [|x t IH]; simpl; intros m r; [discriminate|].
  destruct (heappop t) as [[m' r']|] eqn:E.
  - destruct (item_lt m' x); intros [= <- <-] y [<-|Hy].
    + right. now left.
    + destruct (IH _ _ eq_refl y Hy) as [->|H]; [now left | right; now right].
    + now left.
    + now right.
  - intros [= <- <-] y [<-|Hy]; [now left|].
    apply heappop_none in E. subst t. destruct Hy.
Qed.

Section DijkstraShortest.
Variable G : NetworkGraph.
Variable source : Node.
Hypothesis Hnbrs :
  forall v nbrs, dict_get (g_adj G) v = Some nbrs -> NoDup (dict_keys nbrs).

(** What the loop keeps of [seen], [paths], [dist] and the fringe. *)
Definition dist_ok (st : DState) : Prop :=
  dict_get (ds_seen st) source = Some 0 /\
  (forall u d, dict_get (ds_seen st) u = Some d ->
     exists p, dict_get (ds_paths st) u = Some p /\ walk G source u p /\
               walk_cost G p = d) /\
  (forall u p, dict_get (ds_paths st) u = Some p -> dict_get (ds_seen st) u <> None) /\
  (forall u d, dict_get (ds_dist st) u = Some d -> dict_get (ds_seen st) u = Some d) /\
  (forall u d, dict_get (ds_seen st) u = Some d -> dict_get (ds_dist st) u = None ->
     exists c, In (d, c, u) (ds_fringe st)) /\
  (forall d c u, In (d, c, u) (ds_fringe st) ->
     exists d', dict_get (ds_seen st) u = Some d' /\ d' <= d).

(** The links out of a node whose distance is final have been looked at. *)
Definition relaxed (st : DState) (v : Node) : Prop :=
  forall dv nbrs u e,
    dict_get (ds_dist st) v = Some dv -> dict_get (g_adj G) v = Some nbrs ->
    In (u, e) nbrs ->
    exists du, dict_get (ds_seen st) u = Some du /\ du <= dv + cost e.

Definition seen_lowered (st st' : DState) : Prop :=
  forall w d, dict_get (ds_seen st) w = Some d ->
  exists d', dict_get (ds_seen st') w = Some d' /\ d' <= d.

Lemma seen_lowered_refl st : seen_lowered st st.
Proof. intros w d H. exists d. auto. Qed.

Lemma seen_lowered_trans a b c :
  seen_lowered a b -> seen_lowered b c -> seen_lowered a c.
Proof.
  intros H1 H2 w d Hw. destruct (H1 _ _ Hw) as (d1 & Hd1 & Hle1).
  destruct (H2 _ _ Hd1) as (d2 & Hd2 & Hle2). exists d2. split; [exact Hd2 | lia].
Qed.

Lemma relax_dist_ok v dv nbrs u e st st' :
  dist_ok st ->
  dict_get (ds_dist st) v = Some dv ->
  dict_get (g_adj G) v = Some nbrs -> dict_get nbrs u = Some e ->
  relax v st (u, e) = Ok st' ->
  dist_ok st' /\ ds_dist st' = ds_dist st /\ seen_lowered st st' /\
  exists du, dict_get (ds_seen st') u = Some du /\ du <= dv + cost e.
Proof.
  intros (I6 & I1 & I7 & I2 & I3 & I4) Hdv Hadj He. unfold relax. rewrite Hdv.
  assert (Hstay : forall su, dict_get (ds_seen st) u = Some su -> su <= dv + cost e ->
            Ok st = Ok st' ->
            dist_ok st' /\ ds_dist st' = ds_dist st /\ seen_lowered st st' /\
            exists du, dict_get (ds_seen st') u = Some du /\ du <= dv + cost e).
  { intros su Hsu Hle [= <-]. split; [repeat split; assumption|].
    split; [reflexivity|]. split; [apply seen_lowered_refl|]. eauto. }
  assert (Hpush :
    dict_get (ds_dist st) u = None ->
    (forall su, dict_get (ds_seen st) u = Some su -> dv + cost e < su) ->
    match dict_get (ds_paths st) v with
    | Some pv =>
        Ok {| ds_dist := ds_dist st;
              ds_seen := dict_set (ds_seen st) u (dv + cost e);
              ds_paths := dict_set (ds_paths st) u (pv ++ [u]);
              ds_fringe := (dv + cost e, ds_c st, u) :: ds_fringe st;
              ds_c := S (ds_c st) |}
    | None => Raise KeyError
    end = Ok st' ->
    dist_ok st' /\ ds_dist st' = ds_dist st /\ seen_lowered st st' /\
    exists du, dict_get (ds_seen st') u = Some du /\ du <= dv + cost e).
  { intros Hud Hlow.
    destruct (dict_get (ds_paths st) v) as [pv|] eqn:Epv; [|discriminate].
    intros [= <-]. unfold dist_ok, seen_lowered.
    cbn [ds_dist ds_seen ds_paths ds_fringe].
    destruct (I1 _ _ (I2 _ _ Hdv)) as (pv' & Hpv' & Hwalk & Hcost).
    rewrite Epv in Hpv'. injection Hpv' as <-.
    assert (Hne : u <> source).
    { intros ->. specialize (Hlow _ I6). lia. }
    split; [|split; [reflexivity|split]].
    - split; [|split; [|split; [|split; [|split]]]].
      + rewrite dict_get_set. destruct (String.eqb_spec u source); [contradiction|].
        exact I6.
      + intros w d. rewrite !dict_get_set.
        destruct (String.eqb_spec u w) as [<-|_]; [|apply I1].
        intros [= <-]. exists (pv ++ [u]). split; [reflexivity|]. split.
        * eapply walk_step; [exact Hwalk|]. exists nbrs, e. auto.
        * rewrite (walk_cost_step u Hwalk), Hcost. unfold link_cost, link_attr.
          now rewrite Hadj, He.
      + intros w p. rewrite !dict_get_set.
        destruct (String.eqb_spec u w) as [<-|_]; [discriminate | apply I7].
      + intros w d Hw. rewrite dict_get_set.
        destruct (String.eqb_spec u w) as [<-|_]; [congruence | now apply I2].
      + intros w d. rewrite dict_get_set.
        destruct (String.eqb_spec u w) as [<-|_].
        * intros [= <-] _. exists (ds_c st). now left.
        * intros Hw Hn. destruct (I3 _ _ Hw Hn) as [c Hc]. exists c. now right.
      + intros d c w [[= <- <- <-]|Hin]; rewrite dict_get_set.
        * rewrite String.eqb_refl. eauto.
        * destruct (I4 _ _ _ Hin) as (d' & Hd' & Hle).
          destruct (String.eqb_spec u w) as [<-|_]; [|eauto].
          specialize (Hlow _ Hd'). exists (dv + cost e). split; [reflexivity | lia].
    - intros w d Hw. rewrite dict_get_set.
      destruct (String.eqb_spec u w) as [<-|_]; [|eauto].
      specialize (Hlow _ Hw). exists (dv + cost e). split; [reflexivity | lia].
    - rewrite dict_get_set, String.eqb_refl. eauto. }
  destruct (dict_get (ds_dist st) u) as [ud|] eqn:Eu.
  - destruct (Nat.ltb_spec (dv + cost e) ud) as [|Hge]; [discriminate|].
    apply (Hstay ud); [now apply I2 | exact Hge].
  - destruct (dict_get (ds_seen st) u) as [su|] eqn:Es.
    + destruct (Nat.ltb_spec (dv + cost e) su) as [Hlt|Hge].
      * apply Hpush; [reflexivity|]. now intros su' [= <-].
      * now apply (Hstay su).
    + apply Hpush; [reflexivity|]. intros su' Hx. discriminate Hx.
Qed.

Lemma relax_all_dist_ok v dv nbrs todo : forall st st',
  dist_ok st ->
  dict_get (ds_dist st) v = Some dv ->
  dict_get (g_adj G) v = Some nbrs ->
  (forall ue, In ue todo -> dict_get nbrs (fst ue) = Some (snd ue)) ->
  relax_all v todo st = Ok st' ->
  dist_ok st' /\ ds_dist st' = ds_dist st /\ seen_lowered st st' /\
  forall u e, In (u, e) todo ->
    exists du, dict_get (ds_seen st') u = Some du /\ du <= dv + cost e.
Proof.
  induction todo as [|[u e] t IH]; cbn [relax_all]; intros st st' Hok Hdv Hadj Hin.
  - intros [= <-]. split; [exact Hok|]. split; [reflexivity|].
    split; [apply seen_lowered_refl | intros u e []].
  - destruct (relax v st (u, e)) as [st1|] eqn:E1; [|discriminate].
    intros Hr.
    destruct (@relax_dist_ok v dv nbrs u e st st1 Hok Hdv Hadj
                (Hin (u, e) (or_introl eq_refl)) E1)
      as (Hok1 & Hd1 & Hlow1 & du & Hdu & Hle).
    destruct (IH st1 st' Hok1) as (Hok2 & Hd2 & Hlow2 & Hall);
      [now rewrite Hd1 | exact Hadj | intros ue Hue; apply Hin; now right
      | exact Hr |].
    split; [exact Hok2|]. split; [congruence|].
    split; [eapply seen_lowered_trans; eauto|].
    intros u' e' [[= <- <-]|Hin'].
    + destruct (Hlow2 _ _ Hdu) as (d' & Hd' & Hle'). exists d'. split; [exact Hd' | lia].
    + now apply Hall.
Qed.

Lemma dijkstra_loop_dist_ok fuel : forall st st',
  dist_ok st -> (forall w, relaxed st w) ->
  dijkstra_loop fuel (g_adj G) st = Ok st' ->
  dist_ok st' /\ (forall w, relaxed st' w) /\ ds_fringe st' = [].
Proof.
  induction fuel as [|fuel IH]; simpl; intros st st' Hok Hrel; [discriminate|].
  destruct (heappop (ds_fringe st)) as [[[[d c] v] rest]|] eqn:Epop.
  2:{ intros [= <-]. split; [exact Hok|]. split; [exact Hrel|].
      now apply heappop_none. }
  destruct (heappop_spec _ Epop) as (Hin & _ & Hsub & Hmin). simpl in Hmin.
  assert (Hrest := heappop_rest _ Epop).
  destruct Hok as (I6 & I1 & I7 & I2 & I3 & I4).
  destruct (dict_mem (ds_dist st) v) eqn:Emem.
  - apply IH.
    + repeat split; cbn [ds_dist ds_seen ds_paths ds_fringe]; auto.
      * intros u du Hu Hn. destruct (I3 _ _ Hu Hn) as [cu Hcu].
        destruct (Hrest _ Hcu) as [[= -> -> ->]|Hr]; [|eauto].
        unfold dict_mem in Emem. rewrite Hn in Emem. discriminate.
      * intros d0 c0 u Hu. apply (I4 d0 c0 u). now apply Hsub.
    + exact Hrel.
  - assert (Hnone : dict_get (ds_dist st) v = None).
    { unfold dict_mem in Emem. destruct (dict_get (ds_dist st) v); congruence. }
    destruct (I4 _ _ _ Hin) as (d' & Hd' & Hle).
    destruct (I3 _ _ Hd' Hnone) as [c' Hc'].
    assert (d' = d) as -> by (specialize (Hmin _ Hc'); simpl in Hmin; lia).
    destruct (dict_get (g_adj G) v) as [nbrs|] eqn:Ev; [|discriminate].
    destruct (relax_all _ _ _) as [st1|] eqn:E1; [|discriminate].
    match type of E1 with relax_all _ _ ?s0 = _ => set (st0 := s0) in * end.
    assert (Hok0 : dist_ok st0).
    { repeat split; cbn [st0 ds_dist ds_seen ds_paths ds_fringe]; auto.
      - intros u du. rewrite dict_get_set.
        destruct (String.eqb_spec v u) as [<-|_]; [congruence | apply I2].
      - intros u du Hu. rewrite dict_get_set.
        destruct (String.eqb_spec v u) as [<-|Hne]; [discriminate|].
        intros Hn. destruct (I3 _ _ Hu Hn) as [cu Hcu].
        destruct (Hrest _ Hcu) as [[= -> -> ->]|Hr]; [congruence | eauto].
      - intros d0 c0 u Hu. apply (I4 d0 c0 u). now apply Hsub. }
    destruct (@relax_all_dist_ok v d nbrs nbrs st0 st1 Hok0) as (Hok1 & Hd1 & Hlow1 & Hall).
    { cbn [st0 ds_dist]. now rewrite dict_get_set, String.eqb_refl. }
    { exact Ev. }
    { intros [u e] Hue. simpl. apply dict_nodup_In_get; [|exact Hue].
      now apply (Hnbrs v). }
    { exact E1. }
    apply IH; [exact Hok1|].
    intros w dw nb u e. rewrite Hd1. cbn [st0 ds_dist]. rewrite dict_get_set.
    destruct (String.eqb_spec v w) as [<-|Hne].
    + intros [= <-]. rewrite Ev. intros [= <-]. apply Hall.
    + intros Hw Hnb Hue.
      destruct (Hrel w dw nb u e Hw Hnb Hue) as (du & Hdu & Hle').
      destruct (Hlow1 u du) as (du' & Hdu' & Hle''); [exact Hdu|].
      exists du'. split; [exact Hdu' | lia].
Qed.

(** What a run from [source] returns. *)
Lemma single_source_shortest dist paths :
  single_source_dijkstra G source = Ok (dist, paths) ->
  (forall t d, dict_get dist t = Some d ->
     exists p, dict_get paths t = Some p /\ walk G source t p /\ walk_cost G p = d) /\
  (forall t p, dict_get paths t = Some p -> dict_get dist t <> None) /\
  (forall t q, walk G source t q ->
     exists d, dict_get dist t = Some d /\ d <= walk_cost G q).
Proof.
  unfold single_source_dijkstra.
  destruct (dict_mem (g_node G) source); [|discriminate].
  destruct (dijkstra_loop _ _ _) as [st|] eqn:E; [|discriminate].
  intros [= <- <-].
  apply dijkstra_loop_dist_ok in E.
  - destruct E as ((I6 & I1 & I7 & I2 & I3 & I4) & Hrel & Hempty).
    assert (Hfinal : forall u d, dict_get (ds_seen st) u = Some d ->
                                 dict_get (ds_dist st) u = Some d).
    { intros u d Hu. destruct (dict_get (ds_dist st) u) as [du|] eqn:Ed.
      - apply I2 in Ed. congruence.
      - destruct (I3 _ _ Hu Ed) as [c Hc]. rewrite Hempty in Hc. destruct Hc. }
    split; [|split].
    + intros t d Ht. apply I1. now apply I2.
    + intros t p Hp Hn. destruct (dict_get (ds_seen st) t) as [d|] eqn:Es.
      * apply Hfinal in Es. congruence.
      * exact (I7 _ _ Hp Es).
    + intros t q Hw. induction Hw as [|v u p Hw IH He].
      * exists 0. split; [now apply Hfinal | simpl; lia].
      * destruct IH as (dv & Hdv & Hle).
        destruct He as (nbrs & e & Hn & Hu).
        destruct (Hrel v dv nbrs u e Hdv Hn (dict_get_In _ _ Hu)) as (du & Hdu & Hle').
        exists du. split; [now apply Hfinal|].
        rewrite (walk_cost_step u Hw). unfold link_cost, link_attr.
        rewrite Hn, Hu. lia.
  - repeat split; simpl.
    + now rewrite String.eqb_refl.
    + intros u d. destruct (String.eqb_spec source u) as [<-|_]; [|discriminate].
      intros [= <-]. exists [source]. repeat split. constructor.
    + intros u p. destruct (String.eqb source u); discriminate.
    + discriminate.
    + intros u d. destruct (String.eqb_spec source u) as [<-|_]; [|discriminate].
      intros [= <-] _. exists 0. now left.
    + intros d c u [[= <- <- <-]|[]]. rewrite String.eqb_refl. eauto.
  - intros w dw nb u e Hw. discriminate Hw.
Qed.

End DijkstraShortest.

Lemma all_pairs_from_rows G nodes : forall acc r,
  (forall n data, dict_get acc n = Some data -> single_source_dijkstra G n = Ok data) ->
  all_pairs_from G nodes acc = Ok r ->
  (forall n data, dict_get r n = Some data -> single_source_dijkstra G n = Ok data) /\
  (forall n, In n nodes -> dict_get r n <> None) /\
  (forall n, dict_get acc n <> None -> dict_get r n <> None) /\
  (forall n, dict_get r n <> None -> In n nodes \/ dict_get acc n <> None).
Proof.
  induction nodes as [|x t IH]; simpl; intros acc r Hacc.
  - intros [= <-]. repeat split; auto.
  - destruct (single_source_dijkstra G x) as [data|] eqn:E; [|discriminate].
    intros H. destruct (IH (dict_set acc x data) r) as (H1 & H2 & H3 & H4);
      [|exact H|].
    + intros n d. rewrite dict_get_set.
      destruct (String.eqb_spec x n) as [<-|_]; [now intros [= <-] | apply Hacc].
    + split; [exact H1|]. split; [|split].
      * intros n [<-|Hn]; [|now apply H2]. apply H3.
        rewrite dict_get_set, String.eqb_refl. discriminate.
      * intros n Hn. apply H3. rewrite dict_get_set.
        destruct (String.eqb x n); [discriminate | exact Hn].
      * intros n Hn. destruct (H4 n Hn) as [Hin|Hs]; [left; now right|].
        revert Hs. rewrite dict_get_set.
        destruct (String.eqb_spec x n) as [<-|_]; [left; now left | now right].
Qed.

Lemma lookup2_tables r src dst :
  lookup2 (fst (tables_of r)) src dst
  = match dict_get r src with
    | Some data => of_option KeyError (dict_get (fst data) dst)
    | None => Raise KeyError
    end /\
  lookup2 (snd (tables_of r)) src dst
  = match dict_get r src with
    | Some data => of_option KeyError (dict_get (snd data) dst)
    | None => Raise KeyError
    end.
Proof.
  unfold lookup2, tables_of. cbn [fst snd].
  rewrite (dict_get_map (fun x : Dict nat * Dict (list Node) => fst x)).
  rewrite (dict_get_map (fun x : Dict nat * Dict (list Node) => snd x)).
  destruct (dict_get r src); auto.
Qed.

(** The two tables of [all_pairs_dijkstra]: an entry of the distance table
    is the weight of the path the path table has for the same pair, the two
    tables have the same entries, and the distance is the least weight of a
    walk. *)
Lemma all_pairs_shortest G r :
  (forall v nbrs, dict_get (g_adj G) v = Some nbrs -> NoDup (dict_keys nbrs)) ->
  all_pairs_dijkstra G = Ok r ->
  forall src dst,
    (forall d, lookup2 (fst (tables_of r)) src dst = Ok d ->
       dict_mem (g_node G) src = true /\
       exists p, lookup2 (snd (tables_of r)) src dst = Ok p /\
                 walk G src dst p /\ walk_cost G p = d) /\
    (forall p, lookup2 (snd (tables_of r)) src dst = Ok p ->
       exists d, lookup2 (fst (tables_of r)) src dst = Ok d) /\
    (forall q, dict_mem (g_node G) src = true -> walk G src dst q ->
       exists d, lookup2 (fst (tables_of r)) src dst = Ok d /\ d <= walk_cost G q).
Proof.
  intros Hnbrs Hr src dst. unfold all_pairs_dijkstra in Hr.
  assert (H0 : forall n data,
            dict_get ([] : Dict (Dict nat * Dict (list Node))) n = Some data ->
            single_source_dijkstra G n = Ok data)
    by (intros n d Hx; discriminate Hx).
  destruct (@all_pairs_from_rows G _ [] r H0 Hr) as (H1 & H2 & _ & H4).
  destruct (lookup2_tables r src dst) as [-> ->].
  destruct (dict_get r src) as [[dist paths]|] eqn:Erow; cbn [fst snd].
  - destruct (@single_source_shortest G src Hnbrs dist paths (H1 _ _ Erow))
      as (F1 & F2 & F3).
    assert (Hmem : dict_mem (g_node G) src = true).
    { apply dict_keys_mem. destruct (H4 src) as [H|H]; [congruence | exact H|].
      now contradiction H. }
    split; [|split].
    + intros d Hd. split; [exact Hmem|].
      destruct (dict_get dist dst) as [d'|] eqn:Ed; [|discriminate].
      cbn [of_option] in Hd. injection Hd as ->.
      destruct (F1 _ _ Ed) as (p & -> & Hw & Hc). exists p. auto.
    + intros p Hp. destruct (dict_get paths dst) as [p'|] eqn:Ep; [|discriminate].
      destruct (dict_get dist dst) as [d|] eqn:Ed; [exists d; reflexivity|].
      exfalso. exact (F2 _ _ Ep Ed).
    + intros q _ Hw. destruct (F3 _ _ Hw) as (d & -> & Hle). exists d. auto.
  - split; [|split]; try discriminate.
    intros q Hmem _. exfalso. apply (H2 src); [|exact Erow].
    now apply dict_mem_keys.
Qed.

(* ------------------------------------------------------------------ *)
(** *** The copy without the failed links keeps the other links as they
        are *)

Lemma fold_left_In_inv {A B} (Q : A -> Prop) (f : A -> B -> A) l :
  (forall x a, In x l -> Q a -> Q (f a x)) -> forall a, Q a -> Q (fold_left f l a).
Proof.
  induction l as [|x t IH]; simpl; intros Hstep a Ha; [exact Ha|].
  apply IH; [intros y b Hy; apply Hstep; now right|].
  apply Hstep; [now left | exact Ha].
Qed.

Lemma link_attr_adj_get G a b : link_attr G a b = dict_get (adj_get (g_adj G) a) b.
Proof. unfold link_attr, adj_get. now destruct (dict_get (g_adj G) a). Qed.

Lemma set_entry_get adj u v e a b :
  dict_get (adj_get (set_entry adj u v e) a) b
  = if String.eqb u a && String.eqb v b then Some e
    else dict_get (adj_get adj a) b.
Proof.
  unfold set_entry, adj_get at 1. rewrite dict_get_set.
  destruct (String.eqb_spec u a) as [<-|_]; cbn [andb].
  - now rewrite dict_get_set.
  - reflexivity.
Qed.

Lemma empty_adj_get (nodes : Dict NodeAttr) a :
  adj_get (map (fun na => (fst na, [])) nodes) a = [].
Proof.
  unfold adj_get. induction nodes as [|[n x] t IH]; simpl; [reflexivity|].
  destruct (String.eqb n a); [reflexivity | exact IH].
Qed.

Lemma empty_adj_mem (nodes : Dict NodeAttr) a :
  dict_mem (map (fun na => (fst na, @nil (Node * EdgeAttr))) nodes) a
  = dict_mem nodes a.
Proof.
  unfold dict_mem. induction nodes as [|[n x] t IH]; simpl; [reflexivity|].
  destruct (String.eqb n a); [reflexivity | exact IH].
Qed.

(** A link of the copy has the attributes it has in the graph copied. *)
Lemma nx_copy_attr G a b e :
  wf_graph G -> wf_adj G ->
  link_attr (nx_copy G) a b = Some e -> link_attr G a b = Some e.
Proof.
  intros (_ & Hna & _ & Hsym) [Hnb _]. rewrite !link_attr_adj_get.
  unfold nx_copy. cbn [g_adj]. revert a b e.
  apply (fold_left_In_inv
           (fun adj => forall a b e, dict_get (adj_get adj a) b = Some e ->
                                     dict_get (adj_get (g_adj G) a) b = Some e)).
  - intros [u nbrs] adj Hu Hadj. unfold copy_edges. cbn [fst snd].
    assert (Hgu : dict_get (g_adj G) u = Some nbrs) by now apply dict_nodup_In_get.
    apply (fold_left_In_inv
             (fun adj => forall a b e, dict_get (adj_get adj a) b = Some e ->
                                       dict_get (adj_get (g_adj G) a) b = Some e));
      [|exact Hadj].
    intros [v e0] adj0 Hv Hadj0 a b e. unfold copy_edge.
    assert (Hgv : dict_get nbrs v = Some e0).
    { apply dict_nodup_In_get; [now apply (Hnb u) | exact Hv]. }
    rewrite !set_entry_get.
    destruct (String.eqb_spec v a) as [<-|_];
      [destruct (String.eqb_spec u b) as [<-|_]|]; cbn [andb].
    + intros [= <-].
      assert (has_edge G v u) as (nv & x & Hnv & Hx).
      { apply Hsym. exists nbrs, e0. auto. }
      unfold adj_get. rewrite Hnv, Hx. reflexivity.
    + destruct (String.eqb_spec u v) as [->|_];
        [destruct (String.eqb_spec v b) as [<-|_]|]; cbn [andb]; [| |apply Hadj0].
      * intros [= <-]. unfold adj_get. now rewrite Hgu.
      * apply Hadj0.
    + destruct (String.eqb_spec u a) as [<-|_];
        [destruct (String.eqb_spec v b) as [<-|_]|]; cbn [andb]; [| |apply Hadj0].
      * intros [= <-]. unfold adj_get. now rewrite Hgu.
      * apply Hadj0.
  - intros a b e. rewrite empty_adj_get. discriminate.
Qed.

Lemma dict_del_keys_nodup {V} (d : Dict V) k :
  NoDup (dict_keys d) -> NoDup (dict_keys (dict_del d k)).
Proof. apply filter_keys_nodup. Qed.

Lemma nx_copy_wf_adj G : wf_graph G -> wf_adj G -> wf_adj (nx_copy G).
Proof.
  intros (_ & Hna & _ & Hsym) [Hnb Hkeys]. split.
  - unfold nx_copy. cbn [g_adj].
    apply (copy_all_keep
             (fun adj => forall v nbrs, dict_get adj v = Some nbrs ->
                                        NoDup (dict_keys nbrs))).
    + intros adj u v e Hadj w nbrs. unfold set_entry. rewrite dict_get_set.
      destruct (String.eqb_spec u w) as [<-|_]; [|apply Hadj].
      intros [= <-]. apply dict_set_keys_nodup. unfold adj_get.
      destruct (dict_get adj u) as [n|] eqn:E; [now apply (Hadj u) | constructor].
    + intros v nbrs Hv.
      assert (nbrs = adj_get (map (fun na => (fst na, [])) (g_node G)) v) as ->
        by (unfold adj_get; now rewrite Hv).
      rewrite empty_adj_get. constructor.
  - unfold nx_copy. cbn [g_adj g_node].
    apply (fold_left_In_inv
             (fun adj => forall v, dict_mem adj v = true ->
                                   dict_mem (g_node G) v = true)).
    + intros [u nbrs] adj Hu Hadj. unfold copy_edges. cbn [fst snd].
      assert (Hgu : dict_mem (g_adj G) u = true).
      { apply dict_keys_mem. unfold dict_keys. change u with (fst (u, nbrs)).
        now apply in_map. }
      apply (fold_left_In_inv
               (fun adj => forall v, dict_mem adj v = true ->
                                     dict_mem (g_node G) v = true));
        [|exact Hadj].
      intros [v e0] adj0 Hv Hadj0 w. unfold copy_edge, set_entry.
      rewrite !dict_mem_set.
      assert (Hgv : dict_mem (g_adj G) v = true).
      { destruct (dict_In_get _ _ _ Hv) as [e' He'].
        assert (has_edge G v u) as (nv & x & Hnv & _).
        { apply Hsym. exists nbrs, e'. split; [|exact He'].
          now apply dict_nodup_In_get. }
        unfold dict_mem. now rewrite Hnv. }
      destruct (String.eqb_spec v w) as [<-|_]; [intros _; now apply Hkeys|].
      destruct (String.eqb_spec u w) as [<-|_]; [intros _; now apply Hkeys|].
      apply Hadj0.
    + intros v. now rewrite empty_adj_mem.
Qed.

Lemma remove_edge_attr G u v G' a b e :
  remove_edge G u v = Ok G' ->
  link_attr G' a b = Some e -> link_attr G a b = Some e.
Proof.
  unfold remove_edge, link_attr.
  destruct (dict_get (g_adj G) u) as [nu|] eqn:Eu; [|discriminate].
  destruct (dict_mem nu v); [|discriminate].
  destruct (String.eqb_spec u v) as [<-|Huv].
  - intros [= <-]. cbn [g_adj set_adj]. rewrite dict_get_set.
    destruct (String.eqb_spec u a) as [<-|_]; [|auto].
    rewrite Eu, dict_get_del. destruct (String.eqb u b); [discriminate | auto].
  - cbn [g_adj set_adj]. rewrite dict_get_set.
    destruct (String.eqb_spec u v) as [?|_]; [contradiction|].
    destruct (dict_get (g_adj G) v) as [nv|] eqn:Ev; [|discriminate].
    destruct (dict_mem nv u); [|discriminate].
    intros [= <-]. cbn [g_adj set_adj]. rewrite !dict_get_set.
    destruct (String.eqb_spec v a) as [<-|_].
    + rewrite Ev, dict_get_del. destruct (String.eqb u b); [discriminate | auto].
    + destruct (String.eqb_spec u a) as [<-|_]; [|auto].
      rewrite Eu, dict_get_del. destruct (String.eqb v b); [discriminate | auto].
Qed.

Lemma remove_edge_wf_adj G u v G' :
  wf_adj G -> remove_edge G u v = Ok G' -> wf_adj G'.
Proof.
  intros [Hnb Hkeys] Hr. split.
  - revert Hr. unfold remove_edge.
    destruct (dict_get (g_adj G) u) as [nu|] eqn:Eu; [|discriminate].
    destruct (dict_mem nu v); [|discriminate].
    destruct (String.eqb_spec u v) as [<-|Huv].
    + intros [= <-] w nbrs. cbn [g_adj set_adj]. rewrite dict_get_set.
      destruct (String.eqb_spec u w) as [<-|_]; [|apply Hnb].
      intros [= <-]. apply dict_del_keys_nodup. now apply (Hnb u).
    + cbn [g_adj set_adj]. rewrite dict_get_set.
      destruct (String.eqb_spec u v) as [?|_]; [contradiction|].
      destruct (dict_get (g_adj G) v) as [nv|] eqn:Ev; [|discriminate].
      destruct (dict_mem nv u); [|discriminate].
      intros [= <-] w nbrs. cbn [g_adj set_adj]. rewrite !dict_get_set.
      destruct (String.eqb_spec v w) as [<-|_].
      * intros [= <-]. apply dict_del_keys_nodup. now apply (Hnb v).
      * destruct (String.eqb_spec u w) as [<-|_]; [|apply Hnb].
        intros [= <-]. apply dict_del_keys_nodup. now apply (Hnb u).
  - intros w Hw. rewrite (remove_edge_nodes _ _ _ Hr). apply Hkeys.
    revert Hr Hw. unfold remove_edge.
    destruct (dict_get (g_adj G) u) as [nu|] eqn:Eu; [|discriminate].
    destruct (dict_mem nu v); [|discriminate].
    destruct (String.eqb_spec u v) as [<-|Huv].
    + intros [= <-]. cbn [g_adj set_adj]. rewrite dict_mem_set.
      destruct (String.eqb_spec u w) as [<-|_]; [|auto].
      intros _. unfold dict_mem. now rewrite Eu.
    + cbn [g_adj set_adj]. rewrite dict_get_set.
      destruct (String.eqb_spec u v) as [?|_]; [contradiction|].
      destruct (dict_get (g_adj G) v) as [nv|] eqn:Ev; [|discriminate].
      destruct (dict_mem nv u); [|discriminate].
      intros [= <-]. cbn [g_adj set_adj]. rewrite !dict_mem_set.
      destruct (String.eqb_spec v w) as [<-|_];
        [intros _; unfold dict_mem; now rewrite Ev|].
      destruct (String.eqb_spec u w) as [<-|_]; [|auto].
      intros _. unfold dict_mem. now rewrite Eu.
Qed.

Lemma remove_edges_keeps fs : forall G G',
  wf_graph G -> wf_adj G -> remove_edges G fs = Ok G' ->
  wf_graph G' /\ wf_adj G' /\ g_node G' = g_node G /\
  forall a b e, link_attr G' a b = Some e -> link_attr G a b = Some e.
Proof.
  induction fs as [|f t IH]; simpl; intros G G' Hwf Hadj.
  - intros [= <-]. auto.
  - destruct (remove_edge G (fst f) (snd f)) as [G1|] eqn:E1; [|discriminate].
    simpl. intros H.
    destruct (IH G1 G' (@remove_edge_wf _ _ _ _ Hwf E1)
                (@remove_edge_wf_adj _ _ _ _ Hadj E1) H)
      as (H1 & H2 & H3 & H4).
    split; [exact H1|]. split; [exact H2|]. split.
    + rewrite H3. eapply remove_edge_nodes; eauto.
    + intros a b e Ha. eapply remove_edge_attr; eauto.
Qed.

(** The graph [dijkstra] runs on is kept as networkx keeps a graph, has the
    nodes of the topology, and its links have the attributes they have in
    the topology. *)
Lemma without_failures_keeps G failures G' :
  wf_graph G -> wf_adj G -> without_failures G failures = Ok G' ->
  wf_graph G' /\ wf_adj G' /\ g_node G' = g_node G /\
  forall a b e, link_attr G' a b = Some e -> link_attr G a b = Some e.
Proof.
  intros Hwf Hadj. destruct failures as [fs|]; simpl.
  - intros H.
    destruct (@remove_edges_keeps fs _ _ (@nx_copy_wf _ Hwf)
                (@nx_copy_wf_adj _ Hwf Hadj) H)
      as (H1 & H2 & H3 & H4).
    split; [exact H1|]. split; [exact H2|]. split; [exact H3|].
    intros a b e Ha. apply nx_copy_attr; auto.
  - intros [= <-]. auto.
Qed.

Lemma walk_cost_sub G G' s t p :
  (forall a b e, link_attr G' a b = Some e -> link_attr G a b = Some e) ->
  walk G' s t p -> walk_cost G' p = walk_cost G p.
Proof.
  intros Hsub Hw.
  assert (Hedge : forall a b, has_edge G' a b -> has_edge G a b).
  { intros a b. rewrite !has_edge_attr. intros [e He]. eauto. }
  induction Hw as [|v u p Hw IH He]; [reflexivity|].
  rewrite (walk_cost_step u Hw), (walk_cost_step u (walk_mono Hedge Hw)), IH.
  f_equal. apply has_edge_attr in He. destruct He as [e He].
  unfold link_cost. now rewrite He, (Hsub _ _ _ He).
Qed.

(** A list of nodes on which no two consecutive nodes are the ends of one
    of the links [fs]. *)
Definition avoids (fs : list Edge) (p : list Node) : Prop :=
  forall i a b, nth_error p i = Some a -> nth_error p (S i) = Some b ->
  forall f, In f fs -> ~ same_link f a b.

Lemma walk_avoids G G' fs :
  (forall a b, has_edge G' a b <->
               has_edge G a b /\ forall f, In f fs -> ~ same_link f a b) ->
  forall s t p, walk G' s t p <-> walk G s t p /\ avoids fs p.
Proof.
  intros Hlinks s t p. split.
  - intros Hw. split.
    + eapply walk_mono; [|exact Hw]. intros a b He. now apply Hlinks in He.
    + intros i a b Ha Hb. apply (Hlinks a b). eapply walk_consecutive; eauto.
  - intros [Hw Hav]. induction Hw as [|v u p Hw IH He]; [constructor|].
    assert (Hlen := walk_nonempty Hw).
    eapply walk_step.
    + apply IH. intros i a b Ha Hb. apply (Hav i a b).
      * rewrite nth_error_app1; [exact Ha|]. apply nth_error_Some. congruence.
      * rewrite nth_error_app1; [exact Hb|]. apply nth_error_Some. congruence.
    + apply Hlinks. split; [exact He|].
      apply (Hav (length p - 1) v u).
      * rewrite nth_error_app1 by lia. exact (@walk_last G s v p Hw).
      * replace (S (length p - 1)) with (length p) by lia.
        rewrite nth_error_app2 by lia. now rewrite Nat.sub_diag.
Qed.

(** A decidable check of [wf_adj]. *)
Definition wf_adjb (G : NetworkGraph) : bool :=
  forallb (fun un => nodupb (dict_keys (snd un)) && dict_mem (g_node G) (fst un))
    (g_adj G).

Lemma wf_adjb_sound G : wf_adjb G = true -> wf_adj G.
Proof.
  unfold wf_adjb. rewrite forallb_forall. intros H. split.
  - intros v nbrs Hv. apply dict_get_In in Hv. specialize (H _ Hv).
    apply andb_true_iff in H. apply nodupb_sound, H.
  - intros v Hv. unfold dict_mem in Hv.
    destruct (dict_get (g_adj G) v) as [nbrs|] eqn:E; [|discriminate].
    apply dict_get_In in E. specialize (H _ E).
    apply andb_true_iff in H. apply H.
Qed.

Lemma ring3_wf_adj : wf_adj ring3.
Proof. apply wf_adjb_sound. vm_compute. reflexivity. Qed.

(** What [dijkstra] returns, read in the topology. *)
Lemma dijkstra_result_shortest G failures D P :
  wf_graph G -> wf_adj G ->
  dijkstra_result G failures = Ok (D, P) ->
  forall src dst,
    (forall d, lookup2 D src dst = Ok d ->
       dict_mem (g_node G) src = true /\
       exists p, lookup2 P src dst = Ok p /\ walk G src dst p /\
                 avoids (failed failures) p /\ walk_cost G p = d) /\
    (forall p, lookup2 P src dst = Ok p -> exists d, lookup2 D src dst = Ok d) /\
    (forall q, dict_mem (g_node G) src = true -> walk G src dst q ->
       avoids (failed failures) q ->
       exists d, lookup2 D src dst = Ok d /\ d <= walk_cost G q).
Proof.
  intros Hwf Hadj. unfold dijkstra_result.
  destruct (without_failures G failures) as [G'|] eqn:HG; simpl; [|discriminate].
  destruct (all_pairs_dijkstra G') as [r|] eqn:Hr; simpl; [|discriminate].
  intros [= <- <-] src dst.
  destruct (@without_failures_keeps G failures G' Hwf Hadj HG)
    as (Hwf' & [Hnb' _] & Hnodes & Hattr).
  assert (Hwalk := @walk_avoids G G' (failed failures)
                     (without_failures_links _ Hwf HG)).
  destruct (@all_pairs_shortest G' r Hnb' Hr src dst) as (F1 & F2 & F3).
  rewrite Hnodes in F1, F3. split; [|split].
  - intros d Hd. destruct (F1 d Hd) as (Hmem & p & Hp & Hw & Hc).
    split; [exact Hmem|]. exists p. split; [exact Hp|].
    rewrite <- (@walk_cost_sub G G' src dst p Hattr Hw). apply Hwalk in Hw. tauto.
  - exact F2.
  - intros q Hmem Hw Hav.
    assert (Hw' : walk G' src dst q) by (apply Hwalk; auto).
    destruct (F3 q Hmem Hw') as (d & Hd & Hle). exists d. split; [exact Hd|].
    now rewrite <- (@walk_cost_sub G G' src dst q Hattr Hw').
Qed.

(** X3. The distance table of [dijkstra] holds shortest distances, for
    link weights that are non-negative integers: on a topology as networkx
    keeps it, an entry [D[src][dst]] is the distance accumulated from [src]
    along the path [P[src][dst]] of the path table, which is a walk of the
    topology from [src] to [dst] that uses none of the failed links, and no
    walk of the topology from [src] to [dst] that uses none of the failed
    links has a smaller distance. *)
Theorem dijkstra_distances_shortest (failures : option (list Edge)) (s : State)
  (D : DistTable) (P : PathTable) :
  wf_graph (topo s) -> wf_adj (topo s) ->
  snd (dijkstra failures s) = Ok (D, P) ->
  forall src dst d, lookup2 D src dst = Ok d ->
    (exists p, lookup2 P src dst = Ok p /\ walk (topo s) src dst p /\
               avoids (failed failures) p /\ path_dist (topo s) p = d) /\
    (forall q, walk (topo s) src dst q -> avoids (failed failures) q ->
               d <= path_dist (topo s) q).
Proof.
  intros Hwf Hadj. rewrite dijkstra_snd. intros HD src dst d Hd.
  destruct (@dijkstra_result_shortest _ failures D P Hwf Hadj HD src dst)
    as (F1 & _ & F3).
  destruct (F1 d Hd) as (Hmem & p & Hp & Hw & Hav & Hc). split.
  - exists p. rewrite path_dist_walk_cost. auto.
  - intros q Hwq Havq. rewrite path_dist_walk_cost.
    destruct (F3 q Hmem Hwq Havq) as (d' & Hd' & Hle). congruence.
Qed.

Lemma dijkstra_distances_shortest_witness :
  (exists p, lookup2 (snd ring3_tables) "s1" "h2" = Ok p /\
             walk ring3 "s1" "h2" p /\
             avoids (failed ring3_failures) p /\ path_dist ring3 p = 3) /\
  (forall q, walk ring3 "s1" "h2" q -> avoids (failed ring3_failures) q ->
             3 <= path_dist ring3 q).
Proof.
  apply (@dijkstra_distances_shortest ring3_failures (initial_state ring3 2)
           (fst ring3_tables) (snd ring3_tables) ring3_wf ring3_wf_adj
           ltac:(vm_compute; reflexivity) "s1" "h2" 3).
  vm_compute. reflexivity.
Defined.

(** X4. The two tables of [dijkstra] have the same entries, and they are
    the pairs that are connected: on a topology as networkx keeps it, there
    is an entry for [src] and [dst] exactly when [src] is a node and some walk
    of the topology from [src] to [dst] uses none of the failed links. *)
Theorem dijkstra_entries_reachable (failures : option (list Edge)) (s : State)
  (D : DistTable) (P : PathTable) :
  wf_graph (topo s) -> wf_adj (topo s) ->
  snd (dijkstra failures s) = Ok (D, P) ->
  forall src dst,
    ((exists d, lookup2 D src dst = Ok d) <-> (exists p, lookup2 P src dst = Ok p)) /\
    ((exists p, lookup2 P src dst = Ok p) <->
     (dict_mem (g_node (topo s)) src = true /\
      exists q, walk (topo s) src dst q /\ avoids (failed failures) q)).
Proof.
  intros Hwf Hadj. rewrite dijkstra_snd. intros HD src dst.
  destruct (@dijkstra_result_shortest _ failures D P Hwf Hadj HD src dst)
    as (F1 & F2 & F3).
  assert (H12 : (exists d, lookup2 D src dst = Ok d) <->
                (exists p, lookup2 P src dst = Ok p)).
  { split.
    - intros [d Hd]. destruct (F1 d Hd) as (_ & p & Hp & _). eauto.
    - intros [p Hp]. eauto. }
  split; [exact H12|]. rewrite <- H12. split.
  - intros [d Hd]. destruct (F1 d Hd) as (Hmem & p & _ & Hw & Hav & _). eauto.
  - intros (Hmem & q & Hw & Hav). destruct (F3 q Hmem Hw Hav) as (d & Hd & _). eauto.
Qed.

Lemma dijkstra_entries_reachable_witness :
  ((exists d, lookup2 (fst spur_tables) "s1" "s4" = Ok d) <->
   (exists p, lookup2 (snd spur_tables) "s1" "s4" = Ok p)) /\
  ((exists p, lookup2 (snd spur_tables) "s1" "s4" = Ok p) <->
   (dict_mem (g_node spur) "s1" = true /\
    exists q, walk spur "s1" "s4" q /\ avoids (failed spur_failures) q)).
Proof.
  apply (@dijkstra_entries_reachable spur_failures (initial_state spur 1)
           (fst spur_tables) (snd spur_tables)).
  - apply wf_graphb_sound. vm_compute. reflexivity.
  - apply wf_adjb_sound. vm_compute. reflexivity.
  - vm_compute. reflexivity.
Defined.

(* ------------------------------------------------------------------ *)
(** *** Next hops and alternates on shortest paths *)

Lemma walk_second_split G s t p n :
  walk G s t p -> nth_error p 1 = Some n ->
  exists p2, walk G n t p2 /\ walk_cost G p = link_cost G s n + walk_cost G p2.
Proof.
  induction 1 as [|v u p Hw IH He]; [discriminate|].
  intros Hn. assert (Hlen := walk_nonempty Hw).
  destruct (Nat.eq_dec (length p) 1) as [H1|H1].
  - destruct p as [|a [|b q]]; try discriminate. simpl in Hn. injection Hn as <-.
    assert (a = s) by (apply walk_head in Hw; simpl in Hw; congruence).
    assert (v = a) by (apply walk_last in Hw; simpl in Hw; congruence). subst.
    exists [u]. split; [constructor|]. simpl. lia.
  - rewrite nth_error_app1 in Hn by lia. destruct (IH Hn) as (p2 & Hw2 & Hc).
    exists (p2 ++ [u]). split; [eapply walk_step; eauto|].
    rewrite (walk_cost_step u Hw), (walk_cost_step u Hw2). lia.
Qed.

Lemma walk_prepend G a b t q :
  has_edge G a b -> walk G b t q ->
  walk G a t (a :: q) /\ walk_cost G (a :: q) = link_cost G a b + walk_cost G q.
Proof.
  intros He. induction 1 as [|v u q Hw IH Hvu].
  - split; [exact (walk_step (walk_source G a) He) | simpl; lia].
  - destruct IH as [IH1 IH2]. split.
    + exact (walk_step IH1 Hvu).
    + change (a :: q ++ [u]) with ((a :: q) ++ [u]).
      rewrite (walk_cost_step u IH1), (walk_cost_step u Hw). lia.
Qed.

Lemma walk_split G s t p x :
  walk G s t p -> In x p ->
  exists p1 p2, walk G s x p1 /\ walk G x t p2 /\
                walk_cost G p = walk_cost G p1 + walk_cost G p2.
Proof.
  induction 1 as [|v u p Hw IH He].
  - intros [<-|[]]. exists [s], [s]. repeat split; constructor.
  - intros Hin. apply in_app_or in Hin. destruct Hin as [Hin|[<-|[]]].
    + destruct (IH Hin) as (p1 & p2 & H1 & H2 & Hc).
      exists p1, (p2 ++ [u]). split; [exact H1|]. split; [eapply walk_step; eauto|].
      rewrite (walk_cost_step u Hw), (walk_cost_step u H2). lia.
    + exists (p ++ [u]), [u]. split; [eapply walk_step; eauto|].
      split; [constructor | simpl; lia].
Qed.

Lemma dijkstra_result_inv G failures D P :
  wf_graph G -> wf_adj G -> dijkstra_result G failures = Ok (D, P) ->
  exists G' r,
    without_failures G failures = Ok G' /\ all_pairs_dijkstra G' = Ok r /\
    D = fst (tables_of r) /\ P = snd (tables_of r) /\
    wf_graph G' /\ wf_adj G' /\ g_node G' = g_node G /\
    forall a b e, link_attr G' a b = Some e -> link_attr G a b = Some e.
Proof.
  intros Hwf Hadj. unfold dijkstra_result.
  destruct (without_failures G failures) as [G'|] eqn:HG; simpl; [|discriminate].
  destruct (all_pairs_dijkstra G') as [r|] eqn:Hr; simpl; [|discriminate].
  intros [= <- <-]. exists G', r.
  destruct (@without_failures_keeps G failures G' Hwf Hadj HG) as (H1 & H2 & H3 & H4).
  auto 10.
Qed.

Lemma wf_neighbour_node G a b :
  wf_graph G -> wf_adj G -> has_edge G a b -> dict_mem (g_node G) b = true.
Proof.
  intros Hwf [_ Hkeys] He. apply Hkeys.
  destruct (@wf_symmetric G a b Hwf He) as (nb & e & Hnb & _).
  unfold dict_mem. now rewrite Hnb.
Qed.

(** X5. The next hop [compute_nexthops] records lies on a shortest path,
    for link weights that are non-negative integers: on a topology as
    networkx keeps it, for a recorded pair [(host, nexthop)] of a switch, the
    distance from the switch to the host is the weight of the link from the
    switch to the next hop plus the distance from the next hop to the
    host. *)
Theorem nexthop_on_shortest_path (failures : option (list Edge)) (s : State)
  (D : DistTable) (P : PathTable) (nexthops : Dict (list (Node * Node))) :
  wf_graph (topo s) -> wf_adj (topo s) ->
  snd (dijkstra failures s) = Ok (D, P) ->
  snd (compute_nexthops failures s) = Ok nexthops ->
  forall switch dests host nexthop,
    dict_get nexthops switch = Some dests -> In (host, nexthop) dests ->
    exists d d',
      lookup2 D switch host = Ok d /\ lookup2 D nexthop host = Ok d' /\
      d = link_cost (topo s) switch nexthop + d'.
Proof.
  intros Hwf Hadj. rewrite dijkstra_snd, compute_nexthops_snd. intros HD.
  rewrite HD. cbn [res_bind snd]. intros Ht switch dests host nexthop Hrow Hin.
  apply dict_get_In in Hrow.
  destruct (nexthops_table_In _ _ _ _ Ht _ _ Hrow) as [[]|[_ Hr]].
  destruct (nexthops_row_sound _ _ _ _ Hr _ _ Hin) as [[]|(_ & path & Hp & Hn)].
  destruct (@dijkstra_result_inv _ _ _ _ Hwf Hadj HD)
    as (G' & r & HG & Hr' & -> & -> & Hwf' & Hadj' & Hnodes & Hattr).
  destruct (@all_pairs_shortest G' r (proj1 Hadj') Hr' switch host) as (F1 & F2 & F3).
  destruct (F2 _ Hp) as [d Hd]. destruct (F1 _ Hd) as (Hmem & p & Hp' & Hw & Hc).
  assert (p = path) as -> by congruence.
  destruct (@walk_second_split _ _ _ _ _ Hw Hn) as (p2 & Hw2 & Hc2).
  assert (He : has_edge G' switch nexthop)
    by exact (walk_consecutive Hw _ (walk_head Hw) Hn).
  destruct (@all_pairs_shortest G' r (proj1 Hadj') Hr' nexthop host) as (N1 & _ & N3).
  destruct (N3 p2 (@wf_neighbour_node _ _ _ Hwf' Hadj' He) Hw2) as (d' & Hd' & Hle').
  destruct (N1 _ Hd') as (_ & p' & _ & Hw' & Hc').
  destruct (@walk_prepend _ _ _ _ _ He Hw') as [Hw3 Hc3].
  destruct (F3 _ Hmem Hw3) as (d2 & Hd2 & Hle2).
  assert (d2 = d) as -> by congruence.
  exists d, d'. split; [exact Hd|]. split; [exact Hd'|].
  assert (link_cost (topo s) switch nexthop = link_cost G' switch nexthop) as ->.
  { apply has_edge_attr in He. destruct He as [e He].
    unfold link_cost. now rewrite He, (Hattr _ _ _ He). }
  lia.
Qed.

Lemma nexthop_on_shortest_path_witness :
  exists d d',
    lookup2 (fst ring3_tables) "s1" "h2" = Ok d /\
    lookup2 (fst ring3_tables) "s3" "h2" = Ok d' /\
    d = link_cost (topo (initial_state ring3 2)) "s1" "s3" + d'.
Proof.
  apply (@nexthop_on_shortest_path ring3_failures (initial_state ring3 2)
           (fst ring3_tables) (snd ring3_tables) ring3_nexthops
           ring3_wf ring3_wf_adj
           ltac:(vm_compute; reflexivity) ltac:(vm_compute; reflexivity)
           "s1" [("h1", "h1"); ("h2", "s3"); ("h3", "s3")] "h2" "s3").
  - reflexivity.
  - right. left. reflexivity.
Defined.

(** X6. A recorded alternate is loop-free in the graph, for link weights
    that are non-negative integers: on a topology as networkx keeps it, the
    path the path table has from an alternate that [compute_lfas] records
    for a switch and a host, to that host, does not pass through the
    switch. *)
Theorem lfa_path_avoids_switch (set_iter : forall A : Type, list A -> list A)
  (nexthops : Dict (list (Node * Node))) (failures : option (list Edge))
  (s : State) (D : DistTable) (P : PathTable) (lfas : Dict (Dict Node)) :
  wf_graph (topo s) -> wf_adj (topo s) ->
  snd (dijkstra failures s) = Ok (D, P) ->
  snd (compute_lfas set_iter nexthops failures s) = Ok lfas ->
  forall switch host alt p,
    lookup2 lfas switch host = Ok alt -> lookup2 P alt host = Ok p ->
    ~ In switch p.
Proof.
  intros Hwf Hadj. rewrite dijkstra_snd, compute_lfas_snd. intros HD.
  rewrite HD. cbn [res_bind fst]. intros Hl switch host alt p Hlk Hp Hin.
  destruct (lookup2_In _ _ _ Hlk) as (row & Hrow & Halt).
  destruct (lfa_switches_sound _ _ _ _ Hl _ _ Hrow _ _ Halt)
    as (dah & das & dsh & Hdah & Hdas & Hdsh & Hlt).
  destruct (@dijkstra_result_inv _ _ _ _ Hwf Hadj HD)
    as (G' & r & HG & Hr' & -> & -> & Hwf' & Hadj' & Hnodes & Hattr).
  destruct (@all_pairs_shortest G' r (proj1 Hadj') Hr' alt host) as (A1 & _ & _).
  destruct (A1 _ Hdah) as (Hmem & p0 & Hp0 & Hw & Hc).
  assert (p0 = p) as -> by congruence.
  destruct (@walk_split _ _ _ _ _ Hw Hin) as (p1 & p2 & Hw1 & Hw2 & Hsum).
  destruct (@all_pairs_shortest G' r (proj1 Hadj') Hr' alt switch) as (_ & _ & B3).
  destruct (B3 _ Hmem Hw1) as (das' & Hdas' & Hle1).
  destruct (@all_pairs_shortest G' r (proj1 Hadj') Hr' switch host) as (C1 & _ & C3).
  destruct (C1 _ Hdsh) as (Hmem' & _).
  destruct (C3 _ Hmem' Hw2) as (dsh' & Hdsh' & Hle2).
  assert (das' = das) by congruence. assert (dsh' = dsh) by congruence. lia.
Qed.

Lemma lfa_path_avoids_switch_witness :
  lookup2 ring3_lfas "s1" "h3" = Ok "s2" /\
  lookup2 (snd ring3_tables) "s2" "h3" = Ok ["s2"; "s3"; "h3"] /\
  ~ In "s1" ["s2"; "s3"; "h3"].
Proof.
  split; [reflexivity|]. split; [reflexivity|].
  apply (@lfa_path_avoids_switch insertion_order ring3_nexthops ring3_failures
           (initial_state ring3 2) (fst ring3_tables) (snd ring3_tables)
           ring3_lfas ring3_wf ring3_wf_adj
           ltac:(vm_compute; reflexivity) ltac:(vm_compute; reflexivity)
           "s1" "h3" "s2" ["s2"; "s3"; "h3"]); reflexivity.
Defined.

(* ================================================================== *)
(** ** When [update_nexthops] returns *)

(** Whatever two nodes, a walk joins them that uses none of the links
    [fs]. *)
Definition connected_without (G : NetworkGraph) (fs : list Edge) : Prop :=
  forall a b, dict_mem (g_node G) a = true -> dict_mem (g_node G) b = true ->
  exists q, walk G a b q /\ avoids fs q.

Lemma res_fold_total {A S} (body : A -> S -> Res S) l :
  (forall x acc, In x l -> exists acc', body x acc = Ok acc') ->
  forall acc, exists r, res_fold l acc body = Ok r.
Proof.
  induction l as [|x t IH]; simpl; intros Hb acc; [eauto|].
  destruct (Hb x acc (or_introl eq_refl)) as [acc' ->]. simpl.
  apply IH. intros y a Hy. apply Hb. now right.
Qed.

Section LfaTotal.
Variable set_iter : forall A : Type, list A -> list A.
Hypothesis set_iter_sub : forall A (l : list A) x, In x (set_iter l) -> In x l.
Variable G : NetworkGraph.
Variable D : DistTable.
Hypothesis Dfull :
  forall a b, dict_mem (g_node G) a = true -> dict_mem (g_node G) b = true ->
  exists d, lookup2 D a b = Ok d.

Lemma lfa_round_total switch host alternate vars :
  dict_mem (g_node G) switch = true -> dict_mem (g_node G) host = true ->
  dict_mem (g_node G) alternate = true ->
  exists vars', lfa_round D switch host alternate vars = Ok vars'.
Proof.
  intros Hs Hh Ha. unfold lfa_round. destruct vars as [noloop row].
  destruct (Dfull _ _ Ha Hh) as [dah ->]. destruct (Dfull _ _ Ha Hs) as [das ->].
  destruct (Dfull _ _ Hs Hh) as [dsh ->]. destruct (Dfull _ _ Hs Ha) as [dsa ->].
  cbn [res_bind]. destruct (dah <? das + dsh); cbn [res_bind].
  - destruct (noloop ++ [(alternate, dsa + dah)]) as [|x t] eqn:E.
    + destruct noloop; discriminate E.
    + destruct (@py_min_some (x :: t)) as [m ->]; [discriminate|].
      cbn [of_option res_bind]. eauto.
  - destruct noloop as [|x t]; [eauto|].
    destruct (@py_min_some (x :: t)) as [m ->]; [discriminate|].
    cbn [of_option res_bind]. eauto.
Qed.

Lemma lfa_destination_total switch connected dest row :
  dict_mem (g_node G) switch = true -> dict_mem (g_node G) (fst dest) = true ->
  (forall a, In a connected -> dict_mem (g_node G) a = true) ->
  exists row', lfa_destination set_iter D switch connected dest row = Ok row'.
Proof.
  intros Hs Hh Hc. unfold lfa_destination. destruct dest as [host nexthop].
  destruct (String.eqb nexthop host); [eauto|].
  match goal with
  | |- context [res_fold ?l ?a0 ?b] =>
      assert (Ht : forall a1, exists r, res_fold l a1 b = Ok r);
        [apply res_fold_total | destruct (Ht a0) as [vars ->]]
  end.
  - intros alt vars Hin. apply lfa_round_total; auto.
    apply Hc. apply set_iter_sub in Hin. apply filter_In in Hin. tauto.
  - cbn [res_bind]. eauto.
Qed.

Lemma lfa_switches_total (nexthops : Dict (list (Node * Node))) :
  wf_graph G ->
  (forall switch dests, In (switch, dests) nexthops ->
     dict_mem (g_node G) switch = true /\
     forall dest, In dest dests -> dict_mem (g_node G) (fst dest) = true) ->
  exists lfas, lfa_switches set_iter G D nexthops = Ok lfas.
Proof.
  intros Hwf Hn. unfold lfa_switches. apply res_fold_total.
  intros [switch dests] lfas Hin. destruct (Hn _ _ Hin) as [Hs Hd].
  unfold get_p4switches_connected_to.
  destruct (dict_get (g_adj G) switch) as [nbrs|] eqn:En;
    [|exfalso; exact (@wf_adjacency G switch Hwf Hs En)].
  cbn [res_bind]. cbv zeta.
  match goal with
  | |- context [res_fold ?l ?a0 ?b] =>
      assert (Ht : forall a1, exists r, res_fold l a1 b = Ok r);
        [apply res_fold_total
        | destruct (Ht a0) as [row Hrow]; unfold Dict in Hrow; rewrite Hrow]
  end.
  - intros dest row Hdest. apply lfa_destination_total; auto.
    intros a Ha. apply nodup_In, filter_In in Ha. destruct Ha as [_ Ha].
    unfold isP4Switch_node in Ha. unfold dict_mem.
    destruct (dict_get (g_node G) a); [reflexivity | discriminate].
  - cbn [res_bind]. eauto.
Qed.

End LfaTotal.

Lemma install_switch_primary G ctl lfas switch dests :
  eff_res (install_switch_eff G ctl lfas (switch, dests)) = Ok tt ->
  incl (eff_cmds (eff_each dests (install_primary_eff G switch)))
       (eff_cmds (install_switch_eff G ctl lfas (switch, dests))).
Proof.
  unfold install_switch_eff. intros H.
  apply eff_bind_ok in H. destruct H as ([] & _ & H & _ & ->).
  apply eff_bind_ok in H. destruct H as ([] & _ & H & _ & ->).
  apply eff_bind_ok in H. destruct H as ([] & _ & H & _ & ->).
  apply incl_appr, incl_appr, incl_appl, incl_refl.
Qed.

Lemma host_is_node G h : In h (get_hosts G) -> dict_mem (g_node G) h = true.
Proof.
  intros Hh. apply dict_keys_mem. unfold get_hosts, dict_keys in *.
  apply in_map_iff in Hh. destruct Hh as (x & <- & Hx).
  apply filter_In in Hx. apply in_map. tauto.
Qed.

(** When what is left of the network is connected, every loop of
    [update_nexthops] goes through. *)
Lemma update_nexthops_total (set_iter : forall A : Type, list A -> list A)
  (failures : option (list Edge)) (s : State) :
  (forall A (l : list A) x, In x (set_iter A l) -> In x l) ->
  wf_graph (topo s) -> wf_adj (topo s) ->
  present_once (topo s) (failed failures) ->
  (forall c, In c (controllers s) ->
     dict_mem (g_node (topo s)) c = true /\ ~ In c (get_hosts (topo s))) ->
  connected_without (topo s) (failed failures) ->
  snd (update_nexthops set_iter failures s) = Ok tt /\
  forall switch host, In switch (controllers s) -> In host (get_hosts (topo s)) ->
    exists i p,
      host_index (topo s) host = Ok i /\
      In (register_write switch "primaryNH" i p)
         (rpc (fst (update_nexthops set_iter failures s))).
Proof.
  intros Hsub Hwf Hadj Hp Hctl Hconn.
  destruct (dijkstra_total failures s Hwf Hp) as (G' & r & HG & Hwf' & Hr & HD).
  rewrite dijkstra_snd in HD. destruct (tables_of r) as [D P].
  destruct (dijkstra_result_walk _ _ HD) as (G'' & HG'' & Hwalk).
  assert (Hfull : forall a b, dict_mem (g_node (topo s)) a = true ->
            dict_mem (g_node (topo s)) b = true ->
            exists d, lookup2 D a b = Ok d).
  { intros a b Ha Hb. destruct (Hconn a b Ha Hb) as (q & Hw & Hav).
    destruct (@dijkstra_result_shortest _ failures _ _ Hwf Hadj HD a b)
      as (_ & _ & F3).
    destruct (F3 q Ha Hw Hav) as (d & Hd & _). eauto. }
  destruct (nexthops_table_total P (get_hosts (topo s)) (controllers s) [])
    as [nexthops Hnh].
  { intros switch Hsw. apply nexthops_row_total. intros host path Hh Hpath Hnone.
    destruct (walk_second (Hwalk _ _ _ Hpath)) as [n Hn]; [|congruence].
    intros ->. exact (proj2 (Hctl _ Hsw) Hh). }
  destruct (@lfa_switches_total set_iter Hsub (topo s) D Hfull nexthops Hwf)
    as [lfas Hl].
  { intros switch dests Hin.
    destruct (nexthops_table_In _ _ _ _ Hnh _ _ Hin) as [[]|[Hsw Hrow]].
    split; [apply Hctl, Hsw|]. intros [host nexthop] Hd.
    destruct (nexthops_row_sound _ _ _ _ Hrow _ _ Hd) as [[]|(Hh & _)].
    now apply host_is_node. }
  destruct (update_eff_eq set_iter (topo s) (controllers s) failures HD Hnh Hl)
    as (Hres & Hcmds & _).
  destruct (update_nexthops_run set_iter failures s) as [cs Hrun].
  cbv zeta in Hrun.
  assert (Hpair : forall switch dests host nexthop,
            In (switch, dests) nexthops -> In (host, nexthop) dests ->
            exists i p,
              host_index (topo s) host = Ok i /\
              node_to_node_port_num (topo s) switch nexthop = Ok p /\
              eff_res (install_primary_eff (topo s) switch (host, nexthop)) = Ok tt /\
              eff_res (install_lfa_eff (topo s) lfas switch (host, nexthop)) = Ok tt).
  { intros switch dests host nexthop Hsw Hd.
    destruct (@recorded_pair _ _ _ _ _ _ _ _ _ Hwf HD Hnh Hsw Hd) as (_ & Hh & He & _).
    destruct (host_index_defined _ _ Hh) as [i Hi].
    destruct (port_of_link He) as [p Hport].
    exists i, p. split; [exact Hi|]. split; [exact Hport|].
    unfold install_primary_eff, install_lfa_eff, eff_res, eff_bind, eff_ret.
    rewrite Hi, Hport. simpl. split; [reflexivity|].
    destruct (String.eqb host nexthop); [reflexivity|].
    destruct (lookup2 lfas switch host) as [alt|e] eqn:El; simpl.
    - destruct (lookup2_In _ _ _ El) as (row & Hrow & Halt).
      assert (Ha := lfa_switches_member set_iter Hsub _ _ _ Hl _ _ Hrow _ _ Halt).
      destruct (port_of_link Ha) as [q ->]. reflexivity.
    - rewrite Hport. reflexivity. }
  assert (Htotal : eff_res (eff_each nexthops
                              (install_switch_eff (topo s) (controllers s) lfas))
                   = Ok tt).
  { apply eff_each_total. intros [switch dests] Hsw.
    apply install_switch_total.
    - now destruct (nexthops_table_In _ _ _ _ Hnh _ _ Hsw) as [[]|[H _]].
    - intros [host nexthop] Hd.
      destruct (Hpair _ _ _ _ Hsw Hd) as (i & p & _ & _ & H1 & H2). auto. }
  rewrite Hrun. cbn [fst snd]. split; [now rewrite Hres|].
  intros switch host Hsw Hh.
  destruct (nexthops_table_rows _ _ _ _ Hnh switch) as [Hrows _].
  destruct (Hrows Hsw) as (row & Hrow & Hget).
  destruct (nexthops_row_complete _ _ _ _ Hrow) as [_ Hall].
  specialize (Hall _ Hh).
  destruct (Hfull switch host (proj1 (Hctl _ Hsw)) (host_is_node _ _ Hh)) as [d Hd].
  destruct (@dijkstra_result_shortest _ failures _ _ Hwf Hadj HD switch host)
    as (F1 & _ & _).
  destruct (F1 d Hd) as (_ & path & Hpath & _). rewrite Hpath in Hall.
  destruct Hall as (nexthop & _ & Hin).
  apply dict_get_In in Hget.
  destruct (Hpair _ _ _ _ Hget Hin) as (i & p & Hi & Hport & _ & _).
  exists i, p. split; [exact Hi|].
  cbn [rpc upd recorded]. apply in_or_app. right. rewrite Hcmds.
  destruct (eff_each_ok _ _ Htotal _ Hget) as (Hsres & _ & Hscmds).
  apply Hscmds, (install_switch_primary _ _ _ _ _ Hsres).
  assert (Hprim : eff_res (eff_each row (install_primary_eff (topo s) switch))
                  = Ok tt).
  { apply eff_each_total. intros [h n] Hd'.
    now destruct (Hpair _ _ _ _ Hget Hd') as (_ & _ & _ & _ & H1 & _). }
  destruct (eff_each_ok _ _ Hprim _ Hin) as (_ & _ & Hpcmds).
  apply Hpcmds. unfold install_primary_eff, eff_cmds, eff_bind.
  rewrite Hi, Hport. now left.
Qed.

(** X7. [update_nexthops] returns when what is left of the network is
    connected: on a topology as networkx keeps it, with failures that are
    links of the topology, each listed once, and switches that are nodes and
    not hosts, if a walk that uses no failed link joins any two nodes, then
    [update_nexthops] raises nothing, and it writes a primary next hop for
    every host on every switch. *)
Theorem update_nexthops_returns (set_iter : forall A : Type, list A -> list A)
  (failures : option (list Edge)) (s : State) :
  (forall A (l : list A) x, In x (set_iter A l) -> In x l) ->
  wf_graph (topo s) -> wf_adj (topo s) ->
  present_once (topo s) (failed failures) ->
  (forall c, In c (controllers s) ->
     dict_mem (g_node (topo s)) c = true /\ ~ In c (get_hosts (topo s))) ->
  connected_without (topo s) (failed failures) ->
  snd (update_nexthops set_iter failures s) = Ok tt /\
  forall switch host, In switch (controllers s) -> In host (get_hosts (topo s)) ->
    exists i p,
      host_index (topo s) host = Ok i /\
      In (register_write switch "primaryNH" i p)
         (rpc (fst (update_nexthops set_iter failures s))).
Proof. apply update_nexthops_total. Qed.

(** A check of [connected_without] on the tables [dijkstra] returns. *)
Definition all_entriesb (D : DistTable) (nodes : list Node) : bool :=
  forallb (fun a =>
    forallb (fun b => match lookup2 D a b with Ok _ => true | Raise _ => false end)
      nodes) nodes.

Lemma connected_by_tables G failures D P :
  wf_graph G -> wf_adj G -> dijkstra_result G failures = Ok (D, P) ->
  all_entriesb D (dict_keys (g_node G)) = true ->
  connected_without G (failed failures).
Proof.
  intros Hwf Hadj HD Hall a b Ha Hb. unfold all_entriesb in Hall.
  rewrite forallb_forall in Hall. specialize (Hall a (dict_mem_keys _ _ Ha)).
  rewrite forallb_forall in Hall. specialize (Hall b (dict_mem_keys _ _ Hb)).
  destruct (lookup2 D a b) as [d|] eqn:Hd; [|discriminate].
  destruct (@dijkstra_result_shortest _ failures _ _ Hwf Hadj HD a b) as (F1 & _ & _).
  destruct (F1 d Hd) as (_ & p & _ & Hw & Hav & _). eauto.
Qed.

Lemma update_nexthops_returns_witness :
  snd (update_nexthops insertion_order ring3_failures (initial_state ring3 2))
  = Ok tt /\
  forall switch host,
    In switch (controllers (initial_state ring3 2)) ->
    In host (get_hosts (topo (initial_state ring3 2))) ->
    exists i p,
      host_index (topo (initial_state ring3 2)) host = Ok i /\
      In (register_write switch "primaryNH" i p)
         (rpc (fst (update_nexthops insertion_order ring3_failures
                      (initial_state ring3 2)))).
Proof.
  apply (@update_nexthops_returns insertion_order ring3_failures
           (initial_state ring3 2)).
  - intros A l x H. exact H.
  - exact ring3_wf.
  - exact ring3_wf_adj.
  - simpl. split; [|split; [intros g []|exact I]].
    apply has_edgeb_spec. vm_compute. reflexivity.
  - intros c Hc. vm_compute in Hc.
    destruct Hc as [<-|[<-|[<-|[]]]]; (split; [reflexivity|]);
      vm_compute; intuition congruence.
  - apply (@connected_by_tables ring3 ring3_failures
             (fst ring3_tables) (snd ring3_tables) ring3_wf ring3_wf_adj);
      vm_compute; reflexivity.
Defined.

(* ------------------------------------------------------------------ *)
(** *** When [update_nexthops] aborts *)

Lemma res_fold_raises {A S} (body : A -> S -> Res S) (l : list A) x :
  In x l -> (forall a, exists e, body x a = Raise e) ->
  forall acc, exists e, res_fold l acc body = Raise e.
Proof.
  induction l as [|y t IH]; simpl; [tauto|]. intros [->|Hin] Hx acc.
  - destruct (Hx acc) as [e ->]. simpl. eauto.
  - destruct (body y acc) as [a'|e]; simpl; eauto.
Qed.

Lemma res_fold_exn {A S} (Q : exn -> Prop) (body : A -> S -> Res S) (l : list A) :
  (forall x a e, In x l -> body x a = Raise e -> Q e) ->
  forall acc e, res_fold l acc body = Raise e -> Q e.
Proof.
  induction l as [|y t IH]; simpl; intros Hb acc e; [discriminate|].
  destruct (body y acc) as [a'|e'] eqn:E; simpl.
  - apply IH. intros x a e0 Hx. apply Hb. now right.
  - intros [= <-]. exact (Hb y acc e' (or_introl eq_refl) E).
Qed.

Lemma lookup2_exn {V} (d : Dict (Dict V)) a b e :
  lookup2 d a b = Raise e -> e = KeyError.
Proof.
  unfold lookup2. destruct (dict_get d a) as [row|]; [|now intros [= <-]].
  destruct (dict_get row b); [discriminate | now intros [= <-]].
Qed.

(** The lookups of [compute_lfas] are its only source of exceptions. *)
Lemma lfa_round_exn D switch host alternate vars e :
  lfa_round D switch host alternate vars = Raise e -> e = KeyError.
Proof.
  unfold lfa_round. destruct vars as [noloop switch_lfas].
  destruct (lookup2 D alternate host) as [dah|x] eqn:E1; cbn [res_bind];
    [|intros [= <-]; exact (lookup2_exn _ _ _ E1)].
  destruct (lookup2 D alternate switch) as [das|x] eqn:E2; cbn [res_bind];
    [|intros [= <-]; exact (lookup2_exn _ _ _ E2)].
  destruct (lookup2 D switch host) as [dsh|x] eqn:E3; cbn [res_bind];
    [|intros [= <-]; exact (lookup2_exn _ _ _ E3)].
  destruct (dah <? das + dsh).
  - destruct (lookup2 D switch alternate) as [dsa|x] eqn:E4; cbn [res_bind];
      [|intros [= <-]; exact (lookup2_exn _ _ _ E4)].
    destruct (noloop ++ [(alternate, dsa + dah)]) as [|y t] eqn:En;
      [discriminate|].
    destruct (@py_min_some (y :: t)) as [m ->]; [discriminate|]. discriminate.
  - cbn [res_bind]. destruct noloop as [|y t]; [discriminate|].
    destruct (@py_min_some (y :: t)) as [m ->]; [discriminate|]. discriminate.
Qed.

Section LfaAborts.
Variable set_iter : forall A : Type, list A -> list A.
Variable D : DistTable.

Lemma lfa_destination_exn switch connected dest row e :
  lfa_destination set_iter D switch connected dest row = Raise e -> e = KeyError.
Proof.
  unfold lfa_destination. destruct dest as [host nexthop].
  destruct (String.eqb nexthop host); [discriminate|].
  destruct (res_fold _ _ _) as [v|x] eqn:E; cbn [res_bind]; [discriminate|].
  intros [= <-].
  refine (@res_fold_exn _ _ (fun e => e = KeyError) _ _ _ _ _ E).
  intros c a e0 _. apply lfa_round_exn.
Qed.

Lemma lfa_switches_exn G nexthops e :
  lfa_switches set_iter G D nexthops = Raise e -> e = KeyError.
Proof.
  unfold lfa_switches.
  apply (@res_fold_exn _ _ (fun e => e = KeyError)).
  intros [switch dests] lfas e0 _. unfold get_p4switches_connected_to.
  destruct (dict_get (g_adj G) switch) as [nbrs|]; cbn [res_bind];
    [|now intros [= <-]].
  destruct (res_fold dests _ _) as [row|x] eqn:E; cbn [res_bind]; [discriminate|].
  intros [= <-].
  refine (@res_fold_exn _ _ (fun e => e = KeyError) _ _ _ _ _ E).
  intros dest a e1 _. apply lfa_destination_exn.
Qed.

Hypothesis set_iter_all : forall A (l : list A) x, In x l -> In x (set_iter l).

(** A candidate without a distance to the host makes the whole loop
    raise, wherever it comes in the iteration. *)
Lemma lfa_switches_raises G nexthops switch dests host nexthop nbrs c :
  In (switch, dests) nexthops -> In (host, nexthop) dests -> nexthop <> host ->
  get_p4switches_connected_to G switch = Ok nbrs ->
  In c nbrs -> c <> nexthop ->
  lookup2 D c host = Raise KeyError ->
  lfa_switches set_iter G D nexthops = Raise KeyError.
Proof.
  intros Hsw Hd Hne Hnb Hc Hcn Hl.
  destruct (@res_fold_raises _ _
              (fun (sd : Node * list (Node * Node)) (lfas : Dict (Dict Node)) =>
                 let (switch, destinations) := sd in
                 nbrs <~ get_p4switches_connected_to G switch ;;
                 switch_lfas <~ res_fold destinations []
                                  (lfa_destination set_iter D switch
                                     (nodup string_dec nbrs)) ;;
                 Ok (dict_set lfas switch switch_lfas))
              nexthops (switch, dests) Hsw) with (acc := @nil (Node * Dict Node))
    as [e He].
  - intros lfas. rewrite Hnb. cbn [res_bind].
    destruct (@res_fold_raises _ _
                (lfa_destination set_iter D switch (nodup string_dec nbrs))
                dests (host, nexthop) Hd) with (acc := @nil (Node * Node))
      as [e He].
    + intros row. unfold lfa_destination.
      destruct (String.eqb_spec nexthop host) as [?|_]; [contradiction|].
      destruct (@res_fold_raises _ _ (lfa_round D switch host)
                  (set_iter (filter (fun n => negb (String.eqb n nexthop))
                               (nodup string_dec nbrs))) c)
        with (acc := (@nil (Node * nat), row)) as [e He].
      * apply set_iter_all, filter_In. split; [now apply nodup_In|].
        destruct (String.eqb_spec c nexthop); [contradiction | reflexivity].
      * intros [nl r]. unfold lfa_round. rewrite Hl. cbn [res_bind]. eauto.
      * cbv zeta.
        match goal with
        | |- context [res_fold ?l ?a ?b] =>
            assert (Hx : res_fold l a b = Raise e) by exact He; rewrite Hx
        end.
        cbn [res_bind]. eauto.
    + match goal with
      | |- context [res_fold ?l ?a ?b] =>
          assert (Hx : res_fold l a b = Raise e) by exact He; rewrite Hx
      end.
      cbn [res_bind]. eauto.
  - assert (He' : lfa_switches set_iter G D nexthops = Raise e) by exact He.
    rewrite He'. f_equal. exact (lfa_switches_exn _ _ He').
Qed.

End LfaAborts.

(** X16. [update_nexthops] aborts whenever a neighbour of a switch is cut
    off from a host the switch still reaches: when [compute_nexthops] has
    recorded a pair [(host, nexthop)] for a switch, with [nexthop] other
    than the host, and the distance table has no entry from some other P4
    neighbour [c] of the switch in [self.topo] to that host, [compute_lfas]
    raises [KeyError] and [update_nexthops] with it, in whichever order the
    neighbours are iterated over, before any register has been written:
    no switch gets a route, not even for the pairs that are reachable. *)
Theorem update_nexthops_aborts (set_iter : forall A : Type, list A -> list A)
  (failures : option (list Edge)) (s : State) (D : DistTable) (P : PathTable)
  (nexthops : Dict (list (Node * Node)))
  (switch : Node) (dests : list (Node * Node)) (host nexthop : Node)
  (nbrs : list Node) (c : Node) :
  (forall A (l : list A) x, In x l -> In x (set_iter A l)) ->
  snd (dijkstra failures s) = Ok (D, P) ->
  snd (compute_nexthops failures s) = Ok nexthops ->
  In (switch, dests) nexthops -> In (host, nexthop) dests -> nexthop <> host ->
  get_p4switches_connected_to (topo s) switch = Ok nbrs ->
  In c nbrs -> c <> nexthop ->
  lookup2 D c host = Raise KeyError ->
  snd (compute_lfas set_iter nexthops failures s) = Raise KeyError /\
  snd (update_nexthops set_iter failures s) = Raise KeyError /\
  rpc (fst (update_nexthops set_iter failures s)) = rpc s.
Proof.
  intros Hall HD Hn Hsw Hd Hne Hnb Hc Hcn Hl.
  rewrite dijkstra_snd in HD. rewrite compute_nexthops_snd, HD in Hn.
  cbn [res_bind snd] in Hn.
  assert (Hlfa := @lfa_switches_raises set_iter D Hall (topo s) nexthops
                    switch dests host nexthop nbrs c Hsw Hd Hne Hnb Hc Hcn Hl).
  split.
  { rewrite compute_lfas_snd, HD. exact Hlfa. }
  destruct (update_nexthops_run set_iter failures s) as [cs Hrun].
  cbv zeta in Hrun. rewrite Hrun. cbn [fst snd rpc upd recorded].
  unfold update_eff, nexthops_eff, lfas_res. rewrite HD. cbn [res_bind fst snd].
  destruct (nexthops_table P (get_hosts (topo s)) (controllers s) [])
    as [o r]. cbn [snd] in Hn. subst r. cbn [eff_bind fst snd].
  rewrite Hlfa. unfold eff_res, eff_cmds. cbn [fst snd app].
  split; [reflexivity | now rewrite app_nil_r].
Qed.

Lemma update_nexthops_aborts_witness :
  snd (compute_lfas reverse_order spur_nexthops spur_failures (initial_state spur 1))
  = Raise KeyError /\
  snd (update_nexthops reverse_order spur_failures (initial_state spur 1))
  = Raise KeyError /\
  rpc (fst (update_nexthops reverse_order spur_failures (initial_state spur 1)))
  = rpc (initial_state spur 1).
Proof.
  apply (@update_nexthops_aborts reverse_order spur_failures (initial_state spur 1)
           (fst spur_tables) (snd spur_tables) spur_nexthops
           "s1" [("h1", "h1"); ("h2", "s2")] "h2" "s2" ["s2"; "s3"; "s4"] "s4").
  - intros A l x Hx. unfold reverse_order. now apply in_rev in Hx.
  - vm_compute. reflexivity.
  - vm_compute. reflexivity.
  - vm_compute. auto.
  - simpl. auto.
  - discriminate.
  - vm_compute. reflexivity.
  - simpl. auto.
  - discriminate.
  - vm_compute. reflexivity.
Defined.

(** C7 on [spur] once the link s1-s4 has failed. The switch s4 is cut off
    and the tables have no entry from s4 to either host. [compute_nexthops]
    skips the two pairs, each with its warning, and records every other
    pair. The recomputation as a whole does not go on: [compute_lfas] looks
    up the distance from s4, a neighbour of s1 in [self.topo], to h2; the
    lookup raises [KeyError] and [update_nexthops] ends with it before any
    register has been written, so that the pairs that are reachable get no
    route either. *)
Lemma unreachable_pair_aborts_update :
  let s := initial_state spur 1 in
  snd (dijkstra spur_failures s) = Ok spur_tables /\
  lookup2 (snd spur_tables) "s4" "h1" = Raise KeyError /\
  lookup2 (snd spur_tables) "s4" "h2" = Raise KeyError /\
  lookup2 (fst spur_tables) "s4" "h2" = Raise KeyError /\
  snd (compute_nexthops spur_failures s)
  = Ok [("s1", [("h1", "h1"); ("h2", "s2")]); ("s2", [("h1", "s1"); ("h2", "h2")]);
        ("s3", [("h1", "s1"); ("h2", "s2")]); ("s4", [])] /\
  stdout (fst (compute_nexthops spur_failures s))
  = [out_not_connected; out_cannot_reach "s4" "h1";
     out_not_connected; out_cannot_reach "s4" "h2"] /\
  get_p4switches_connected_to spur "s1" = Ok ["s2"; "s3"; "s4"] /\
  snd (update_nexthops insertion_order spur_failures s) = Raise KeyError /\
  rpc (fst (update_nexthops insertion_order spur_failures s)) = [] /\
  snd (update_nexthops reverse_order spur_failures s) = Raise KeyError /\
  rpc (fst (update_nexthops reverse_order spur_failures s)) = [].
Proof. vm_compute. repeat split; reflexivity. Qed.

(* ================================================================== *)
(** ** The packet loop *)

(** The failure sets after each of the links [new] has been added in turn
    to [base]. *)
Fixpoint growing_sets {A} (base new : list A) : list (list A) :=
  match new with
  | [] => []
  | x :: t => (base ++ [x]) :: growing_sets (base ++ [x]) t
  end.

Lemma growing_sets_app {A} (new1 new2 : list A) : forall base,
  growing_sets base (new1 ++ new2)
  = growing_sets base new1 ++ growing_sets (base ++ new1) new2.
Proof.
  induction new1 as [|x t IH]; simpl; intros base.
  - now rewrite app_nil_r.
  - rewrite IH, <- app_assoc. reflexivity.
Qed.

(** From [s] to [s']: the links [new] have been recorded one after the
    other, each with a recomputation on the links known by then and after
    a full delay; nothing else of the controller has changed. *)
Definition handled (set_iter : forall A : Type, list A -> list A)
  (s s' : State) (new : list Edge) : Prop :=
  failed_links s' = failed_links s ++ new /\
  update_calls s'
  = update_calls s
    ++ map (fun fs => Some (set_iter _ fs)) (growing_sets (failed_links s) new) /\
  clock s + length new * notification_delay s <= clock s' /\
  NoDup new /\ (forall e, In e new -> ~ In e (failed_links s)) /\
  topo s' = topo s /\ controllers s' = controllers s /\
  notification_delay s' = notification_delay s.

Lemma handled_refl set_iter s : handled set_iter s s [].
Proof.
  unfold handled. simpl. rewrite !app_nil_r.
  split; [reflexivity|]. split; [reflexivity|]. split; [lia|].
  split; [constructor|]. split; [intros e []|]. auto.
Qed.

Lemma handled_trans set_iter s1 s2 s3 n1 n2 :
  handled set_iter s1 s2 n1 -> handled set_iter s2 s3 n2 ->
  handled set_iter s1 s3 (n1 ++ n2).
Proof.
  intros (F1 & U1 & C1 & N1 & D1 & T1 & K1 & L1)
         (F2 & U2 & C2 & N2 & D2 & T2 & K2 & L2).
  unfold handled. rewrite F2, F1, U2, U1, F1, T2, T1, K2, K1, L2, L1.
  rewrite growing_sets_app, map_app, <- !app_assoc, length_app.
  split; [reflexivity|]. split; [reflexivity|].
  split; [rewrite L1 in C2; lia|]. split; [|split; [|auto]].
  - apply NoDup_app; auto. intros e H1 H2. apply (D2 e H2).
    rewrite F1. apply in_or_app. now right.
  - intros e He Hin. apply in_app_or in He. destruct He as [He|He].
    + exact (D1 e He Hin).
    + apply (D2 e He). rewrite F1. apply in_or_app. now left.
Qed.

Lemma process_packet_handled set_iter pkt s :
  exists new, length new <= 1 /\
    handled set_iter s (fst (process_packet set_iter pkt s)) new /\
    forall e, In e new -> notified_link (topo s) pkt = Ok (Some e).
Proof.
  rewrite process_packet_run.
  destruct (notified_link (topo s) pkt) as [[e|]|x] eqn:En;
    try (exists []; split; [simpl; lia|]; split; [apply handled_refl | intros ? []]).
  destruct (set_mem e (failed_links s)) eqn:Em;
    try (exists []; split; [simpl; lia|]; split; [apply handled_refl | intros ? []]).
  exists [e]. split; [simpl; lia|]. split; [|now intros ? [<-|[]]].
  unfold failure_notification.
  destruct (update_nexthops_frame set_iter
              (Some (set_iter _ (set_add e (failed_links s))))
              (announced s e)) as (H1 & H2 & H3 & H4 & H5 & H6).
  simpl in H1, H2, H3, H4, H5, H6. unfold handled.
  rewrite H1, H2, H3, H4, H5, H6. unfold set_add. rewrite Em. simpl.
  split; [reflexivity|]. split; [reflexivity|]. split; [lia|].
  split; [|split; [|auto]].
  - constructor; [intros [] | constructor].
  - intros x [<-|[]] Hin. apply set_mem_In in Hin. congruence.
Qed.

Lemma wait_until_handled set_iter t s :
  handled set_iter s (fst (wait_until t s)) [].
Proof.
  unfold handled, wait_until. simpl. rewrite !app_nil_r.
  split; [reflexivity|]. split; [reflexivity|]. split; [lia|].
  split; [constructor|]. split; [intros e []|]. auto.
Qed.

Lemma run_cpu_port_loop_handled set_iter arrivals : forall s,
  exists new, length new <= length arrivals /\
    handled set_iter s (fst (run_cpu_port_loop set_iter arrivals s)) new.
Proof.
  unfold run_cpu_port_loop, for_each.
  induction arrivals as [|[t pkt] rest IH]; intros s; cbn [for_fold].
  - exists []. split; [simpl; lia | apply handled_refl].
  - unfold bind at 1. unfold bind at 1. cbn [fst snd].
    assert (Hw := wait_until_handled set_iter t s).
    destruct (wait_until t s) as [s1 [[]|e]] eqn:Ew; [|discriminate Ew].
    cbn [fst] in Hw.
    destruct (process_packet_handled set_iter pkt s1) as (n1 & Hl1 & Hp & _).
    destruct (process_packet set_iter pkt s1) as [s2 [[]|e]]; cbn [fst] in *.
    + destruct (IH s2) as (n2 & Hl2 & H2).
      exists (n1 ++ n2). split; [rewrite length_app; simpl; lia|].
      exact (handled_trans (handled_trans Hw Hp) H2).
    + exists n1. split; [simpl; lia|]. exact (handled_trans Hw Hp).
Qed.

(* ------------------------------------------------------------------ *)
(** *** A burst of notifications *)

(** [process_packet] called for each frame in turn, whatever the call
    before has returned or raised. *)
Definition process_in_turn (set_iter : forall A : Type, list A -> list A)
  (pkts : list Packet) (s : State) : State :=
  fold_left (fun st pkt => fst (process_packet set_iter pkt st)) pkts s.

(** The frames are failure notifications, the i-th for the i-th link. *)
Definition notifications (G : NetworkGraph) (pkts : list Packet)
  (links : list Edge) : Prop :=
  Forall2 (fun pkt e => notified_link G pkt = Ok (Some e)) pkts links.

Lemma process_packet_new set_iter pkt s e :
  notified_link (topo s) pkt = Ok (Some e) -> ~ In e (failed_links s) ->
  let s' := fst (process_packet set_iter pkt s) in
  handled set_iter s s' [e] /\ clock s' = clock s + notification_delay s.
Proof.
  intros Hn Hni. cbv zeta.
  assert (Hm : set_mem e (failed_links s) = false).
  { destruct (set_mem e (failed_links s)) eqn:E; [|reflexivity].
    apply set_mem_In in E. contradiction. }
  destruct (notification_handled_alone set_iter pkt s Hn Hm) as (Hc & Hf & Hu).
  split; [|exact Hc].
  rewrite process_packet_run, Hn, Hm in *. unfold failure_notification in *.
  destruct (update_nexthops_frame set_iter
              (Some (set_iter _ (set_add e (failed_links s))))
              (announced s e)) as (H1 & H2 & H3 & _ & _ & _).
  simpl in H1, H2, H3. unfold handled.
  rewrite Hf, Hu, Hc, H1, H2, H3. simpl.
  split; [reflexivity|]. split; [reflexivity|]. split; [lia|].
  split; [constructor; [intros [] | constructor]|].
  split; [intros x [<-|[]]; exact Hni | auto].
Qed.

Lemma handled_fresh set_iter s s1 e rest :
  handled set_iter s s1 [e] -> NoDup (e :: rest) ->
  (forall x, In x (e :: rest) -> ~ In x (failed_links s)) ->
  NoDup rest /\ forall x, In x rest -> ~ In x (failed_links s1).
Proof.
  intros (F & _) Hnd Hni. inversion Hnd as [|? ? He Hr]; subst.
  split; [exact Hr|]. intros x Hx Hin. rewrite F in Hin.
  apply in_app_or in Hin. destruct Hin as [Hin|[<-|[]]].
  - apply (Hni x); [now right | exact Hin].
  - contradiction.
Qed.

Lemma process_in_turn_new set_iter pkts : forall new s,
  notifications (topo s) pkts new -> NoDup new ->
  (forall e, In e new -> ~ In e (failed_links s)) ->
  let s' := process_in_turn set_iter pkts s in
  handled set_iter s s' new /\
  clock s' = clock s + length new * notification_delay s.
Proof.
  unfold process_in_turn, notifications.
  induction pkts as [|pkt rest IH]; intros new s Hall Hnd Hni;
    inversion Hall as [|? e ? new' Hn Hrest]; subst; cbn [fold_left length].
  - split; [apply handled_refl | simpl; lia].
  - destruct (@process_packet_new set_iter pkt s e Hn (Hni e (or_introl eq_refl)))
      as [H1 Hc1].
    destruct (handled_fresh H1 Hnd Hni) as [Hnd' Hni'].
    assert (Ht : topo (fst (process_packet set_iter pkt s)) = topo s)
      by (destruct H1 as (_ & _ & _ & _ & _ & T & _); exact T).
    assert (Hd : notification_delay (fst (process_packet set_iter pkt s))
                 = notification_delay s)
      by (destruct H1 as (_ & _ & _ & _ & _ & _ & _ & L); exact L).
    destruct (IH new' (fst (process_packet set_iter pkt s))) as [H2 Hc2];
      [now rewrite Ht | exact Hnd' | exact Hni' |].
    split; [exact (handled_trans H1 H2)|].
    rewrite Hc2, Hc1, Hd. simpl. lia.
Qed.

Lemma run_cpu_port_loop_cons set_iter t pkt rest s :
  run_cpu_port_loop set_iter ((t, pkt) :: rest) s
  = match process_packet set_iter pkt (fst (wait_until t s)) with
    | (s1, Ok _) => run_cpu_port_loop set_iter rest s1
    | (s1, Raise e) => (s1, Raise e)
    end.
Proof.
  unfold run_cpu_port_loop, for_each. cbn [for_fold fst snd].
  unfold bind at 1. unfold bind at 1. unfold wait_until at 1. cbn [fst].
  destruct (process_packet set_iter pkt _) as [s1 [[]|e]]; reflexivity.
Qed.

Lemma run_cpu_port_loop_new set_iter arrivals : forall new s,
  notifications (topo s) (map snd arrivals) new -> NoDup new ->
  (forall e, In e new -> ~ In e (failed_links s)) ->
  exists k, k <= length new /\
    handled set_iter s (fst (run_cpu_port_loop set_iter arrivals s)) (firstn k new) /\
    (snd (run_cpu_port_loop set_iter arrivals s) = Ok tt -> k = length new) /\
    (forall j, j < length new ->
       snd (run_cpu_port_loop set_iter (firstn j arrivals) s) = Ok tt -> j < k).
Proof.
  unfold notifications.
  induction arrivals as [|[t pkt] rest IH]; intros new s Hall Hnd Hni;
    inversion Hall as [|? e ? new' Hn Hrest]; subst.
  - exists 0. split; [simpl; lia|]. split; [apply handled_refl|].
    split; [reflexivity | simpl; intros j Hj; lia].
  - assert (Hpre : forall j,
              run_cpu_port_loop set_iter (firstn (S j) ((t, pkt) :: rest)) s
              = match process_packet set_iter pkt (fst (wait_until t s)) with
                | (s1, Ok _) => run_cpu_port_loop set_iter (firstn j rest) s1
                | (s1, Raise e) => (s1, Raise e)
                end)
      by (intros j; cbn [firstn]; apply run_cpu_port_loop_cons).
    rewrite run_cpu_port_loop_cons.
    assert (Hw := wait_until_handled set_iter t s).
    set (s0 := fst (wait_until t s)) in *.
    assert (Hf0 : failed_links s0 = failed_links s)
      by (destruct Hw as (F & _); rewrite F; apply app_nil_r).
    assert (Ht0 : topo s0 = topo s)
      by (destruct Hw as (_ & _ & _ & _ & _ & T & _); exact T).
    assert (Hni0 : forall x, In x (e :: new') -> ~ In x (failed_links s0))
      by (intros x Hx; rewrite Hf0; now apply Hni).
    destruct (@process_packet_new set_iter pkt s0 e) as [H1 _];
      [now rewrite Ht0 | apply Hni0; now left |].
    destruct (handled_fresh H1 Hnd Hni0) as [Hnd' Hni'].
    assert (Ht1 : topo (fst (process_packet set_iter pkt s0)) = topo s)
      by (destruct H1 as (_ & _ & _ & _ & _ & T & _); now rewrite T).
    destruct (process_packet set_iter pkt s0) as [s1 [[]|x]]; cbn [fst snd] in *.
    + destruct (IH new' s1) as (k & Hk & H2 & Hok & Hmore);
        [now rewrite Ht1 | exact Hnd' | exact Hni' |].
      exists (S k). split; [simpl; lia|]. split; [|split].
      * exact (handled_trans (handled_trans Hw H1) H2).
      * intros Hr. simpl. f_equal. now apply Hok.
      * intros [|j] Hj Hr; [lia|]. rewrite Hpre in Hr.
        simpl in Hj. assert (j < k); [apply Hmore; [lia | exact Hr] | lia].
    + exists 1. split; [simpl; lia|]. split; [|split].
      * exact (handled_trans Hw H1).
      * discriminate.
      * intros [|j] Hj Hr; [lia|]. rewrite Hpre in Hr. discriminate Hr.
Qed.

(** C3, amended. Notifications are never coalesced, each is handled by a
    call of its own. When [process_packet] is called in turn for
    notifications of N distinct links that are not yet in [failed_links],
    whatever each call returns or raises, every call blocks for the delay,
    adds its link and calls [update_nexthops] once: N recomputations are
    started, the k-th on the links known before and the first k new ones,
    the last on all of them, and N delays have passed. Where an exception of
    a call ends the sniffer's loop (a call being made once the frame has
    arrived and the call before has returned), the notifications handled are
    the first k, each with its own recomputation as above; k is N when the
    loop returns, and k is more than j whenever the loop on the first j
    frames alone returns (the first notification is always handled, the
    second when the call for the first has returned, and so on). *)
Theorem notifications_handled_in_turn
  (set_iter : forall A : Type, list A -> list A)
  (arrivals : list (nat * Packet)) (new : list Edge) (s : State) :
  notifications (topo s) (map snd arrivals) new ->
  NoDup new ->
  (forall e, In e new -> ~ In e (failed_links s)) ->
  (let s' := process_in_turn set_iter (map snd arrivals) s in
   failed_links s' = failed_links s ++ new /\
   update_calls s'
   = update_calls s
     ++ map (fun fs => Some (set_iter _ fs)) (growing_sets (failed_links s) new) /\
   clock s' = clock s + length new * notification_delay s) /\
  (let r := run_cpu_port_loop set_iter arrivals s in
   exists k, k <= length new /\
     failed_links (fst r) = failed_links s ++ firstn k new /\
     update_calls (fst r)
     = update_calls s
       ++ map (fun fs => Some (set_iter _ fs))
            (growing_sets (failed_links s) (firstn k new)) /\
     clock s + k * notification_delay s <= clock (fst r) /\
     (snd r = Ok tt -> k = length new) /\
     (forall j, j < length new ->
        snd (run_cpu_port_loop set_iter (firstn j arrivals) s) = Ok tt -> j < k)).
Proof.
  intros Hall Hnd Hni. cbv zeta. split.
  - destruct (@process_in_turn_new set_iter (map snd arrivals) new s Hall Hnd Hni)
      as [(F & U & _) Hc].
    auto.
  - destruct (@run_cpu_port_loop_new set_iter arrivals new s Hall Hnd Hni)
      as (k & Hk & (F & U & C & _) & Hok & Hmore).
    exists k. rewrite length_firstn, Nat.min_l in C by exact Hk. auto 7.
Qed.

(** Four switches, each linked to the three others, with hosts on s1 and
    s2: any two links between switches may fail and the rest stays
    connected. *)
Definition mesh4 : NetworkGraph :=
  graph_of
    [("h1", host_attr "10.0.1.1/24"); ("h2", host_attr "10.0.2.1/24");
     ("s1", switch_attr); ("s2", switch_attr); ("s3", switch_attr);
     ("s4", switch_attr)]
    [mk_link "h1" "s1" 1 0 1; mk_link "h2" "s2" 1 0 1;
     mk_link "s1" "s2" 1 2 2; mk_link "s2" "s3" 1 3 2; mk_link "s1" "s3" 1 3 1;
     mk_link "s1" "s4" 1 4 1; mk_link "s2" "s4" 1 4 2; mk_link "s3" "s4" 1 3 3].

Lemma notifications_handled_in_turn_witness :
  (let s' := process_in_turn insertion_order
               (map snd [(0, notify_s1_s2); (1, notify_s2_s3)])
               (initial_state mesh4 2) in
   failed_links s'
   = failed_links (initial_state mesh4 2) ++ [("s1", "s2"); ("s2", "s3")] /\
   update_calls s'
   = update_calls (initial_state mesh4 2)
     ++ map (fun fs => Some (insertion_order fs))
          (growing_sets (failed_links (initial_state mesh4 2))
             [("s1", "s2"); ("s2", "s3")]) /\
   clock s'
   = clock (initial_state mesh4 2)
     + length [("s1", "s2"); ("s2", "s3")]
       * notification_delay (initial_state mesh4 2)) /\
  (let r := run_cpu_port_loop insertion_order
              [(0, notify_s1_s2); (1, notify_s2_s3)] (initial_state mesh4 2) in
   exists k, k <= length [("s1", "s2"); ("s2", "s3")] /\
     failed_links (fst r)
     = failed_links (initial_state mesh4 2)
       ++ firstn k [("s1", "s2"); ("s2", "s3")] /\
     update_calls (fst r)
     = update_calls (initial_state mesh4 2)
       ++ map (fun fs => Some (insertion_order fs))
            (growing_sets (failed_links (initial_state mesh4 2))
               (firstn k [("s1", "s2"); ("s2", "s3")])) /\
     clock (initial_state mesh4 2) + k * notification_delay (initial_state mesh4 2)
     <= clock (fst r) /\
     (snd r = Ok tt -> k = length [("s1", "s2"); ("s2", "s3")]) /\
     (forall j, j < length [("s1", "s2"); ("s2", "s3")] ->
        snd (run_cpu_port_loop insertion_order
               (firstn j [(0, notify_s1_s2); (1, notify_s2_s3)])
               (initial_state mesh4 2)) = Ok tt -> j < k)).
Proof.
  apply (@notifications_handled_in_turn insertion_order
           [(0, notify_s1_s2); (1, notify_s2_s3)]
           [("s1", "s2"); ("s2", "s3")] (initial_state mesh4 2)).
  - repeat constructor.
  - repeat constructor; simpl; intuition congruence.
  - intros e _ [].
Defined.

(** On [mesh4] the two recomputations return: with delay 2, notifications
    at times 0 and 1 give a loop that returns at time 4 after two
    recomputations, on one link and on both. *)
Example burst_of_two_on_mesh :
  let r := run_cpu_port_loop insertion_order
             [(0, notify_s1_s2); (1, notify_s2_s3)] (initial_state mesh4 2) in
  snd r = Ok tt /\
  update_calls (fst r) = [Some [("s1", "s2")]; Some [("s1", "s2"); ("s2", "s3")]] /\
  failed_links (fst r) = [("s1", "s2"); ("s2", "s3")] /\
  clock (fst r) = 4.
Proof. vm_compute. auto. Qed.

(** X8. The packet loop handles failures one at a time: whatever frames
    arrive and whenever, the links recorded during the loop were added one
    after the other, each with one recomputation, on all the links recorded
    up to and including it (so the last recomputation is on all of them),
    and each after a full notification delay; at most one link is recorded
    per frame, no link twice, and the topology, the switches and the delay
    stay as they are. *)
Theorem packet_loop_trace (set_iter : forall A : Type, list A -> list A)
  (arrivals : list (nat * Packet)) (s : State) :
  let s' := fst (run_cpu_port_loop set_iter arrivals s) in
  exists new,
    length new <= length arrivals /\
    failed_links s' = failed_links s ++ new /\
    update_calls s'
    = update_calls s
      ++ map (fun fs => Some (set_iter _ fs)) (growing_sets (failed_links s) new) /\
    clock s + length new * notification_delay s <= clock s' /\
    NoDup new /\ (forall e, In e new -> ~ In e (failed_links s)) /\
    topo s' = topo s /\ controllers s' = controllers s /\
    notification_delay s' = notification_delay s.
Proof.
  cbv zeta. destruct (run_cpu_port_loop_handled set_iter arrivals s)
    as (new & Hlen & H).
  exists new. split; [exact Hlen | exact H].
Qed.

(* ------------------------------------------------------------------ *)
(** *** The recorded failures are links of the topology *)

(** A link named with its endpoints in sorted order. *)
Definition normal_link (e : Edge) : Prop := sorted_pair (fst e) (snd e) = e.

(** The set of failed links holds links of the topology, each once and
    under its sorted name. *)
Definition links_ok (s : State) : Prop :=
  NoDup (failed_links s) /\
  forall e, In e (failed_links s) ->
    normal_link e /\ has_edge (topo s) (fst e) (snd e).

Lemma sorted_pair_normal a b : normal_link (sorted_pair a b).
Proof.
  unfold normal_link, sorted_pair. destruct (String.ltb b a) eqn:E; simpl.
  - now rewrite (ltb_asym _ _ E).
  - now rewrite E.
Qed.

Lemma normal_same_link e g :
  normal_link e -> normal_link g -> same_link e (fst g) (snd g) -> e = g.
Proof.
  destruct e as [a b], g as [c d]. unfold normal_link, same_link, sorted_pair.
  simpl. intros He Hg [[-> ->]|[-> ->]]; [reflexivity|].
  destruct (String.ltb c d) eqn:E1; [injection He as Hx _; now rewrite Hx|].
  destruct (String.ltb d c) eqn:E2; [injection Hg as Hx _; now rewrite Hx|].
  now rewrite (ltb_total _ _ E1 E2).
Qed.

Lemma present_once_links G l :
  NoDup l ->
  (forall e, In e l -> normal_link e /\ has_edge G (fst e) (snd e)) ->
  present_once G l.
Proof.
  induction l as [|f t IH]; simpl; intros Hnd Hall; [exact I|].
  inversion Hnd as [|? ? Hni Ht]; subst. split; [apply Hall; now left|].
  split; [|apply IH; auto].
  intros g Hg Hs. apply Hni.
  rewrite (@normal_same_link f g); auto; [apply Hall; now left | apply Hall; now right].
Qed.

Lemma port_to_node_edge G n p m : port_to_node G n p = Ok m -> has_edge G n m.
Proof.
  unfold port_to_node. destruct (dict_get (g_adj G) n) as [nbrs|] eqn:En;
    [|discriminate].
  destruct (find _ nbrs) as [[u e]|] eqn:Ef; [|discriminate].
  intros [= <-]. apply find_some in Ef. destruct Ef as [Hin _].
  destruct (dict_In_get _ _ _ Hin) as [e' He']. exists nbrs, e'. auto.
Qed.

Lemma notified_link_edge G pkt e :
  wf_graph G -> notified_link G pkt = Ok (Some e) ->
  normal_link e /\ has_edge G (fst e) (snd e).
Proof.
  intros Hwf. unfold notified_link.
  destruct (ether_type pkt) as [type_|]; cbn [of_option res_bind]; [|discriminate].
  destruct (N.eqb type_ 4660); [|discriminate].
  destruct (load pkt) as [load_|]; cbn [of_option res_bind]; [|discriminate].
  destruct (unpack_H load_) as [payload|]; cbn [res_bind]; [|discriminate].
  destruct (N.eqb _ 1); [|discriminate].
  destruct (port_to_node G _ _) as [nb|] eqn:Ep; cbn [res_bind]; [|discriminate].
  intros [= <-]. split; [apply sorted_pair_normal|].
  apply port_to_node_edge in Ep. unfold sorted_pair.
  destruct (String.ltb nb _); simpl; [now apply (@wf_symmetric G _ _ Hwf) | exact Ep].
Qed.

Lemma handled_links_ok set_iter pkt s :
  wf_graph (topo s) -> links_ok s ->
  links_ok (fst (process_packet set_iter pkt s)).
Proof.
  intros Hwf [Hnd Hall].
  destruct (process_packet_handled set_iter pkt s)
    as (new & Hlen & (F & _ & _ & Hn & Hd & T & _) & Hnew).
  unfold links_ok. rewrite F, T. split.
  - apply NoDup_app; auto. intros e H1 H2. exact (Hd e H2 H1).
  - intros e He. apply in_app_or in He. destruct He as [He|He]; [now apply Hall|].
    apply (notified_link_edge pkt Hwf). now apply Hnew.
Qed.

Lemma loop_links_ok set_iter arrivals : forall s,
  wf_graph (topo s) -> links_ok s ->
  links_ok (fst (run_cpu_port_loop set_iter arrivals s)).
Proof.
  unfold run_cpu_port_loop, for_each.
  induction arrivals as [|[t pkt] rest IH]; intros s Hwf Hok; cbn [for_fold].
  - exact Hok.
  - unfold bind at 1. unfold bind at 1. cbn [fst snd].
    unfold wait_until at 1.
    match goal with
    | |- context [process_packet set_iter pkt ?s1] =>
        assert (Hs1 : links_ok s1) by exact Hok;
        assert (Hwf1 : wf_graph (topo s1)) by exact Hwf;
        assert (H2 := handled_links_ok set_iter pkt Hwf1 Hs1);
        destruct (process_packet_handled set_iter pkt s1)
          as (new & _ & (_ & _ & _ & _ & _ & T & _) & _);
        destruct (process_packet set_iter pkt s1) as [s2 [[]|e]]
    end; cbn [fst] in *.
    + apply IH; [now rewrite T | exact H2].
    + exact H2.
Qed.

Lemma growing_sets_In {A} (new : list A) : forall base fs,
  In fs (growing_sets base new) ->
  exists k, fs = base ++ firstn k new.
Proof.
  induction new as [|x t IH]; simpl; intros base fs; [intros []|].
  intros [<-|Hin].
  - exists 1. reflexivity.
  - destruct (IH _ _ Hin) as [k ->]. exists (S k).
    now rewrite <- app_assoc.
Qed.

(** X9. The packet loop hands [update_nexthops] only failures that
    [dijkstra] can remove: from a state whose failed links are links of the
    topology (a graph as networkx keeps it), each recorded once under its
    sorted name, the set stays so whatever frames arrive, and every list of
    failures with which the loop calls [update_nexthops] names links of the
    topology, each once, so that [dijkstra] returns its tables for it and
    [remove_edge] never raises. (The iteration over a set yields each of its
    elements once.) *)
Theorem notified_failures_are_links (set_iter : forall A : Type, list A -> list A)
  (arrivals : list (nat * Packet)) (s : State) :
  (forall A (l : list A), Permutation (set_iter A l) l) ->
  wf_graph (topo s) -> links_ok s ->
  let s' := fst (run_cpu_port_loop set_iter arrivals s) in
  links_ok s' /\
  forall failures, In failures (update_calls s') ->
    In failures (update_calls s) \/
    (exists fs, failures = Some fs /\ present_once (topo s) fs) /\
    forall st, topo st = topo s -> exists t, snd (dijkstra failures st) = Ok t.
Proof.
  intros Hperm Hwf Hok. cbv zeta.
  assert (Hok' := loop_links_ok set_iter arrivals Hwf Hok).
  split; [exact Hok'|].
  destruct (run_cpu_port_loop_handled set_iter arrivals s)
    as (new & _ & F & U & _ & _ & _ & T & _).
  intros failures Hin. rewrite U in Hin. apply in_app_or in Hin.
  destruct Hin as [Hin|Hin]; [now left | right].
  apply in_map_iff in Hin. destruct Hin as (fs & <- & Hfs).
  apply growing_sets_In in Hfs. destruct Hfs as [k ->].
  assert (Hp : present_once (topo s)
                 (set_iter _ (failed_links s ++ firstn k new))).
  { destruct Hok' as [Hnd Hall]. rewrite F, T in *.
    apply present_once_links.
    - apply (Permutation_NoDup (Permutation_sym (Hperm _ _))).
      rewrite <- (firstn_skipn k new), app_assoc in Hnd.
      now apply NoDup_app_remove_r in Hnd.
    - intros e He. apply Hall.
      apply (Permutation_in _ (Hperm _ _)) in He.
      apply in_app_or in He. apply in_or_app.
      destruct He as [He|He]; [now left | right].
      rewrite <- (firstn_skipn k new). apply in_or_app. now left. }
  split; [eauto|].
  intros st Hst.
  destruct (@dijkstra_total
              (Some (set_iter _ (failed_links s ++ firstn k new))) st)
    as (G' & r & _ & _ & _ & Hd).
  - now rewrite Hst.
  - simpl. now rewrite Hst.
  - eauto.
Qed.

Lemma notified_failures_are_links_witness :
  let s := initial_state ring3 2 in
  let s' := fst (run_cpu_port_loop insertion_order
                   [(0, notify_s1_s2); (1, notify_s2_s3)] s) in
  links_ok s' /\
  forall failures, In failures (update_calls s') ->
    In failures (update_calls s) \/
    (exists fs, failures = Some fs /\ present_once (topo s) fs) /\
    forall st, topo st = topo s -> exists t, snd (dijkstra failures st) = Ok t.
Proof.
  apply (@notified_failures_are_links insertion_order
           [(0, notify_s1_s2); (1, notify_s2_s3)] (initial_state ring3 2)).
  - intros A l. apply Permutation_refl.
  - exact ring3_wf.
  - split; [constructor | intros e []].
Defined.

(* ================================================================== *)
(** ** The heartbeat header *)

Definition byte_values : list N := map N.of_nat (seq 0 256).

Lemma byte_values_In b : (b < 256)%N -> In b byte_values.
Proof.
  intros Hb. unfold byte_values. apply in_map_iff. exists (N.to_nat b).
  split; [apply N2Nat.id|]. apply in_seq. lia.
Qed.

(** The fields [process_packet] reads in the two bytes of the header: the
    flag is bit 5 of the second byte, the port is made of the first byte
    and the top bit of the second. *)
Lemma heartbeat_fields b0 b1 :
  (b0 < 256)%N -> (b1 < 256)%N ->
  N.shiftr (N.land (b0 * 256 + b1) 0x0020) 5 = (if N.testbit b1 5 then 1 else 0)%N /\
  N.shiftr (N.land (b0 * 256 + b1) 0xff80) 7 = (2 * b0 + b1 / 128)%N.
Proof.
  intros H0 H1.
  assert (Hall : forallb (fun x => forallb (fun y =>
            N.eqb (N.shiftr (N.land (x * 256 + y) 0x0020) 5)
                  (if N.testbit y 5 then 1 else 0) &&
            N.eqb (N.shiftr (N.land (x * 256 + y) 0xff80) 7) (2 * x + y / 128))
            byte_values) byte_values = true) by (vm_compute; reflexivity).
  rewrite forallb_forall in Hall. specialize (Hall b0 (byte_values_In H0)).
  rewrite forallb_forall in Hall. specialize (Hall b1 (byte_values_In H1)).
  apply andb_true_iff in Hall. destruct Hall as [Ha Hb].
  apply N.eqb_eq in Ha, Hb. auto.
Qed.

(** X10. What [process_packet] does with a frame, by the two attributes
    it reads of the dissected frame. A frame without a [type] attribute
    raises [AttributeError]; a frame of a type other than 0x1234 changes
    nothing; a heartbeat frame (type 0x1234) without a payload raises
    [AttributeError], and one whose payload is not two bytes long raises
    [struct.error]. A heartbeat of two bytes whose failure flag (bit 5 of the
    second byte) is clear changes nothing; one whose flag is set names the
    port made of the first byte and the top bit of the second: when
    [port_to_node] raises for that port, its exception goes through and
    nothing is recorded; otherwise the link to the neighbour on that port,
    under its sorted name, is either known already (nothing changes) or
    added to the set of failed links. *)
Theorem process_packet_by_fields (set_iter : forall A : Type, list A -> list A)
  (pkt : Packet) (s : State) :
  let switch_name := split_head (sniffed_on pkt) in
  (ether_type pkt = None ->
   process_packet set_iter pkt s = (s, Raise AttributeError)) /\
  (forall t, ether_type pkt = Some t -> t <> 0x1234%N ->
   process_packet set_iter pkt s = (s, Ok tt)) /\
  (ether_type pkt = Some 0x1234%N -> load pkt = None ->
   process_packet set_iter pkt s = (s, Raise AttributeError)) /\
  (forall l, ether_type pkt = Some 0x1234%N -> load pkt = Some l ->
   length l <> 2 ->
   process_packet set_iter pkt s = (s, Raise StructError)) /\
  (forall b0 b1,
     ether_type pkt = Some 0x1234%N -> load pkt = Some [b0; b1] ->
     (b0 < 256)%N -> (b1 < 256)%N ->
     (N.testbit b1 5 = false -> process_packet set_iter pkt s = (s, Ok tt)) /\
     (N.testbit b1 5 = true ->
      match port_to_node (topo s) switch_name (2 * b0 + b1 / 128) with
      | Raise e => process_packet set_iter pkt s = (s, Raise e)
      | Ok neighbor =>
          let failed_link := sorted_pair switch_name neighbor in
          if set_mem failed_link (failed_links s)
          then process_packet set_iter pkt s = (s, Ok tt)
          else failed_links (fst (process_packet set_iter pkt s))
               = failed_links s ++ [failed_link]
      end)).
Proof.
  cbv zeta. rewrite process_packet_run. unfold notified_link.
  split; [|split; [|split; [|split]]].
  - intros ->. reflexivity.
  - intros t -> Hne. apply N.eqb_neq in Hne. cbn [of_option res_bind].
    now rewrite Hne.
  - intros -> ->. reflexivity.
  - intros l -> -> Hlen. cbn [of_option res_bind N.eqb Pos.eqb]. unfold unpack_H.
    destruct l as [|b0 [|b1 [|b2 t]]]; try reflexivity.
    simpl in Hlen. lia.
  - intros b0 b1 -> -> H0 H1. cbn [of_option N.eqb Pos.eqb unpack_H res_bind].
    destruct (heartbeat_fields H0 H1) as [-> ->]. split.
    + intros ->. reflexivity.
    + intros ->. cbn [N.eqb Pos.eqb].
      destruct (port_to_node (topo s) (split_head (sniffed_on pkt))
                  (2 * b0 + b1 / 128)) as [nb|e] eqn:Ep; cbn [res_bind];
        [|reflexivity].
      destruct (set_mem _ (failed_links s)) eqn:Em; [reflexivity|].
      unfold failure_notification.
      destruct (update_nexthops_frame set_iter
                  (Some (set_iter _ (set_add (sorted_pair
                     (split_head (sniffed_on pkt)) nb) (failed_links s))))
                  (announced s (sorted_pair (split_head (sniffed_on pkt)) nb)))
        as (_ & _ & _ & H4 & _).
      simpl in H4. rewrite H4. unfold set_add. now rewrite Em.
Qed.

(** Four frames on the ring: one that scapy dissects without a [type], a
    heartbeat without payload, a heartbeat of three bytes, and a heartbeat
    whose flag is clear. *)
Example process_packet_frames :
  let s := initial_state ring3 2 in
  let frame t l := {| sniffed_on := "s1-cpu-eth1"; ether_type := t; load := l |} in
  process_packet insertion_order (frame None (Some [1; 32]%N)) s
  = (s, Raise AttributeError) /\
  process_packet insertion_order (frame (Some 0x1234%N) None) s
  = (s, Raise AttributeError) /\
  process_packet insertion_order (frame (Some 0x1234%N) (Some [0; 1; 32]%N)) s
  = (s, Raise StructError) /\
  process_packet insertion_order (frame (Some 0x1234%N) (Some [1; 0]%N)) s
  = (s, Ok tt) /\
  process_packet insertion_order (frame (Some 0x0800%N) (Some [1; 32]%N)) s
  = (s, Ok tt).
Proof. vm_compute. repeat split; reflexivity. Qed.

(* ================================================================== *)
(** ** The range of the next-hop indices *)

Lemma list_index_nodup l : forall i x,
  NoDup l -> nth_error l i = Some x -> list_index x l = Ok i.
Proof.
  induction l as [|y t IH]; intros [|i] x Hnd; simpl; try discriminate.
  - intros [= ->]. now rewrite String.eqb_refl.
  - intros Hx. inversion Hnd as [|? ? Hni Ht]; subst.
    destruct (String.eqb_spec y x) as [->|_].
    + exfalso. apply Hni. eapply nth_error_In; eauto.
    + now rewrite (IH i x Ht Hx).
Qed.

Lemma list_index_absent x l : ~ In x l -> list_index x l = Raise ValueError.
Proof.
  induction l as [|y t IH]; simpl; intros Hn; [reflexivity|].
  destruct (String.eqb_spec y x) as [->|_]; [exfalso; auto|].
  rewrite IH; auto.
Qed.

(** X11. The next-hop indices are the numbers below the number of hosts:
    on a topology as networkx keeps it, [get_nexthop_index] returns for a
    host a number below the number of hosts, every such number is the index
    of some host, and for a name that is no host [list.index] raises
    [ValueError]. *)
Theorem nexthop_index_range (s : State) :
  wf_graph (topo s) ->
  let n := length (get_hosts (topo s)) in
  (forall host i, snd (get_nexthop_index host s) = Ok i ->
     i < n /\ In host (get_hosts (topo s))) /\
  (forall i, i < n ->
     exists host, In host (get_hosts (topo s)) /\
                  snd (get_nexthop_index host s) = Ok i) /\
  (forall host, ~ In host (get_hosts (topo s)) ->
     get_nexthop_index host s = (s, Raise ValueError)).
Proof.
  intros Hwf. cbv zeta.
  assert (Hperm := sorted_perm (get_hosts (topo s))).
  assert (Hlen : length (get_hosts (topo s))
                 = length (sorted (get_hosts (topo s))))
    by exact (Permutation_length Hperm).
  assert (Hrun : forall host, get_nexthop_index host s
                              = (s, list_index host (sorted (get_hosts (topo s)))))
    by reflexivity.
  split; [|split].
  - intros host i. rewrite Hrun. cbn [snd]. intros Hi.
    apply list_index_nth in Hi. split.
    + rewrite Hlen. apply nth_error_Some. congruence.
    + apply (Permutation_in _ (Permutation_sym Hperm)).
      eapply nth_error_In; eauto.
  - intros i Hi. rewrite Hlen in Hi.
    destruct (nth_error (sorted (get_hosts (topo s))) i) as [host|] eqn:E.
    + exists host. split.
      * apply (Permutation_in _ (Permutation_sym Hperm)).
        eapply nth_error_In; eauto.
      * rewrite Hrun. cbn [snd]. apply list_index_nodup; [|exact E].
        apply (Permutation_NoDup Hperm). now apply wf_hosts_nodup.
    + apply nth_error_None in E. lia.
  - intros host Hn. rewrite Hrun. f_equal. apply list_index_absent.
    intros Hin. apply Hn. now apply (Permutation_in _ (Permutation_sym Hperm)).
Qed.

Lemma nexthop_index_range_witness :
  let s := initial_state ring3 2 in
  let n := length (get_hosts (topo s)) in
  (forall host i, snd (get_nexthop_index host s) = Ok i ->
     i < n /\ In host (get_hosts (topo s))) /\
  (forall i, i < n ->
     exists host, In host (get_hosts (topo s)) /\
                  snd (get_nexthop_index host s) = Ok i) /\
  (forall host, ~ In host (get_hosts (topo s)) ->
     get_nexthop_index host s = (s, Raise ValueError)).
Proof. exact (@nexthop_index_range (initial_state ring3 2) ring3_wf). Defined.

(* ================================================================== *)
(** ** The entries of [ipv4_lpm] *)

(** The entry [install_nexthop_indices] adds on a switch for a host. *)
Definition lpm_entry (G : NetworkGraph) (switch host : Node) : Cmd :=
  table_add switch "ipv4_lpm" "read_port"
    [match host_gateway_ip G host with Ok subnet => subnet | Raise _ => "" end]
    [str (match host_index G host with Ok i => i | Raise _ => 0 end)].

(** The calls it makes to one switch. *)
Definition lpm_entries (G : NetworkGraph) (switch : Node) : list Cmd :=
  table_clear switch "ipv4_lpm" :: map (lpm_entry G switch) (get_hosts G).

Lemma eff_each_all_ok {A} (l : list A) f :
  (forall x, In x l -> eff_res (f x) = Ok tt) ->
  eff_res (eff_each l f) = Ok tt /\
  eff_cmds (eff_each l f) = flat_map (fun x => eff_cmds (f x)) l.
Proof.
  induction l as [|x t IH]; simpl; intros Hall; [auto|].
  assert (Hx := Hall x (or_introl eq_refl)).
  destruct (IH (fun y Hy => Hall y (or_intror Hy))) as [Hr Hc].
  unfold eff_bind, eff_res, eff_cmds in *. destruct (f x) as [[o c] r].
  simpl in Hx. subst r. destruct (eff_each t f) as [[o' c'] r'].
  simpl in *. now rewrite Hc.
Qed.

Lemma eff_each_raise {A} (l : list A) f e :
  (forall x, In x l -> eff_res (f x) = Ok tt \/ eff_res (f x) = Raise e) ->
  (exists x, In x l /\ eff_res (f x) = Raise e) ->
  eff_res (eff_each l f) = Raise e.
Proof.
  induction l as [|x t IH]; simpl; intros Hall (y & Hy & Hr); [destruct Hy|].
  destruct (Hall x (or_introl eq_refl)) as [Hx|Hx].
  - rewrite (@eff_bind_res _ _ _ _ tt Hx). apply IH.
    + intros z Hz. apply Hall. now right.
    + destruct Hy as [<-|Hy]; [congruence | eauto].
  - unfold eff_bind, eff_res in *. destruct (f x) as [[o c] r].
    simpl in Hx. now subst r.
Qed.

Lemma host_gateway_ip_raises G host e :
  host_gateway_ip G host = Raise e -> e = KeyError.
Proof.
  unfold host_gateway_ip. destruct (dict_get (g_node G) host) as [a|];
    [|now intros [= <-]].
  destruct (ip a); [discriminate | now intros [= <-]].
Qed.

Lemma install_index_eff_run G switch host :
  In host (get_hosts G) ->
  match host_gateway_ip G host with
  | Ok _ =>
      eff_res (install_index_eff G switch host) = Ok tt /\
      eff_cmds (install_index_eff G switch host) = [lpm_entry G switch host]
  | Raise _ => eff_res (install_index_eff G switch host) = Raise KeyError
  end.
Proof.
  intros Hh. unfold install_index_eff, lpm_entry.
  destruct (host_index_defined _ _ Hh) as [i Hi].
  destruct (host_gateway_ip G host) as [subnet|e] eqn:Eip.
  - rewrite Hi. unfold eff_bind, eff_res, eff_cmds. simpl. auto.
  - apply host_gateway_ip_raises in Eip. subst e. reflexivity.
Qed.

Lemma flat_map_single {A B} (f : A -> list B) (g : A -> B) l :
  (forall x, In x l -> f x = [g x]) -> flat_map f l = map g l.
Proof.
  induction l as [|x t IH]; simpl; intros H; [reflexivity|].
  rewrite (H x (or_introl eq_refl)), IH; [reflexivity|].
  intros y Hy. apply H. now right.
Qed.

Lemma install_indices_eff_ok G switch :
  (forall host, In host (get_hosts G) ->
     exists subnet, host_gateway_ip G host = Ok subnet) ->
  eff_res (install_indices_eff G switch) = Ok tt /\
  eff_cmds (install_indices_eff G switch) = lpm_entries G switch.
Proof.
  intros Hip. unfold install_indices_eff, lpm_entries.
  assert (Hone : forall host, In host (get_hosts G) ->
            eff_res (install_index_eff G switch host) = Ok tt /\
            eff_cmds (install_index_eff G switch host) = [lpm_entry G switch host]).
  { intros host Hh. assert (H := install_index_eff_run G switch host Hh).
    destruct (Hip _ Hh) as [subnet Es]. now rewrite Es in H. }
  destruct (@eff_each_all_ok _ (get_hosts G) (install_index_eff G switch))
    as [Hr Hc]; [intros host Hh; now apply Hone|].
  rewrite (@flat_map_single _ _ _ (lpm_entry G switch)) in Hc
    by (intros host Hh; now apply Hone).
  unfold eff_bind, eff_res, eff_cmds in *.
  destruct (eff_each (get_hosts G) (install_index_eff G switch)) as [[o c] r].
  simpl in *. subst. auto.
Qed.

Lemma install_indices_eff_raise G switch :
  (exists host, In host (get_hosts G) /\
                forall subnet, host_gateway_ip G host <> Ok subnet) ->
  eff_res (install_indices_eff G switch) = Raise KeyError.
Proof.
  intros (host & Hh & Hno). unfold install_indices_eff.
  assert (Hr : eff_res (eff_each (get_hosts G) (install_index_eff G switch))
               = Raise KeyError).
  { apply eff_each_raise.
    - intros h Hin. assert (H := install_index_eff_run G switch h Hin).
      destruct (host_gateway_ip G h); [left; apply H | now right].
    - exists host. split; [exact Hh|].
      assert (H := install_index_eff_run G switch host Hh).
      destruct (host_gateway_ip G host) as [subnet|e] eqn:E; [|exact H].
      exfalso. exact (Hno subnet eq_refl). }
  unfold eff_bind, eff_res in *.
  destruct (eff_each (get_hosts G) (install_index_eff G switch)) as [[o c] r].
  simpl in *. now subst.
Qed.

(** What [install_nexthop_indices] sends when every host has an address. *)
Lemma install_nexthop_indices_run s :
  (forall host, In host (get_hosts (topo s)) ->
     exists subnet, host_gateway_ip (topo s) host = Ok subnet) ->
  exists cs out,
    install_nexthop_indices s
    = (upd s cs out (flat_map (lpm_entries (topo s)) (controllers s)), Ok tt).
Proof.
  intros Hip.
  destruct (@runs_install_nexthop_indices (topo s) (controllers s) s eq_refl eq_refl)
    as [cs Hrun].
  destruct (@eff_each_all_ok _ (controllers s) (install_indices_eff (topo s)))
    as [Hr Hc]; [intros sw _; now apply install_indices_eff_ok|].
  rewrite (@flat_map_ext _ _ _ (lpm_entries (topo s))) in Hc
    by (intros sw; now apply install_indices_eff_ok).
  exists cs, (eff_out (eff_each (controllers s) (install_indices_eff (topo s)))).
  now rewrite Hrun, Hr, Hc.
Qed.

(** X12. [install_nexthop_indices] fills [ipv4_lpm] switch by switch: when
    every host has an address, it returns, and what it sends is, for each
    switch of [self.controllers] in turn, one [table_clear] followed by one
    [table_add] per host, in the order of the hosts, that maps the address
    of the host to its next-hop index. When some host has no address and
    there is a switch, it raises [KeyError]. *)
Theorem install_nexthop_indices_entries (s : State) :
  ((forall host, In host (get_hosts (topo s)) ->
      exists subnet, host_gateway_ip (topo s) host = Ok subnet) ->
   snd (install_nexthop_indices s) = Ok tt /\
   rpc (fst (install_nexthop_indices s))
   = rpc s ++ flat_map (lpm_entries (topo s)) (controllers s)) /\
  ((exists host, In host (get_hosts (topo s)) /\
                 forall subnet, host_gateway_ip (topo s) host <> Ok subnet) ->
   controllers s <> [] ->
   snd (install_nexthop_indices s) = Raise KeyError).
Proof.
  split.
  - intros Hip. destruct (install_nexthop_indices_run s Hip) as (cs & out & ->).
    split; reflexivity.
  - intros Hno Hctl.
    destruct (@runs_install_nexthop_indices (topo s) (controllers s) s eq_refl eq_refl)
      as [cs ->]. cbn [snd].
    apply eff_each_raise.
    + intros sw _. right. now apply install_indices_eff_raise.
    + destruct (controllers s) as [|sw t]; [congruence|].
      exists sw. split; [now left | now apply install_indices_eff_raise].
Qed.

Lemma install_nexthop_indices_entries_witness :
  snd (install_nexthop_indices (initial_state ring3 2)) = Ok tt /\
  rpc (fst (install_nexthop_indices (initial_state ring3 2)))
  = rpc (initial_state ring3 2)
    ++ flat_map (lpm_entries (topo (initial_state ring3 2)))
         (controllers (initial_state ring3 2)).
Proof.
  apply (proj1 (install_nexthop_indices_entries (initial_state ring3 2))).
  intros host Hh. vm_compute in Hh.
  destruct Hh as [<-|[<-|[<-|[]]]]; eexists; vm_compute; reflexivity.
Defined.

(** X13. The two steps with which [__init__] installs the routes fit
    together: on a connected topology as networkx keeps it, whose hosts have
    addresses and whose switches are nodes and not hosts,
    [install_nexthop_indices] followed by [update_nexthops] with no failure
    returns, and for every switch and every host the switch has been sent
    the [ipv4_lpm] entry that maps the address of the host to its index and
    a write of [primaryNH] at that index. *)
Theorem routes_installed (set_iter : forall A : Type, list A -> list A)
  (s : State) :
  (forall A (l : list A) x, In x (set_iter A l) -> In x l) ->
  wf_graph (topo s) -> wf_adj (topo s) ->
  (forall c, In c (controllers s) ->
     dict_mem (g_node (topo s)) c = true /\ ~ In c (get_hosts (topo s))) ->
  connected_without (topo s) [] ->
  (forall host, In host (get_hosts (topo s)) ->
     exists subnet, host_gateway_ip (topo s) host = Ok subnet) ->
  let r := (install_nexthop_indices ;;; update_nexthops set_iter None) s in
  snd r = Ok tt /\
  forall switch host, In switch (controllers s) -> In host (get_hosts (topo s)) ->
    exists subnet i p,
      host_gateway_ip (topo s) host = Ok subnet /\
      host_index (topo s) host = Ok i /\
      In (table_add switch "ipv4_lpm" "read_port" [subnet] [str i]) (rpc (fst r)) /\
      In (register_write switch "primaryNH" i p) (rpc (fst r)).
Proof.
  intros Hsub Hwf Hadj Hctl Hconn Hip. cbv zeta.
  destruct (install_nexthop_indices_run s Hip) as (cs & out & Hrun).
  unfold bind. rewrite Hrun.
  set (s1 := upd s cs out (flat_map (lpm_entries (topo s)) (controllers s))).
  destruct (@update_nexthops_total set_iter None s1 Hsub Hwf Hadj I Hctl Hconn)
    as [Hok Hall].
  destruct (update_nexthops_run set_iter None s1) as [cs' Hrun'].
  cbv zeta in Hrun'.
  split; [exact Hok|]. intros switch host Hsw Hh.
  destruct (Hall switch host Hsw Hh) as (i & p & Hi & Hin).
  destruct (Hip host Hh) as [subnet Es].
  exists subnet, i, p. split; [exact Es|]. split; [exact Hi|].
  split; [|exact Hin].
  rewrite Hrun'. cbn [fst rpc upd recorded s1].
  apply in_or_app. left. apply in_or_app. right.
  apply in_flat_map. exists switch. split; [exact Hsw|].
  right. apply in_map_iff. exists host. split; [|exact Hh].
  unfold lpm_entry. change (topo s1) with (topo s) in Hi. now rewrite Es, Hi.
Qed.

Lemma routes_installed_witness :
  let s := initial_state ring3 2 in
  let r := (install_nexthop_indices ;;; update_nexthops insertion_order None) s in
  snd r = Ok tt /\
  forall switch host, In switch (controllers s) -> In host (get_hosts (topo s)) ->
    exists subnet i p,
      host_gateway_ip (topo s) host = Ok subnet /\
      host_index (topo s) host = Ok i /\
      In (table_add switch "ipv4_lpm" "read_port" [subnet] [str i]) (rpc (fst r)) /\
      In (register_write switch "primaryNH" i p) (rpc (fst r)).
Proof.
  apply (@routes_installed insertion_order (initial_state ring3 2)).
  - intros A l x H. exact H.
  - exact ring3_wf.
  - exact ring3_wf_adj.
  - intros c Hc. vm_compute in Hc.
    destruct Hc as [<-|[<-|[<-|[]]]]; (split; [reflexivity|]);
      vm_compute; intuition congruence.
  - apply (@connected_by_tables ring3 None
             (fst (tables_of
                     (match all_pairs_dijkstra ring3 with
                      | Ok r => r
                      | Raise _ => []
                      end)))
             (snd (tables_of
                     (match all_pairs_dijkstra ring3 with
                      | Ok r => r
                      | Raise _ => []
                      end))) ring3_wf ring3_wf_adj);
      vm_compute; reflexivity.
  - intros host Hh. vm_compute in Hh.
    destruct Hh as [<-|[<-|[<-|[]]]]; eexists; vm_compute; reflexivity.
Defined.

(* ================================================================== *)
(** ** The distance table is symmetric *)

Lemma walk_reverse G s t p :
  (forall a b, has_edge G a b -> has_edge G b a) ->
  (forall a b, link_cost G a b = link_cost G b a) ->
  walk G s t p -> walk G t s (rev p) /\ walk_cost G (rev p) = walk_cost G p.
Proof.
  intros Hs Hc. induction 1 as [|v u p Hw IH He].
  - split; [constructor | reflexivity].
  - destruct IH as [IH1 IH2]. rewrite rev_app_distr. cbn [rev app].
    destruct (@walk_prepend G u v s (rev p) (Hs _ _ He) IH1) as [H1 H2].
    split; [exact H1|].
    rewrite H2, IH2, (walk_cost_step u Hw), (Hc u v). lia.
Qed.

Lemma walk_end_node G s t p :
  wf_graph G -> wf_adj G -> dict_mem (g_node G) s = true ->
  walk G s t p -> dict_mem (g_node G) t = true.
Proof.
  intros Hwf Hadj Hs Hw. destruct Hw as [|v u p _ He]; [exact Hs|].
  exact (@wf_neighbour_node G v u Hwf Hadj He).
Qed.

Lemma sub_costs_symmetric G G' :
  wf_graph G' ->
  (forall a b e, link_attr G' a b = Some e -> link_attr G a b = Some e) ->
  (forall a b, link_cost G a b = link_cost G b a) ->
  forall a b, link_cost G' a b = link_cost G' b a.
Proof.
  intros Hwf Hattr Hc a b. unfold link_cost.
  destruct (link_attr G' a b) as [e|] eqn:Ea.
  - assert (has_edge G' b a) as Hb.
    { apply (@wf_symmetric G' a b Hwf). apply has_edge_attr. eauto. }
    apply has_edge_attr in Hb. destruct Hb as [e' Eb]. rewrite Eb.
    assert (H := Hc a b). unfold link_cost in H.
    now rewrite (Hattr _ _ _ Ea), (Hattr _ _ _ Eb) in H.
  - destruct (link_attr G' b a) as [e'|] eqn:Eb; [|reflexivity].
    assert (has_edge G' a b) as Ha.
    { apply (@wf_symmetric G' b a Hwf). apply has_edge_attr. eauto. }
    apply has_edge_attr in Ha. destruct Ha as [e Ea']. congruence.
Qed.

(** X14. The distance table is symmetric, for link weights that are
    non-negative integers: on a topology as networkx keeps it, whose links
    weigh the same in both directions, [D[a][b]] and [D[b][a]] are the same
    (so the two readings [_d[alternate][switch]] and [_d[switch][alternate]]
    of [compute_lfas] agree). *)
Theorem dijkstra_distances_symmetric (failures : option (list Edge)) (s : State)
  (D : DistTable) (P : PathTable) :
  wf_graph (topo s) -> wf_adj (topo s) ->
  (forall a b, link_cost (topo s) a b = link_cost (topo s) b a) ->
  snd (dijkstra failures s) = Ok (D, P) ->
  forall a b d, lookup2 D a b = Ok d -> lookup2 D b a = Ok d.
Proof.
  intros Hwf Hadj Hsym. rewrite dijkstra_snd. intros HD a b d Hd.
  destruct (@dijkstra_result_inv _ _ _ _ Hwf Hadj HD)
    as (G' & r & HG & Hr' & -> & -> & Hwf' & Hadj' & Hnodes & Hattr).
  assert (Hc := @sub_costs_symmetric (topo s) G' Hwf' Hattr Hsym).
  assert (Hs := fun x y => @wf_symmetric G' x y Hwf').
  destruct (@all_pairs_shortest G' r (proj1 Hadj') Hr' a b) as (A1 & _ & A3).
  destruct (@all_pairs_shortest G' r (proj1 Hadj') Hr' b a) as (B1 & _ & B3).
  destruct (A1 _ Hd) as (Ha & p & _ & Hw & Hcost).
  destruct (walk_reverse Hs Hc Hw) as [Hw' Hcost'].
  assert (Hb := walk_end_node Hwf' Hadj' Ha Hw).
  destruct (B3 _ Hb Hw') as (d' & Hd' & Hle').
  destruct (B1 _ Hd') as (_ & q & _ & Hq & Hqc).
  destruct (walk_reverse Hs Hc Hq) as [Hq' Hqc'].
  destruct (A3 _ Ha Hq') as (d2 & Hd2 & Hle2).
  assert (d2 = d) by congruence. subst d2.
  rewrite Hcost', Hcost in Hle'. rewrite Hqc', Hqc in Hle2.
  assert (Heq : d' = d) by lia. rewrite <- Heq. exact Hd'.
Qed.

(** A check that the links weigh the same in both directions. *)
Definition sym_costsb (G : NetworkGraph) : bool :=
  forallb (fun un =>
    forallb (fun ve => Nat.eqb (cost (snd ve)) (link_cost G (fst ve) (fst un)))
      (snd un)) (g_adj G).

Lemma sym_costsb_sound G :
  wf_graph G -> sym_costsb G = true ->
  forall a b, link_cost G a b = link_cost G b a.
Proof.
  intros Hwf Hb. unfold sym_costsb in Hb. rewrite forallb_forall in Hb.
  assert (Hedge : forall a b e, link_attr G a b = Some e ->
                                cost e = link_cost G b a).
  { intros a b e. unfold link_attr.
    destruct (dict_get (g_adj G) a) as [nbrs|] eqn:Ea; [|discriminate].
    intros Hbe. apply dict_get_In in Ea, Hbe. specialize (Hb _ Ea).
    cbn [fst snd] in Hb. rewrite forallb_forall in Hb. specialize (Hb _ Hbe).
    now apply Nat.eqb_eq in Hb. }
  intros a b. unfold link_cost at 1.
  destruct (link_attr G a b) as [e|] eqn:Ea; [now apply Hedge|].
  unfold link_cost. destruct (link_attr G b a) as [e'|] eqn:Eb; [|reflexivity].
  assert (has_edge G a b) as Ha.
  { apply (@wf_symmetric G b a Hwf). apply has_edge_attr. eauto. }
  apply has_edge_attr in Ha. destruct Ha as [e Ea']. congruence.
Qed.

Lemma dijkstra_distances_symmetric_witness :
  lookup2 (fst ring3_tables) "s1" "h2" = Ok 3 /\
  lookup2 (fst ring3_tables) "h2" "s1" = Ok 3.
Proof.
  split; [reflexivity|].
  apply (@dijkstra_distances_symmetric ring3_failures (initial_state ring3 2)
           (fst ring3_tables) (snd ring3_tables) ring3_wf ring3_wf_adj
           (@sym_costsb_sound ring3 ring3_wf ltac:(vm_compute; reflexivity))
           ltac:(vm_compute; reflexivity) "s1" "h2" 3).
  reflexivity.
Defined.

(* ================================================================== *)
(** ** The ports written into the registers *)

Lemma install_switch_primary_cmd G ctl lfas sw dests switch i p :
  In (register_write switch "primaryNH" i p)
     (eff_cmds (install_switch_eff G ctl lfas (sw, dests))) ->
  switch = sw /\
  exists dest, In dest dests /\ host_index G (fst dest) = Ok i /\
               node_to_node_port_num G sw (snd dest) = Ok p.
Proof.
  unfold install_switch_eff. intros H.
  apply eff_bind_cmds in H. destruct H as [[]|(_ & _ & H)].
  apply eff_bind_cmds in H. destruct H as [[]|(_ & _ & H)].
  apply eff_bind_cmds in H. destruct H as [H|(_ & _ & H)].
  - apply eff_each_cmds in H. destruct H as (dest & Hd & H).
    apply install_primary_cmds in H. destruct H as (i' & p' & Hi & Hp & Hc).
    injection Hc as -> -> ->. eauto.
  - apply eff_bind_cmds in H. destruct H as [[]|(_ & _ & H)].
    apply eff_bind_cmds in H. destruct H as [[]|(_ & _ & H)].
    apply eff_each_cmds in H. destruct H as (dest & Hd & H).
    apply install_lfa_cmds in H. destruct H as (i' & p' & _ & _ & Hc).
    discriminate Hc.
Qed.

(** X15. The primary next hop never leads over a failed link: on a
    topology as networkx keeps it, every write of [primaryNH] that
    [update_nexthops] sends to a switch is for a host and the path the path
    table of [dijkstra] has from the switch to that host: it is at the index
    of the host and carries the port of the switch towards the second node
    of that path, over a link of the topology that is none of the failed
    links. *)
Theorem primary_ports_avoid_failures
  (set_iter : forall A : Type, list A -> list A)
  (failures : option (list Edge)) (s : State) :
  wf_graph (topo s) ->
  exists cmds,
    rpc (fst (update_nexthops set_iter failures s)) = rpc s ++ cmds /\
    forall switch i p, In (register_write switch "primaryNH" i p) cmds ->
      exists D P host path nexthop,
        snd (dijkstra failures s) = Ok (D, P) /\
        In switch (controllers s) /\ In host (get_hosts (topo s)) /\
        host_index (topo s) host = Ok i /\
        lookup2 P switch host = Ok path /\ nth_error path 1 = Some nexthop /\
        node_to_node_port_num (topo s) switch nexthop = Ok p /\
        has_edge (topo s) switch nexthop /\
        forall f, In f (failed failures) -> ~ same_link f switch nexthop.
Proof.
  intros Hwf. destruct (update_nexthops_run set_iter failures s) as [cs Hrun].
  cbv zeta in Hrun. rewrite Hrun. eexists. split; [reflexivity|].
  intros switch i p Hc. apply update_eff_cmds in Hc.
  destruct Hc as (nexthops & lfas & sw & dests & Hn & _ & Hin & Hc).
  apply install_switch_primary_cmd in Hc.
  destruct Hc as (-> & [host nexthop] & Hd & Hi & Hp). cbn [fst snd] in Hi, Hp.
  unfold nexthops_eff in Hn.
  destruct (dijkstra_result (topo s) failures) as [[D P]|] eqn:HD;
    [|discriminate Hn].
  unfold eff_res in Hn. cbn [fst snd] in Hn.
  destruct (nexthops_table_In _ _ _ _ Hn _ _ Hin) as [[]|[Hsw Hrow]].
  destruct (nexthops_row_sound _ _ _ _ Hrow _ _ Hd) as [[]|(Hh & path & Hpath & Hnth)].
  destruct (dijkstra_result_walk _ _ HD) as (G' & HG & Hw).
  specialize (Hw _ _ _ Hpath).
  assert (He := walk_consecutive Hw _ (walk_head Hw) Hnth).
  apply (without_failures_links _ Hwf HG) in He. destruct He as [He Hav].
  exists D, P, host, path, nexthop. rewrite dijkstra_snd. auto 10.
Qed.

Lemma primary_ports_avoid_failures_witness :
  exists cmds,
    rpc (fst (update_nexthops insertion_order ring3_failures
                (initial_state ring3 2)))
    = rpc (initial_state ring3 2) ++ cmds /\
    forall switch i p, In (register_write switch "primaryNH" i p) cmds ->
      exists D P host path nexthop,
        snd (dijkstra ring3_failures (initial_state ring3 2)) = Ok (D, P) /\
        In switch (controllers (initial_state ring3 2)) /\
        In host (get_hosts (topo (initial_state ring3 2))) /\
        host_index (topo (initial_state ring3 2)) host = Ok i /\
        lookup2 P switch host = Ok path /\ nth_error path 1 = Some nexthop /\
        node_to_node_port_num (topo (initial_state ring3 2)) switch nexthop
        = Ok p /\
        has_edge (topo (initial_state ring3 2)) switch nexthop /\
        forall f, In f (failed ring3_failures) -> ~ same_link f switch nexthop.
Proof.
  exact (@primary_ports_avoid_failures insertion_order ring3_failures
           (initial_state ring3 2) ring3_wf).
Defined.

(** The alternates are another matter: [compute_lfas] takes its candidates
    among the neighbours in [self.topo], failed links included. On the ring
    s1-s2-s3-s4 with hosts on s1 and s3, once the link s1-s2 has failed, the
    alternate of s1 towards h3 is s2, and [alternativeNH] gets the port of
    the failed link. *)
Definition ring4 : NetworkGraph :=
  graph_of
    [("h1", host_attr "10.0.1.1/24"); ("h3", host_attr "10.0.3.1/24");
     ("s1", switch_attr); ("s2", switch_attr); ("s3", switch_attr);
     ("s4", switch_attr)]
    [mk_link "h1" "s1" 1 0 1; mk_link "h3" "s3" 1 0 1;
     mk_link "s1" "s2" 1 2 2; mk_link "s2" "s3" 1 3 2; mk_link "s3" "s4" 1 3 2;
     mk_link "s4" "s1" 1 3 3].

Example alternate_over_failed_link :
  let failures := Some [("s1", "s2")] in
  let s := initial_state ring4 1 in
  let s' := fst (update_nexthops insertion_order failures s) in
  snd (update_nexthops insertion_order failures s) = Ok tt /\
  node_to_node_port_num ring4 "s1" "s2" = Ok 2%N /\
  host_index ring4 "h3" = Ok 1 /\
  In (register_write "s1" "primaryNH" 1 3) (rpc s') /\
  In (register_write "s1" "alternativeNH" 1 2) (rpc s').
Proof. vm_compute. repeat split; auto 30. Qed.

(* ================================================================== *)
(** ** The next-hop index in the table and in the registers *)

Lemma install_primary_cmds_write G switch dest c :
  In c (eff_cmds (install_primary_eff G switch dest)) ->
  primary_write G switch dest c.
Proof.
  intros H. apply install_primary_cmds in H.
  destruct H as (i & p & Hi & Hp & ->). exists i, p. auto.
Qed.

Lemma install_lfa_cmds_write G lfas switch dest c :
  In c (eff_cmds (install_lfa_eff G lfas switch dest)) ->
  alternative_write G lfas switch dest c.
Proof.
  unfold install_lfa_eff, alternative_write, backup_of.
  destruct dest as [host nexthop]. cbn [fst snd].
  destruct (host_index G host) as [i|]; simpl; [|intros []].
  destruct (String.eqb_spec host nexthop) as [->|Hne]; simpl; [intros []|].
  split; [exact Hne|].
  destruct (lookup2 lfas switch host) as [alt|e]; simpl in *.
  - destruct (node_to_node_port_num G switch alt) as [p|]; simpl in *; [|destruct H].
    destruct H as [<-|[]]. exists i, p. auto.
  - destruct (node_to_node_port_num G switch nexthop) as [p|]; simpl in *;
      [|destruct H].
    destruct H as [<-|[]]. exists i, p. auto.
Qed.

Lemma install_primary_eff_ok G switch dest :
  eff_res (install_primary_eff G switch dest) = Ok tt ->
  exists c, primary_write G switch dest c /\
            In c (eff_cmds (install_primary_eff G switch dest)).
Proof.
  unfold install_primary_eff, primary_write, eff_res, eff_cmds.
  destruct dest as [host nexthop]. cbn [fst snd].
  destruct (host_index G host) as [i|]; simpl; [|discriminate].
  destruct (node_to_node_port_num G switch nexthop) as [p|]; simpl; [|discriminate].
  intros _. eexists. split; [exists i, p; auto | now left].
Qed.

Lemma install_lfa_eff_ok G lfas switch dest :
  eff_res (install_lfa_eff G lfas switch dest) = Ok tt -> fst dest <> snd dest ->
  exists c, alternative_write G lfas switch dest c /\
            In c (eff_cmds (install_lfa_eff G lfas switch dest)).
Proof.
  intros Hres Hne.
  assert (exists c, In c (eff_cmds (install_lfa_eff G lfas switch dest)))
    as [c Hc].
  { revert Hres. unfold install_lfa_eff, eff_res, eff_cmds.
    destruct dest as [host nexthop]. cbn [fst snd] in *.
    destruct (host_index G host) as [i|]; simpl; [|discriminate].
    destruct (String.eqb_spec host nexthop) as [?|_]; [contradiction|].
    destruct (lookup2 lfas switch host) as [alt|e]; simpl.
    - destruct (node_to_node_port_num G switch alt) as [p|]; simpl; [|discriminate].
      intros _. eexists. now left.
    - destruct (node_to_node_port_num G switch nexthop) as [p|]; simpl;
        [|discriminate].
      intros _. eexists. now left. }
  exists c. split; [now apply install_lfa_cmds_write | exact Hc].
Qed.

(** What the loop for one switch sends is a write of one of its pairs. *)
Lemma install_switch_writes G ctl lfas switch dests c :
  In c (eff_cmds (install_switch_eff G ctl lfas (switch, dests))) ->
  exists dest, In dest dests /\
    (primary_write G switch dest c \/ alternative_write G lfas switch dest c).
Proof.
  unfold install_switch_eff. intros H.
  apply eff_bind_cmds in H. destruct H as [[]|(_ & _ & H)].
  apply eff_bind_cmds in H. destruct H as [[]|(_ & _ & H)].
  apply eff_bind_cmds in H. destruct H as [H|(_ & _ & H)].
  - apply eff_each_cmds in H. destruct H as (dest & Hd & H).
    exists dest. split; [exact Hd|]. left. now apply install_primary_cmds_write.
  - apply eff_bind_cmds in H. destruct H as [[]|(_ & _ & H)].
    apply eff_bind_cmds in H. destruct H as [[]|(_ & _ & H)].
    apply eff_each_cmds in H. destruct H as (dest & Hd & H).
    exists dest. split; [exact Hd|]. right. now apply install_lfa_cmds_write.
Qed.

(** When the loop for one switch returns, every pair has its writes. *)
Lemma install_switch_complete G ctl lfas switch dests :
  eff_res (install_switch_eff G ctl lfas (switch, dests)) = Ok tt ->
  forall dest, In dest dests ->
    (exists c, primary_write G switch dest c /\
               In c (eff_cmds (install_switch_eff G ctl lfas (switch, dests)))) /\
    (fst dest <> snd dest ->
     exists c, alternative_write G lfas switch dest c /\
               In c (eff_cmds (install_switch_eff G ctl lfas (switch, dests)))).
Proof.
  intros Hres dest Hd.
  destruct (install_switch_parts _ _ _ _ _ Hres) as (Hlfa & _ & Hlc).
  assert (Hpc := install_switch_primary _ _ _ _ _ Hres).
  assert (Hprim : eff_res (eff_each dests (install_primary_eff G switch)) = Ok tt).
  { revert Hres. unfold install_switch_eff. intros H.
    apply eff_bind_ok in H. destruct H as ([] & _ & H & _).
    apply eff_bind_ok in H. destruct H as ([] & _ & H & _).
    apply eff_bind_ok in H. destruct H as ([] & H & _). exact H. }
  split.
  - destruct (eff_each_ok _ _ Hprim _ Hd) as (H1 & _ & H3).
    destruct (install_primary_eff_ok _ _ _ H1) as (c & Hw & Hc).
    exists c. split; [exact Hw|]. apply Hpc, H3, Hc.
  - intros Hne. destruct (eff_each_ok _ _ Hlfa _ Hd) as (H1 & _ & H3).
    destruct (install_lfa_eff_ok _ _ _ _ H1 Hne) as (c & Hw & Hc).
    exists c. split; [exact Hw|]. apply Hlc, H3, Hc.
Qed.

(** When the loop of [install_nexthop_indices] for one switch returns,
    every host has its entry. *)
Lemma install_indices_complete G switch :
  eff_res (install_indices_eff G switch) = Ok tt ->
  forall host, In host (get_hosts G) ->
    exists subnet i,
      host_gateway_ip G host = Ok subnet /\ host_index G host = Ok i /\
      In (table_add switch "ipv4_lpm" "read_port" [subnet] [str i])
         (eff_cmds (install_indices_eff G switch)).
Proof.
  unfold install_indices_eff. intros H host Hh.
  apply eff_bind_ok in H. destruct H as ([] & _ & H & _ & ->).
  apply eff_bind_ok in H. destruct H as ([] & _ & H & _ & ->).
  apply eff_bind_ok in H. destruct H as ([] & _ & H & _ & ->).
  destruct (eff_each_ok _ _ H _ Hh) as (H1 & _ & H3).
  revert H1 H3. unfold install_index_eff, eff_res, eff_cmds.
  destruct (host_gateway_ip G host) as [subnet|]; simpl; [|discriminate].
  destruct (host_index G host) as [i|]; simpl; [|discriminate].
  intros _ H3. exists subnet, i. split; [reflexivity|]. split; [reflexivity|].
  right. apply H3. now left.
Qed.

(** C10. The next-hop index of a host is a function of the topology and
    the host alone: [get_nexthop_index] changes nothing and returns the
    position of the host in the sorted list of the host names; every host
    has one, and two hosts with the same index are the same host. The three
    places that are addressed by it agree, on whichever switch. Every call
    of [install_nexthop_indices] to a switch clears [ipv4_lpm] or adds the
    entry that maps the subnet of a host to the index of that host, and when
    it returns every switch has that entry for every host. Every call of
    [update_nexthops] is, for a pair [(host, nexthop)] recorded for the
    switch, the write of [primaryNH] at the index of that host with the port
    towards that next hop, or (the next hop not being the host) the write of
    [alternativeNH] at the index of that host with the port towards its
    backup next hop; and when [update_nexthops] returns, every recorded pair
    has had its writes. *)
Theorem nexthop_index_consistent
  (set_iter : forall A : Type, list A -> list A)
  (failures : option (list Edge)) (s : State) :
  (forall host, get_nexthop_index host s = (s, host_index (topo s) host)) /\
  Sorted leb_true (sorted (get_hosts (topo s))) /\
  Permutation (get_hosts (topo s)) (sorted (get_hosts (topo s))) /\
  (forall host i, host_index (topo s) host = Ok i ->
                  nth_error (sorted (get_hosts (topo s))) i = Some host) /\
  (forall host, In host (get_hosts (topo s)) ->
                exists i, host_index (topo s) host = Ok i) /\
  (forall h1 h2 i, host_index (topo s) h1 = Ok i ->
                   host_index (topo s) h2 = Ok i -> h1 = h2) /\
  (exists cmds,
     rpc (fst (install_nexthop_indices s)) = rpc s ++ cmds /\
     (forall c, In c cmds ->
        exists switch, In switch (controllers s) /\ index_entry (topo s) switch c) /\
     (snd (install_nexthop_indices s) = Ok tt ->
      forall switch host,
        In switch (controllers s) -> In host (get_hosts (topo s)) ->
        exists subnet i,
          host_gateway_ip (topo s) host = Ok subnet /\
          host_index (topo s) host = Ok i /\
          In (table_add switch "ipv4_lpm" "read_port" [subnet] [str i]) cmds)) /\
  (exists cmds,
     rpc (fst (update_nexthops set_iter failures s)) = rpc s ++ cmds /\
     (forall c, In c cmds ->
        exists nexthops lfas,
          snd (compute_nexthops failures s) = Ok nexthops /\
          snd (compute_lfas set_iter nexthops failures s) = Ok lfas /\
          index_write (topo s) nexthops lfas c) /\
     (snd (update_nexthops set_iter failures s) = Ok tt ->
      exists nexthops lfas,
        snd (compute_nexthops failures s) = Ok nexthops /\
        snd (compute_lfas set_iter nexthops failures s) = Ok lfas /\
        forall switch dests dest,
          In (switch, dests) nexthops -> In dest dests ->
          (exists c, primary_write (topo s) switch dest c /\ In c cmds) /\
          (fst dest <> snd dest ->
           exists c, alternative_write (topo s) lfas switch dest c /\ In c cmds))).
Proof.
  split; [reflexivity|]. split; [apply sorted_Sorted|].
  split; [apply sorted_perm|]. split; [intros host i; apply list_index_nth|].
  split.
  { intros host Hin. apply list_index_In.
    now apply (Permutation_in _ (sorted_perm _)). }
  split; [intros h1 h2 i; apply list_index_inj|].
  assert (Hnh : forall nexthops,
            eff_res (nexthops_eff (topo s) (controllers s) failures) = Ok nexthops ->
            snd (compute_nexthops failures s) = Ok nexthops).
  { intros nexthops Hn.
    destruct (@runs_compute_nexthops (topo s) (controllers s) failures s
                eq_refl eq_refl) as [cs' ->]. exact Hn. }
  assert (Hlf : forall nexthops lfas,
            lfas_res set_iter (topo s) nexthops failures = Ok lfas ->
            snd (compute_lfas set_iter nexthops failures s) = Ok lfas).
  { intros nexthops lfas Hl. rewrite compute_lfas_snd. exact Hl. }
  split.
  - destruct (@runs_install_nexthop_indices (topo s) (controllers s) s eq_refl eq_refl)
      as [cs ->].
    eexists. split; [reflexivity|]. split.
    + intros c Hc. apply eff_each_cmds in Hc. destruct Hc as (switch & Hsw & Hc).
      exists switch. split; [exact Hsw|]. now apply install_indices_cmds in Hc.
    + cbn [snd]. intros Hres switch host Hsw Hh.
      destruct (eff_each_ok _ _ Hres _ Hsw) as (H1 & _ & H3).
      destruct (install_indices_complete _ _ H1 _ Hh) as (subnet & i & Hs & Hi & Hc).
      exists subnet, i. auto.
  - destruct (update_nexthops_run set_iter failures s) as [cs ->].
    eexists. split; [reflexivity|]. split.
    + intros c Hc. apply update_eff_cmds in Hc.
      destruct Hc as (nexthops & lfas & switch & dests & Hn & Hl & Hin & Hc).
      exists nexthops, lfas. split; [now apply Hnh|]. split; [now apply Hlf|].
      apply install_switch_writes in Hc. destruct Hc as (dest & Hd & Hc).
      exists switch, dests, dest. auto.
    + cbn [snd]. unfold update_eff. intros Hres.
      apply eff_bind_ok in Hres. destruct Hres as (nexthops & Hn & Hres & _ & ->).
      apply eff_bind_ok in Hres. destruct Hres as (lfas & Hl & Hres & _ & ->).
      exists nexthops, lfas. split; [now apply Hnh|]. split; [now apply Hlf|].
      intros switch dests dest Hsw Hd.
      destruct (eff_each_ok _ _ Hres _ Hsw) as (H1 & _ & H3).
      destruct (install_switch_complete _ _ _ _ _ H1 _ Hd) as [Hp Ha].
      split.
      * destruct Hp as (c & Hw & Hc). exists c. split; [exact Hw|].
        apply in_or_app. right. apply in_or_app. right. now apply H3.
      * intros Hne. destruct (Ha Hne) as (c & Hw & Hc). exists c.
        split; [exact Hw|].
        apply in_or_app. right. apply in_or_app. right. now apply H3.
Qed.

(** On the ring with the link s1-s2 down, for the host h2 (index 1) on the
    switch s1: the table entry, the write of [primaryNH] (port 3, towards
    s3) and the write of [alternativeNH] (port 2, towards the alternate s2)
    are all at index 1. *)
Example nexthop_index_ring3 :
  let s := initial_state ring3 2 in
  host_index ring3 "h2" = Ok 1 /\
  snd (install_nexthop_indices s) = Ok tt /\
  In (table_add "s1" "ipv4_lpm" "read_port" ["10.0.2.1/24"] ["1"])
     (rpc (fst (install_nexthop_indices s))) /\
  snd (update_nexthops insertion_order ring3_failures s) = Ok tt /\
  In (register_write "s1" "primaryNH" 1 3)
     (rpc (fst (update_nexthops insertion_order ring3_failures s))) /\
  In (register_write "s1" "alternativeNH" 1 2)
     (rpc (fst (update_nexthops insertion_order ring3_failures s))).
Proof. vm_compute. repeat split; auto 40. Qed.
